(** * AION-CR modular training: a shallow embedding of
    [training/modular_training_implementation.py]

    The file follows the Python module class by class: the parameter
    aggregation of [ModularTrainer] (federated averaging, differential
    privacy), [ModuleIntegrator] / [EnsembleModel], the supervisory loop
    of [ContinuousLearningPipeline], the loading of datasets by
    [DatasetManager], and the training, registration and federated learning
    of [ModularTrainer].

    Conventions of the embedding.
    - Floating-point numbers are idealised as exact rationals ([Q]); a
      tensor is the list of its elements, its shape being its length.
    - Python objects live in a store: an [nn.Module] is an address into
      [nn_modules], whose entry maps parameter names to tensor addresses, in
      [state_dict] order; tensors are addresses into [tensors].  Two
      handles are the same object exactly when they are the same address.
    - A random generator is the stream of numbers it is going to yield
      ([torch_rng] for torch's global generator, [np_rng] for
      [np.random]) together with the count of draws already consumed.
      [torch_rng] is read by [torch.randn_like] and [nn.Linear] only; for
      [torch.randn_like] its values are the independent standard normal
      values of the library, one per index, and a statement made for every
      stream says how a result depends on them.
    - A Python call either returns or raises: [result].
    - Attribute access on an [nn.Module] follows Python's lookup order and
      [nn.Module]'s [__setattr__] / [__getattr__] ([setattr], [getattr]); an
      attribute a class does not define raises [AttributeError]. *)

From Stdlib Require Import QArith Lia.
From stdpp Require Import base list strings.

Open Scope string_scope.

(** ** Exceptions and results

    [ValueError] carries the message given in the source; [KeyError] the
    missing key or the name that was refused, [AttributeError] the missing
    attribute and [RuntimeError] the torch operation that rejected its
    arguments. *)

Inductive exn : Type :=
  | ValueError (msg : string)
  | KeyError (key : string)
  | RuntimeError (op : string)
  | ZeroDivisionError
  | AttributeError (attr : string)
  | TypeError
  | NotImplementedError
  | CancelledError
  | KeyboardInterrupt.

(** [isinstance(e, Exception)]: [asyncio.CancelledError] and
    [KeyboardInterrupt] derive from [BaseException] only. *)
Definition is_Exception (e : exn) : bool :=
  match e with
  | CancelledError | KeyboardInterrupt => false
  | _ => true
  end.

Inductive result (A : Type) : Type :=
  | Ok (a : A)
  | Raise (e : exn).
Arguments Ok {A} a.
Arguments Raise {A} e.

Definition rbind {A B} (r : result A) (k : A → result B) : result B :=
  match r with
  | Ok a => k a
  | Raise e => Raise e
  end.

Fixpoint rmap_list {A B} (f : A → result B) (l : list A) : result (list B) :=
  match l with
  | [] => Ok []
  | x :: l' =>
      rbind (f x) (λ y, rbind (rmap_list f l') (λ ys, Ok (y :: ys)))
  end.

(** ** Tensors and the object store *)

Abbreviation tensor := (list Q).

(** A value held by a local Python dict obtained from [state_dict()]: either
    the parameter tensor itself (sharing its storage), or a tensor computed
    afterwards and bound to the key. *)
Inductive tref : Type :=
  | Alias (addr : nat)
  | Fresh (t : tensor).

Record world : Type := World {
  tensors : list tensor;
  nn_modules : list (list (string * nat));
  torch_rng : nat → Q;
  rng_pos : nat;
}.

Definition deref (w : world) (addr : nat) : tensor :=
  default [] (tensors w !! addr).

Definition read (w : world) (r : tref) : tensor :=
  match r with
  | Alias a => deref w a
  | Fresh t => t
  end.

Definition params_of (w : world) (m : nat) : list (string * nat) :=
  default [] (nn_modules w !! m).

(** [m.state_dict()]: an ordered dict from parameter names to the
    parameters' own tensors. *)
Definition state_dict (w : world) (m : nat) : list (string * tref) :=
  map (λ kv, (kv.1, Alias kv.2)) (params_of w m).

Definition keys {V} (d : list (string * V)) : list string := map fst d.

Fixpoint dict_get {V} (d : list (string * V)) (key : string) : option V :=
  match d with
  | [] => None
  | (k, v) :: d' => if String.eqb k key then Some v else dict_get d' key
  end.

(** [d[key]] *)
Definition getitem {V} (d : list (string * V)) (key : string) : result V :=
  match dict_get d key with
  | Some v => Ok v
  | None => Raise (KeyError key)
  end.

(** [d[key] = v] *)
Fixpoint setitem {V} (d : list (string * V)) (key : string) (v : V)
  : list (string * V) :=
  match d with
  | [] => [(key, v)]
  | (k, v') :: d' =>
      if String.eqb k key then (k, v) :: d' else (k, v') :: setitem d' key v
  end.

Definition write (w : world) (addr : nat) (t : tensor) : world :=
  World (<[addr := t]> (tensors w)) (nn_modules w) (torch_rng w) (rng_pos w).

(** [torch.stack(tensors)] *)
Definition torch_stack (ts : list tensor) : result (list tensor) :=
  match ts with
  | [] => Raise (RuntimeError "torch.stack")
  | t :: rest =>
      if forallb (λ t', Nat.eqb (length t') (length t)) rest
      then Ok ts
      else Raise (RuntimeError "torch.stack")
  end.

Definition tensor_add (a b : tensor) : tensor := zip_with Qplus a b.

(** [stacked.mean(dim=0)]: the rows are summed element by element and every
    sum is divided by the number of rows. *)
Definition mean_dim0 (rows : list tensor) : tensor :=
  match rows with
  | [] => []
  | t :: rest =>
      map (λ s, (s / inject_Z (Z.of_nat (length rows)))%Q)
          (fold_left tensor_add rest t)
  end.

(** [model.load_state_dict(sd)] with the default [strict=True]: every
    parameter of the model is overwritten in place ([copy_]) by the entry of
    the same name; missing or unexpected keys and size mismatches are
    collected and reported once the copies are done. *)
Fixpoint copy_params (params : list (string * nat)) (sd : list (string * tref))
    (w : world) : bool * world :=
  match params with
  | [] => (true, w)
  | (k, a) :: params' =>
      match dict_get sd k with
      | Some r =>
          let v := read w r in
          if Nat.eqb (length v) (length (deref w a))
          then copy_params params' sd (write w a v)
          else let '(_, w') := copy_params params' sd w in (false, w')
      | None => let '(_, w') := copy_params params' sd w in (false, w')
      end
  end.

Definition load_state_dict (m : nat) (sd : list (string * tref)) (w : world)
  : result unit * world :=
  let params := params_of w m in
  let '(ok, w') := copy_params params sd w in
  if ok && forallb (λ k, bool_decide (k ∈ keys params)) (keys sd)
  then (Ok (), w')
  else (Raise (RuntimeError "load_state_dict"), w').

(** ** ModularTrainer: aggregation of trained modules *)

(** The list comprehension
    [[m.state_dict()[key].float() for m in models]]. *)
Definition tensors_at (w : world) (models : list nat) (key : string)
  : result (list tensor) :=
  rmap_list (λ m, rbind (getitem (state_dict w m) key) (λ r, Ok (read w r)))
            models.

(** The loop [for key in avg_state_dict.keys(): ...]. *)
Fixpoint average_loop (w : world) (models : list nat) (ks : list string)
    (avg_state_dict : list (string * tref)) : result (list (string * tref)) :=
  match ks with
  | [] => Ok avg_state_dict
  | key :: ks' =>
      rbind (tensors_at w models key) (λ ts,
      rbind (torch_stack ts) (λ stacked,
      average_loop w models ks'
        (setitem avg_state_dict key (Fresh (mean_dim0 stacked)))))
  end.

Definition _federated_averaging (models : list nat) (w : world)
  : result nat * world :=
  match models with
  | [] => (Raise (ValueError "No models to average"), w)
  | avg_model :: _ =>
      let avg_state_dict := state_dict w avg_model in
      match average_loop w models (keys avg_state_dict) avg_state_dict with
      | Raise e => (Raise e, w)
      | Ok avg_state_dict' =>
          match load_state_dict avg_model avg_state_dict' w with
          | (Raise e, w') => (Raise e, w')
          | (Ok _, w') => (Ok avg_model, w')
          end
      end
  end.

(** [torch.randn_like(t)]: as many draws as [t] has elements. *)
Definition draw (n : nat) (w : world) : tensor * world :=
  (map (torch_rng w) (seq (rng_pos w) n),
   World (tensors w) (nn_modules w) (torch_rng w) (rng_pos w + n)).

Definition randn_like (t : tensor) (w : world) : tensor * world :=
  draw (length t) w.

(** Python's [a / b] on floats. *)
Definition float_div (a b : Q) : result Q :=
  if Qeq_bool b 0
  then Raise ZeroDivisionError
  else Ok (a / b)%Q.

(** Python's [needle in hay] on strings. *)
Fixpoint contains (needle hay : string) : bool :=
  if String.prefix needle hay then true
  else match hay with
       | EmptyString => false
       | String _ hay' => contains needle hay'
       end.

(** [d[key] += noise]: the tensor bound to the key is updated in place and
    the key is bound to it again. *)
Definition iadd (r : tref) (noise : tensor) (w : world) : tref * world :=
  match r with
  | Alias a => (Alias a, write w a (tensor_add (deref w a) noise))
  | Fresh t => (Fresh (tensor_add t noise), w)
  end.

(** The loop [for key in state_dict.keys(): ...] of
    [_apply_differential_privacy]. *)
Fixpoint privacy_loop (ks : list string) (state_dict : list (string * tref))
    (epsilon : Q) (w : world) : result (list (string * tref)) * world :=
  match ks with
  | [] => (Ok state_dict, w)
  | key :: ks' =>
      if contains "weight" key || contains "bias" key then
        let sensitivity := 1%Q in
        match float_div sensitivity epsilon with
        | Raise e => (Raise e, w)
        | Ok noise_scale =>
            match getitem state_dict key with
            | Raise e => (Raise e, w)
            | Ok r =>
                let '(z, w1) := randn_like (read w r) w in
                let noise := map (λ x, (x * noise_scale)%Q) z in
                let '(r', w2) := iadd r noise w1 in
                privacy_loop ks' (setitem state_dict key r') epsilon w2
            end
        end
      else privacy_loop ks' state_dict epsilon w
  end.

Definition _apply_differential_privacy (model : nat) (epsilon : Q) (w : world)
  : result nat * world :=
  let sd := state_dict w model in
  match privacy_loop (keys sd) sd epsilon w with
  | (Raise e, w') => (Raise e, w')
  | (Ok sd', w') =>
      match load_state_dict model sd' w' with
      | (Raise e, w'') => (Raise e, w'')
      | (Ok _, w'') => (Ok model, w'')
      end
  end.

(** ** ModuleIntegrator and EnsembleModel *)

Definition hidden_size : nat := 768.
Definition num_labels : nat := 2.

Record Linear : Type := MkLinear {
  in_features : nat;
  out_features : nat;
  weight : list tensor;
  bias : tensor;
}.

Fixpoint rows (width count : nat) (l : list Q) : list tensor :=
  match count with
  | O => []
  | S count' => take width l :: rows width count' (drop width l)
  end.

(** [nn.Linear(in_features, out_features)]: an [out_features] by
    [in_features] weight matrix and a bias vector, freshly initialised from
    the generator. *)
Definition nn_Linear (inf outf : nat) (w : world) : Linear * world :=
  let '(wt, w1) := draw (outf * inf) w in
  let '(b, w2) := draw outf w1 in
  (MkLinear inf outf (rows inf outf wt) b, w2).

Definition dot (a b : tensor) : Q := foldr Qplus 0%Q (zip_with Qmult a b).

Definition linear_forward (l : Linear) (x : tensor) : result tensor :=
  if Nat.eqb (length x) (in_features l)
  then Ok (zip_with (λ row b, (dot row x + b)%Q) (weight l) (bias l))
  else Raise (RuntimeError "F.linear").

Definition torch_relu (x : tensor) : tensor :=
  map (λ v, if Qle_bool v 0 then 0%Q else v) x.

(** [torch.cat(outputs, dim=-1)] on feature vectors. *)
Definition torch_cat (outputs : list tensor) : result tensor :=
  match outputs with
  | [] => Raise (RuntimeError "torch.cat")
  | _ => Ok (concat outputs)
  end.

(** What an attribute of an [EnsembleModel] instance can evaluate to. *)
Inductive py_value : Type :=
  | VModuleDict (items : list (string * nat))
  | VLinear (l : Linear)
  | VMethod (name : string).

(** An [nn.Module] instance keeps the submodules assigned to it in its
    [_modules] table, not in its instance dictionary. *)
Record EnsembleModel : Type := MkEnsemble {
  _modules : list (string * py_value);
}.

(** Attributes that ordinary lookup finds on the class [EnsembleModel]: its
    own [forward] and the public methods it inherits from
    [torch.nn.Module], among them [modules()], the iterator over all
    submodules. *)
Definition class_attributes : list string :=
  [ "forward"; "register_buffer"; "register_parameter"; "add_module";
    "register_module"; "get_submodule"; "set_submodule"; "get_parameter";
    "get_buffer"; "get_extra_state"; "set_extra_state"; "apply"; "cuda";
    "ipu"; "xpu"; "cpu"; "type"; "float"; "double"; "half"; "bfloat16";
    "to_empty"; "to"; "register_full_backward_pre_hook";
    "register_backward_hook"; "register_full_backward_hook";
    "register_forward_pre_hook"; "register_forward_hook";
    "register_state_dict_pre_hook"; "state_dict";
    "register_load_state_dict_post_hook"; "load_state_dict"; "parameters";
    "named_parameters"; "buffers"; "named_buffers"; "children";
    "named_children"; "modules"; "named_modules"; "train"; "eval";
    "requires_grad_"; "zero_grad"; "share_memory"; "extra_repr"; "compile" ].

(** [super().__init__()] *)
Definition nn_Module_init : EnsembleModel := MkEnsemble [].

(** [self.name = value] for a value that is an [nn.Module]:
    [nn.Module.__setattr__] registers it in [_modules]. *)
Definition setattr (self : EnsembleModel) (name : string) (value : py_value)
  : EnsembleModel :=
  MkEnsemble (setitem (_modules self) name value).

(** [self.name]. Python looks the name up the ordinary way first: in the
    instance dictionary, which holds no submodule, then on the class. Only
    when that fails does it call [nn.Module.__getattr__], which consults
    [_modules]. A submodule registered under the name of a method is
    therefore shadowed by the method. *)
Definition getattr (self : EnsembleModel) (name : string) : result py_value :=
  if bool_decide (name ∈ class_attributes) then Ok (VMethod name)
  else match dict_get (_modules self) name with
       | Some v => Ok v
       | None => Raise (AttributeError name)
       end.

(** [v.items()] *)
Definition items (v : py_value) : result (list (string * nat)) :=
  match v with
  | VModuleDict d => Ok d
  | VLinear _ | VMethod _ => Raise (AttributeError "items")
  end.

(** [v(x)] *)
Definition call (v : py_value) (x : tensor) : result tensor :=
  match v with
  | VLinear l => linear_forward l x
  | VModuleDict _ => Raise NotImplementedError
  | VMethod _ => Raise TypeError
  end.

(** A Python dict given by a list of items: an item whose key occurred
    before replaces the value bound to that key. *)
Definition dict_of {V} (items : list (string * V)) : list (string * V) :=
  foldl (λ d kv, setitem d kv.1 kv.2) [] items.

Section ModuleDict.

(** [hasattr(d, name)] on an [nn.ModuleDict] [d], the submodules registered
    in [d] left aside: whether [name] is one of the attributes the class and
    a new instance have. *)
Variable ModuleDict_hasattr : string → bool.

(** [d[name] = module] on an [nn.ModuleDict], that is [d.add_module(name,
    module)]: the name must not be an attribute of [d] other than a
    registered submodule, must not contain a dot and must not be empty. *)
Definition add_module (name : string) (module : nat) (d : list (string * nat))
  : result (list (string * nat)) :=
  if ModuleDict_hasattr name && negb (bool_decide (name ∈ keys d))
  then Raise (KeyError name)
  else if contains "." name then Raise (KeyError name)
  else if String.eqb name "" then Raise (KeyError name)
  else Ok (setitem d name module).

(** [d.update(modules)]: the items are added one after the other. *)
Fixpoint update (items : list (string * nat)) (d : list (string * nat))
  : result (list (string * nat)) :=
  match items with
  | [] => Ok d
  | (name, module) :: items' =>
      rbind (add_module name module d) (update items')
  end.

(** [nn.ModuleDict(modules)] *)
Definition nn_ModuleDict (modules : list (string * nat)) : result py_value :=
  rbind (update modules []) (λ d, Ok (VModuleDict d)).

(** [EnsembleModel.__init__]. The argument is a Python dict, so the items
    given are read as one ([dict_of]); [len(modules)] counts its keys. The
    [KeyError] of [nn.ModuleDict] leaves [__init__] before any layer is
    drawn. The error carries the offending name where Python formats a
    message around it. *)
Definition EnsembleModel__init__ (modules : list (string * nat)) (w : world)
  : result EnsembleModel * world :=
  let modules := dict_of modules in
  let self := nn_Module_init in
  match nn_ModuleDict modules with
  | Raise e => (Raise e, w)
  | Ok module_dict =>
      let self := setattr self "modules" module_dict in
      let '(l, w1) := nn_Linear (length modules * hidden_size) hidden_size w in
      let self := setattr self "integration_layer" (VLinear l) in
      let '(c, w2) := nn_Linear hidden_size num_labels w1 in
      let self := setattr self "classifier" (VLinear c) in
      (Ok self, w2)
  end.

(** [ModuleIntegrator.create_ensemble]: [return EnsembleModel(modules)]. *)
Definition create_ensemble (modules : list (string * nat)) (w : world)
  : result EnsembleModel * world :=
  EnsembleModel__init__ modules w.

End ModuleDict.

Definition param_values (w : world) (m : nat) : list (string * tensor) :=
  map (λ kv, (kv.1, deref w kv.2)) (params_of w m).

Section Backend.

(** [module(input_ids, attention_mask).pooler_output], as a function of
    the module's parameters and of the encoded input. *)
Variable pooler_output :
  list (string * tensor) → list Z → option (list Z) → tensor.

(** The statements of [forward] that follow the iteration header. *)
Definition forward_over (self : EnsembleModel) (members : list (string * nat))
    (input_ids : list Z) (attention_mask : option (list Z)) (w : world)
  : result tensor :=
  let outputs :=
    map (λ nm, pooler_output (param_values w nm.2) input_ids attention_mask)
        members in
  rbind (torch_cat outputs) (λ combined,
  rbind (getattr self "integration_layer") (λ layer,
  rbind (call layer combined) (λ integrated,
  let integrated := torch_relu integrated in
  rbind (getattr self "classifier") (λ classifier,
  rbind (call classifier integrated) (λ logits,
  Ok logits))))).

Definition forward (self : EnsembleModel) (input_ids : list Z)
    (attention_mask : option (list Z)) (w : world) : result tensor :=
  rbind (getattr self "modules") (λ modules,
  rbind (items modules) (λ members,
  forward_over self members input_ids attention_mask w)).

End Backend.

(** ** ModularTrainer: training and the registry of trained modules *)

Record ModuleConfig : Type := MkModuleConfig {
  name : string;
  base_model : string;
  datasets : list string;
  learning_rate : Q;
  batch_size : nat;
  epochs : nat;
  max_length : nat;
  jurisdiction : option string;
  domain : option string;
}.

Inductive event : Type :=
  | LogInfo (msg : string)
  | LogError (e : exn)
  | Sleep (seconds : Z).

(** The state the trainer and the pipeline act on: the object store, the
    trainer's [trained_modules] dict, the pipeline's [performance_history],
    numpy's generator, and what was logged or slept so far. *)
Record state : Type := MkState {
  store : world;
  trained_modules : list (string * nat);
  performance_history : list Q;
  np_rng : nat → Q;
  np_pos : nat;
  trace : list event;
}.

Definition emit (ev : event) (s : state) : state :=
  MkState (store s) (trained_modules s) (performance_history s) (np_rng s)
          (np_pos s) (trace s ++ [ev]).

Definition P (A : Type) : Type := state → result A * state.

Definition raise {A} (e : exn) : P A := λ s, (Raise e, s).

#[export] Instance P_ret : MRet P := λ A a s, (Ok a, s).

#[export] Instance P_bind : MBind P := λ A B k c s,
  match c s with
  | (Ok a, s') => k a s'
  | (Raise e, s') => (Raise e, s')
  end.

Definition logger_info (msg : string) : P unit := λ s, (Ok (), emit (LogInfo msg) s).

Definition logger_error (e : exn) : P unit := λ s, (Ok (), emit (LogError e) s).

Definition asyncio_sleep (seconds : Z) : P unit :=
  λ s, (Ok (), emit (Sleep seconds) s).

(** A new module object whose parameters hold the given values. *)
Definition new_module (params : list (string * tensor)) (w : world)
  : nat * world :=
  let base := length (tensors w) in
  let named := imap (λ i kv, (kv.1, base + i)) params in
  (length (nn_modules w),
   World (tensors w ++ map snd params) (nn_modules w ++ [named])
         (torch_rng w) (rng_pos w)).

Section Trainer.

(** Everything [train_module] delegates to the libraries, from
    [from_pretrained] and the loading of the datasets to [trainer.train()]
    and [save_model]: the trained parameters, or the exception raised on
    the way. *)
Variable fit : ModuleConfig → result (list (string * tensor)).

(** [str(self.output_dir)] *)
Variable output_dir : string.

(** [self.trained_modules[config.name] = model] *)
Definition register (key : string) (model : nat) : P unit :=
  λ s, (Ok (),
        MkState (store s) (setitem (trained_modules s) key model)
                (performance_history s) (np_rng s) (np_pos s) (trace s)).

Definition run_fit (config : ModuleConfig) : P nat :=
  λ s, match fit config with
       | Raise e => (Raise e, s)
       | Ok params =>
           let '(model, w') := new_module params (store s) in
           (Ok model,
            MkState w' (trained_modules s) (performance_history s)
                    (np_rng s) (np_pos s) (trace s))
       end.

Definition train_module (config : ModuleConfig) : P nat :=
  logger_info ("Training module: " +:+ name config);;
  model ← run_fit config;
  register (name config) model;;
  logger_info ("Module " +:+ name config +:+ " trained and saved to "
               +:+ output_dir +:+ "/" +:+ name config);;
  mret model.

Definition lift_store {A} (f : world → result A * world) : P A :=
  λ s, let '(r, w') := f (store s) in
       (r, MkState w' (trained_modules s) (performance_history s)
                   (np_rng s) (np_pos s) (trace s)).

Fixpoint for_each {A} (l : list A) (body : A → P unit) : P unit :=
  match l with
  | [] => mret ()
  | x :: l' => body x;; for_each l' body
  end.

Fixpoint train_clients (client_configs : list ModuleConfig) : P (list nat) :=
  match client_configs with
  | [] => mret []
  | config :: rest =>
      model ← train_module config;
      client_models ← train_clients rest;
      mret (model :: client_models)
  end.

Definition federated_learning (client_configs : list ModuleConfig) : P nat :=
  client_models ← train_clients client_configs;
  global_model ← lift_store (_federated_averaging client_models);
  global_model ← lift_store (_apply_differential_privacy global_model 1%Q);
  mret global_model.

(** ** ContinuousLearningPipeline *)

Definition cycle_interval : Z := 86400.
Definition retry_interval : Z := 3600.

(** The body is [pass]: the coroutine returns [None]. *)
Definition collect_new_data : P unit := mret ().

(** [np.random.random()] *)
Definition evaluate_performance : P Q :=
  λ s, (Ok (np_rng s (np_pos s)),
        MkState (store s) (trained_modules s) (performance_history s)
                (np_rng s) (S (np_pos s)) (trace s)).

Definition identify_improvement_targets (performance : Q) : list string := [].

(** [self.performance_history.append(x)] *)
Definition history_append (x : Q) : P unit :=
  λ s, (Ok (),
        MkState (store s) (trained_modules s) (performance_history s ++ [x])
                (np_rng s) (np_pos s) (trace s)).

(** The attributes an instance of [ContinuousLearningPipeline] has: those
    set by [__init__] and the methods of the class. *)
Definition pipeline_attributes : list string :=
  [ "trainer"; "performance_history"; "run_training_loop";
    "collect_new_data"; "evaluate_performance";
    "identify_improvement_targets" ].

(** [self.attr] for an attribute given by its implementation. *)
Definition self_dot {A} (attr : string) (impl : P A) : P A :=
  if bool_decide (attr ∈ pipeline_attributes) then impl
  else raise (AttributeError attr).

(** The class defines neither of these two methods; [impl] is what the
    call would run if it did. *)
Definition get_module_config (module_name : string)
    (impl : string → P ModuleConfig) : P ModuleConfig :=
  self_dot "get_module_config" (impl module_name).

Definition deploy_updates (impl : P unit) : P unit :=
  self_dot "deploy_updates" impl.

Definition float_gt (a b : Q) : bool := negb (Qle_bool a b).

Definition deploying_message : string :=
  "Performance improved! Deploying updates...".

Variable config_of : string → P ModuleConfig.
Variable deploy : P unit.

(** The body of the [try] statement: one cycle. *)
Definition cycle : P unit :=
  new_data ← collect_new_data;
  current_performance ← evaluate_performance;
  history_append current_performance;;
  let modules_to_update := identify_improvement_targets current_performance in
  for_each modules_to_update (λ module_name,
    config ← get_module_config module_name config_of;
    train_module config;;
    mret ());;
  new_performance ← evaluate_performance;
  (if float_gt new_performance current_performance
   then logger_info deploying_message;; deploy_updates deploy
   else mret ());;
  asyncio_sleep cycle_interval.

(** [try: body  except Exception as e: handler e] *)
Definition try_except (body : P unit) (handler : exn → P unit) : P unit :=
  λ s, match body s with
       | (Raise e, s') =>
           if is_Exception e then handler e s' else (Raise e, s')
       | (Ok a, s') => (Ok a, s')
       end.

Definition on_error (e : exn) : P unit :=
  logger_error e;; asyncio_sleep retry_interval.

(** [while True: body], cut after [fuel] iterations: [Ok ()] means that
    the loop is about to start iteration [fuel + 1]; [Raise e] that an
    exception left the loop. *)
Fixpoint while_True (fuel : nat) (body : P unit) : P unit :=
  match fuel with
  | O => mret ()
  | S fuel' => body;; while_True fuel' body
  end.

Definition run_training_loop (fuel : nat) : P unit :=
  while_True fuel (try_except cycle on_error).

End Trainer.

(** ** DatasetManager *)

Definition AVAILABLE_DATASETS : list (string * string) :=
  [ ("lex_glue", "lex_glue");
    ("multi_eurlex", "multi_eurlex");
    ("casehold", "casehold/casehold");
    ("cuad", "cuad");
    ("eurlex", "eurlex");
    ("us_federal_register", "json");
    ("legal_bert", "pile-of-law/pile-of-law");
    ("financial_phrasebank", "financial_phrasebank");
    ("sec_filings", "json");
    ("pubmed", "pubmed");
    ("clinical_trials", "json") ].

(** What [load_dataset_for_module] logs: [logger.info] with the name and
    the number of examples, [logger.error] with the name and the
    exception. *)
Inductive load_event : Type :=
  | Loaded (name : string) (examples : nat)
  | LoadError (name : string) (e : exn).

Section DatasetManager.

(** The [datasets] library: the type of a dataset, [load_dataset(path,
    split="train")], [Dataset.from_dict] on a ["text"] and a ["label"]
    column, [concatenate_datasets] and [len]. *)
Variable Dataset : Type.
Variable load_dataset : string → result Dataset.
Variable from_dict : list string → list Z → Dataset.
Variable concatenate_datasets : list Dataset → result Dataset.
Variable len : Dataset → nat.

(** The request to the Federal Register API is prepared but never sent: the
    data are a hundred copies of one sample record. *)
Definition _load_federal_register : result Dataset :=
  Ok (from_dict (replicate 100 "Sample federal regulation text")
                (replicate 100 0%Z)).

(** The class has no method [_load_sec_filings]. *)
Definition _load_custom_dataset (name : string) : result Dataset :=
  if String.eqb name "us_federal_register" then _load_federal_register
  else if String.eqb name "sec_filings"
       then Raise (AttributeError "_load_sec_filings")
       else Raise NotImplementedError.

(** The body of the [try] statement for one name found in
    [AVAILABLE_DATASETS]. *)
Definition load_available (name path : string) : result Dataset :=
  if String.eqb path "json" then _load_custom_dataset name
  else load_dataset path.

(** The loop [for name in dataset_names: ...], with the list [datasets] and
    the log built up so far. *)
Fixpoint load_loop (dataset_names : list string) (datasets : list Dataset)
    (log : list load_event) : result (list Dataset) * list load_event :=
  match dataset_names with
  | [] => (Ok datasets, log)
  | name :: rest =>
      match dict_get AVAILABLE_DATASETS name with
      | None => load_loop rest datasets log
      | Some path =>
          match load_available name path with
          | Ok ds =>
              load_loop rest (datasets ++ [ds]) (log ++ [Loaded name (len ds)])
          | Raise e =>
              if is_Exception e
              then load_loop rest datasets (log ++ [LoadError name e])
              else (Raise e, log)
          end
      end
  end.

Definition load_dataset_for_module (dataset_names : list string)
  : result Dataset * list load_event :=
  match load_loop dataset_names [] [] with
  | (Raise e, log) => (Raise e, log)
  | (Ok [], log) => (Raise (ValueError "No datasets could be loaded"), log)
  | (Ok datasets, log) => (concatenate_datasets datasets, log)
  end.

End DatasetManager.

(** ** ModularTrainer: the built-in module configurations *)

(** [ModuleConfig(name=..., base_model=..., datasets=..., ...)] with the
    defaults of the dataclass for the fields left out. *)
Definition module_config (name base_model : string) (datasets : list string)
    (jurisdiction domain : option string) : ModuleConfig :=
  MkModuleConfig name base_model datasets (5 # 100000) 32 10 512
                 jurisdiction domain.

Definition create_jurisdiction_modules : list (string * ModuleConfig) :=
  [ ("US", module_config "US_Legal_Module" "nlpaueb/legal-bert-base-uncased"
             ["casehold"; "us_federal_register"] (Some "United States") None);
    ("EU", module_config "EU_Legal_Module" "nlpaueb/legal-bert-base-uncased"
             ["multi_eurlex"; "eurlex"] (Some "European Union") None);
    ("UK", module_config "UK_Legal_Module" "nlpaueb/legal-bert-base-uncased"
             ["lex_glue"] (Some "United Kingdom") None) ].

Definition create_domain_modules : list (string * ModuleConfig) :=
  [ ("Financial", module_config "Financial_Compliance_Module"
                    "yiyanghkust/finbert-tone"
                    ["financial_phrasebank"; "sec_filings"]
                    None (Some "Financial Services"));
    ("Healthcare", module_config "Healthcare_Compliance_Module"
                     "dmis-lab/biobert-v1.1"
                     ["pubmed"; "clinical_trials"] None (Some "Healthcare"));
    ("Contract", module_config "Contract_Analysis_Module"
                   "nlpaueb/legal-bert-base-uncased"
                   ["cuad"] None (Some "Contract Law")) ].

(** ** Vocabulary of the specification *)

(** The arithmetic mean of a sequence of numbers, each counted once. *)
Definition arithmetic_mean (xs : list Q) : Q :=
  (foldr Qplus 0 xs / inject_Z (Z.of_nat (length xs)))%Q.

(** The tensor a module holds under a parameter name. *)
Definition param_at (w : world) (m : nat) (key : string) : tensor :=
  match dict_get (params_of w m) key with
  | Some a => deref w a
  | None => []
  end.

(** Two modules share a parameter schema when they have the same parameter
    names, with tensors of the same size under each name. *)
Definition shape_at (w : world) (m : nat) (key : string) : option nat :=
  (λ a, length (deref w a)) <$> dict_get (params_of w m) key.

Definition same_schema (w : world) (m m' : nat) : Prop :=
  ∀ key, shape_at w m key = shape_at w m' key.

(** A module object as Python builds it: parameter names are the keys of a
    dict, hence distinct, and no two names share a tensor. *)
Definition well_formed (w : world) (m : nat) : Prop :=
  NoDup (params_of w m).*1 ∧ NoDup (params_of w m).*2.

(** The tensor [_federated_averaging] computes for a parameter name. *)
Definition averaged (w : world) (models : list nat) (key : string) : tensor :=
  mean_dim0 (map (λ m, param_at w m key) models).

(** The guard of [_apply_differential_privacy]. *)
Definition perturbed (key : string) : bool :=
  contains "weight" key || contains "bias" key.

(** How many draws the privacy loop has consumed when it reaches [key]: the
    sizes of the perturbed tensors that come before it. *)
Fixpoint noise_start (w : world) (params : list (string * nat)) (key : string)
  : nat :=
  match params with
  | [] => 0
  | (k, a) :: params' =>
      if String.eqb k key then 0
      else (if perturbed k then length (deref w a) else 0)
           + noise_start w params' key
  end.

(** The noise added to a tensor of [n] elements from draw [start] on. *)
Definition scaled_noise (w : world) (epsilon : Q) (start n : nat) : tensor :=
  map (λ x, (x * (1 / epsilon))%Q) (map (torch_rng w) (seq start n)).

(** The index, in the sequence of the generator, of the draw that goes to
    element [i] of the parameter [key]. *)
Definition draw_index (w : world) (params : list (string * nat)) (key : string)
    (i : nat) : nat :=
  (rng_pos w + noise_start w params key + i)%nat.

(** The state in which a cycle takes its second score. *)
Definition scored (s : state) : state :=
  MkState (store s) (trained_modules s)
          (performance_history s ++ [np_rng s (np_pos s)])%list
          (np_rng s) (S (S (np_pos s))) (trace s).

(** The events the loop itself can log. *)
Definition loop_event (ev : event) : Prop :=
  match ev with
  | LogInfo msg => msg = deploying_message
  | LogError _ | Sleep _ => True
  end.


(** How many times a run of events sleeps. *)
Fixpoint sleeps (evs : list event) : nat :=
  match evs with
  | [] => 0
  | Sleep _ :: evs' => S (sleeps evs')
  | _ :: evs' => sleeps evs'
  end.

(** A name [nn.ModuleDict] accepts for a submodule. *)
Definition acceptable (hasattr : string → bool) (name : string) : bool :=
  negb (hasattr name) && negb (contains "." name) && negb (String.eqb name "").

(** ** Sample stores and states *)

(** Two one-parameter modules, with weights [1] and [3]; the generator
    yields ones. *)
Definition w_two : world :=
  World [[1%Q]; [3%Q]] [[("weight", 0)]; [("weight", 1)]] (λ _, 1%Q) 0.

(** One module whose parameters are a layer-norm gain named ["gamma"] and a
    ["dense.weight"]; the generator yields ones. *)
Definition w_gamma : world :=
  World [[5%Q]; [7%Q]] [[("gamma", 0); ("dense.weight", 1)]] (λ _, 1%Q) 0.

(** One module with a two-element ["dense.weight"], a ["gamma"] and a
    ["dense.bias"]; the generator has handed out ten values and yields its
    own index next. *)
Definition w_dense : world :=
  World [[1%Q; 2%Q]; [5%Q]; [3%Q]]
        [[("dense.weight", 0); ("gamma", 1); ("dense.bias", 2)]]
        (λ n, inject_Z (Z.of_nat n)) 10.

(** One module whose only parameter is named ["gamma"]. *)
Definition w_norm : world := World [[5%Q]] [[("gamma", 0)]] (λ _, 1%Q) 0.

(** A training backend for which no dataset can be loaded. *)
Definition fit_unavailable (config : ModuleConfig)
  : result (list (string * tensor)) :=
  Raise (ValueError "No datasets could be loaded").

(** A state of the pipeline whose evaluations will read 0, 1, 2, ...: each
    second score exceeds the one before it. *)
Definition s_rising : state :=
  MkState w_two [] [] (λ n, inject_Z (Z.of_nat n)) 0 [].

(** A state whose next two evaluations read [pre] and then [post]. *)
Definition s_scores (pre post : Q) : state :=
  MkState w_two [] [] (λ n, if Nat.eqb n 0 then pre else post) 0 [].

(** What [load_dataset_for_module] returns once its loop is over. *)
Definition finish_loading {Dataset : Type}
    (concatenate_datasets : list Dataset → result Dataset)
    (r : result (list Dataset)) : result Dataset :=
  match r with
  | Raise e => Raise e
  | Ok [] => Raise (ValueError "No datasets could be loaded")
  | Ok datasets => concatenate_datasets datasets
  end.

(** The attempt made for one requested name: none when the name is not a key
    of [AVAILABLE_DATASETS]. *)
Definition attempt {Dataset : Type} (load_dataset : string → result Dataset)
    (from_dict : list string → list Z → Dataset) (name : string)
  : option (result Dataset) :=
  load_available Dataset load_dataset from_dict name
    <$> dict_get AVAILABLE_DATASETS name.

(** The datasets a list of names yields: those whose attempt succeeded, in
    the order of the request. *)
Definition loaded {Dataset : Type} (load_dataset : string → result Dataset)
    (from_dict : list string → list Z → Dataset) (names : list string)
  : list Dataset :=
  omap (λ name, match attempt load_dataset from_dict name with
                | Some (Ok ds) => Some ds
                | _ => None
                end) names.

(** No attempt for these names is cut short by an exception that is not an
    [Exception]. *)
Definition uninterrupted {Dataset : Type}
    (load_dataset : string → result Dataset)
    (from_dict : list string → list Z → Dataset) (names : list string) : Prop :=
  ∀ name e, name ∈ names →
    attempt load_dataset from_dict name = Some (Raise e) →
    is_Exception e = true.

(** A stand-in for the [datasets] library: a dataset is its list of rows;
    the hub only knows ["pubmed"]. *)
Definition toy_load_dataset (path : string) : result (list (string * Z)) :=
  if String.eqb path "pubmed" then Ok [("abstract", 1%Z)]
  else Raise (RuntimeError "load_dataset").

Definition toy_from_dict (text : list string) (label : list Z)
  : list (string * Z) := zip text label.

Definition toy_concatenate (datasets : list (list (string * Z)))
  : result (list (string * Z)) := Ok (concat datasets).

(** A backend that always trains to a single weight: 1 for the module named
    ["A"], 3 for any other. *)
Definition toy_fit (config : ModuleConfig) : result (list (string * tensor)) :=
  if String.eqb (name config) "A" then Ok [("weight", [1%Q])]
  else Ok [("weight", [3%Q])].

Definition config_A : ModuleConfig := module_config "A" "base" ["lex_glue"] None None.
Definition config_B : ModuleConfig := module_config "B" "base" ["cuad"] None None.

(** A backend that trains the module named ["A"] and finds no data for any
    other. *)
Definition toy_fit_only_A (config : ModuleConfig)
  : result (list (string * tensor)) :=
  if String.eqb (name config) "A" then Ok [("weight", [1%Q])]
  else Raise (ValueError "No datasets could be loaded").

(** Two modules whose parameters go by different names. *)
Definition w_mismatch : world :=
  World [[1%Q]; [3%Q]] [[("weight", 0)]; [("bias", 1)]] (λ _, 1%Q) 0.

(** Three modules holding the same weights. *)
Definition w_same : world :=
  World [[1%Q; 2%Q]; [1%Q; 2%Q]; [1%Q; 2%Q]]
        [[("weight", 0)]; [("weight", 1)]; [("weight", 2)]] (λ _, 1%Q) 0.

(** Three modules with weights [1], [3] and [8]. *)
Definition w_three : world :=
  World [[1%Q]; [3%Q]; [8%Q]]
        [[("weight", 0)]; [("weight", 1)]; [("weight", 2)]] (λ _, 1%Q) 0.

(** How many draws the privacy loop consumes in all: the sizes of the
    perturbed tensors. *)
Definition noise_total (w : world) (params : list (string * nat)) : nat :=
  sum_list (map (λ kv : string * nat,
                   if perturbed kv.1 then length (deref w kv.2) else 0%nat)
                params).

(** The sizes of a set of trained parameters, name by name. *)
Definition schema_of (params : list (string * tensor)) : list (string * nat) :=
  map (λ kv, (kv.1, length kv.2)) params.

(** The tensor a backend trains a configuration to, under a parameter
    name. *)
Definition trained_value (fit : ModuleConfig → result (list (string * tensor)))
    (config : ModuleConfig) (key : string) : tensor :=
  match fit config with
  | Ok params => default [] (dict_get params key)
  | Raise _ => []
  end.

(** The module [m] of the store is a properly allocated object holding the
    parameters [params], each in a tensor of its own. *)
Definition holds (w : world) (m : nat) (params : list (string * tensor)) : Prop :=
  (m < length (nn_modules w))%nat ∧
  param_values w m = params ∧
  NoDup (params_of w m).*2 ∧
  ∀ a, a ∈ (params_of w m).*2 → (a < length (tensors w))%nat.

(** A backend that trains every module to the same two parameters, the
    weight depending on the batch size. *)
Definition toy_fit_schema (config : ModuleConfig)
  : result (list (string * tensor)) :=
  Ok [("weight", [inject_Z (Z.of_nat (batch_size config)); 1%Q]);
      ("gamma", [5%Q])].

Definition config_C : ModuleConfig :=
  MkModuleConfig "C" "base" ["cuad"] (5 # 100000) 8 10 512 None None.

(** Attribute names of a new [nn.ModuleDict]: the methods of [nn.Module]
    listed in [class_attributes], the methods of [ModuleDict] itself and
    the attributes [nn.Module.__init__] sets; a sample of what [hasattr]
    answers. *)
Definition ModuleDict_attributes : list string :=
  class_attributes ++
  [ "clear"; "pop"; "keys"; "items"; "values"; "update"; "training";
    "dump_patches"; "call_super_init"; "_modules"; "_parameters"; "_buffers" ].

Definition sample_hasattr (name : string) : bool :=
  bool_decide (name ∈ ModuleDict_attributes).

(** * Properties *)

(** ** Dictionaries *)

Lemma dict_get_setitem {V} (d : list (string * V)) (k k' : string) (v : V) :
  dict_get (setitem d k v) k' = if String.eqb k k' then Some v else dict_get d k'.
Proof.
  induction d as [|[k0 v0] d IH]; simpl.
  - destruct (String.eqb k k'); reflexivity.
  - destruct (String.eqb k0 k) eqn:E0; simpl.
    + apply String.eqb_eq in E0; subst k0.
      destruct (String.eqb k k'); reflexivity.
    + destruct (String.eqb k0 k') eqn:E1; [|exact IH].
      apply String.eqb_eq in E1; subst k0.
      rewrite String.eqb_sym, E0. reflexivity.
Qed.

Lemma keys_setitem {V} (d : list (string * V)) (k : string) (v : V) :
  k ∈ keys d → keys (setitem d k v) = keys d.
Proof.
  induction d as [|[k0 v0] d IH]; simpl; intros Hin.
  - inversion Hin.
  - destruct (String.eqb k0 k) eqn:E0; simpl; [reflexivity|].
    f_equal. apply IH.
    apply elem_of_cons in Hin as [->|Hin]; [|exact Hin].
    rewrite String.eqb_refl in E0. discriminate.
Qed.

Lemma setitem_same {V} (d : list (string * V)) (k : string) (v : V) :
  dict_get d k = Some v → setitem d k v = d.
Proof.
  induction d as [|[k0 v0] d IH]; simpl; [discriminate|].
  destruct (String.eqb k0 k) eqn:E0.
  - intros [= ->]. reflexivity.
  - intros H. rewrite (IH H). reflexivity.
Qed.

Lemma dict_get_elem_of {V} (d : list (string * V)) (k : string) (v : V) :
  dict_get d k = Some v → (k, v) ∈ d.
Proof.
  induction d as [|[k0 v0] d IH]; simpl; [discriminate|].
  destruct (String.eqb k0 k) eqn:E0.
  - apply String.eqb_eq in E0. intros [= ->]. subst. left.
  - intros H. right. exact (IH H).
Qed.

Lemma dict_get_nodup {V} (d : list (string * V)) (k : string) (v : V) :
  NoDup (keys d) → (k, v) ∈ d → dict_get d k = Some v.
Proof.
  induction d as [|[k0 v0] d IH]; simpl; intros Hnd Hin.
  - inversion Hin.
  - apply NoDup_cons in Hnd as [Hk0 Hnd].
    apply elem_of_cons in Hin as [[= -> ->]|Hin].
    + rewrite String.eqb_refl. reflexivity.
    + destruct (String.eqb k0 k) eqn:E0; [|exact (IH Hnd Hin)].
      apply String.eqb_eq in E0; subst k0. exfalso. apply Hk0.
      unfold keys. apply list_elem_of_fmap. exists (k, v). split; [reflexivity|exact Hin].
Qed.

Lemma dict_get_state_dict (w : world) (m : nat) (k : string) :
  dict_get (state_dict w m) k = Alias <$> dict_get (params_of w m) k.
Proof.
  unfold state_dict. induction (params_of w m) as [|[k0 a0] d IH]; simpl.
  - reflexivity.
  - destruct (String.eqb k0 k); [reflexivity|exact IH].
Qed.

Lemma keys_state_dict (w : world) (m : nat) :
  keys (state_dict w m) = keys (params_of w m).
Proof.
  unfold state_dict, keys. rewrite map_map. reflexivity.
Qed.

(** ** The store *)

Lemma write_same (w : world) (a : nat) : write w a (deref w a) = w.
Proof.
  destruct w as [ts ms g p]. unfold write, deref. simpl. f_equal.
  destruct (ts !! a) as [t|] eqn:E; simpl.
  - apply list_insert_id. exact E.
  - apply lookup_ge_None in E. apply list_insert_ge. exact E.
Qed.

Lemma deref_write (w : world) (a b : nat) (t : tensor) :
  deref (write w a t) b =
  if decide (a = b) then (if decide (a < length (tensors w))%nat then t else [])
  else deref w b.
Proof.
  unfold deref, write. simpl. destruct (decide (a = b)) as [->|Hne].
  - destruct (decide (b < length (tensors w))%nat) as [Hlt|Hge].
    + rewrite list_lookup_insert_eq by exact Hlt. reflexivity.
    + assert (Hle : (length (tensors w) ≤ b)%nat) by lia.
      rewrite (list_insert_ge _ _ _ Hle).
      apply lookup_ge_None in Hle. rewrite Hle. reflexivity.
  - rewrite list_lookup_insert_ne by exact Hne. reflexivity.
Qed.

Lemma deref_write_ne (w : world) (a b : nat) (t : tensor) :
  a ≠ b → deref (write w a t) b = deref w b.
Proof. intros H. rewrite deref_write. destruct (decide (a = b)); done. Qed.

Lemma deref_write_eq (w : world) (a : nat) (t : tensor) :
  length t = length (deref w a) → deref (write w a t) a = t.
Proof.
  intros Hlen. rewrite deref_write. destruct (decide (a = a)); [|done].
  destruct (decide (a < length (tensors w))%nat) as [Hlt|Hge]; [reflexivity|].
  assert (Hle : (length (tensors w) ≤ a)%nat) by lia.
  apply lookup_ge_None in Hle. unfold deref in Hlen. rewrite Hle in Hlen.
  simpl in Hlen. destruct t; [reflexivity|discriminate].
Qed.

Lemma params_of_write (w : world) (a : nat) (t : tensor) (m : nat) :
  params_of (write w a t) m = params_of w m.
Proof. reflexivity. Qed.

(** [copy_params] touches only the tensors of the parameters it is given. *)
Lemma copy_params_frame (params : list (string * nat)) (sd : list (string * tref))
    (w : world) :
  let out := copy_params params sd w in
  nn_modules out.2 = nn_modules w ∧
  torch_rng out.2 = torch_rng w ∧
  rng_pos out.2 = rng_pos w ∧
  length (tensors out.2) = length (tensors w) ∧
  ∀ a, a ∉ params.*2 → tensors out.2 !! a = tensors w !! a.
Proof.
  revert w. induction params as [|[k a] params IH]; intros w; simpl.
  - repeat split; reflexivity.
  - assert (Hskip :
      let out := (let '(_, w') := copy_params params sd w in (false, w')) in
      nn_modules out.2 = nn_modules w ∧ torch_rng out.2 = torch_rng w ∧
      rng_pos out.2 = rng_pos w ∧
      length (tensors out.2) = length (tensors w) ∧
      ∀ a0, a0 ∉ a :: params.*2 → tensors out.2 !! a0 = tensors w !! a0).
    { specialize (IH w). destruct (copy_params params sd w) as [ok w'].
      simpl in *. destruct IH as (H1 & H2 & H3 & H4 & H5).
      repeat split; try assumption.
      intros a0 Ha0. apply H5. intros Hin. apply Ha0. right. exact Hin. }
    destruct (dict_get sd k) as [r|]; [|exact Hskip].
    destruct (Nat.eqb (length (read w r)) (length (deref w a))); [|exact Hskip].
    specialize (IH (write w a (read w r))). simpl in IH.
    destruct IH as (H1 & H2 & H3 & H4 & H5).
    repeat split; try assumption.
    + rewrite H4. simpl. apply length_insert.
    + intros a0 Ha0. rewrite H5.
      * simpl. apply list_lookup_insert_ne. intros ->. apply Ha0. left.
      * intros Hin. apply Ha0. right. exact Hin.
Qed.

Lemma load_state_dict_frame (m : nat) (sd : list (string * tref)) (w : world) :
  let out := load_state_dict m sd w in
  nn_modules out.2 = nn_modules w ∧
  torch_rng out.2 = torch_rng w ∧
  rng_pos out.2 = rng_pos w ∧
  ∀ a, a ∉ (params_of w m).*2 → tensors out.2 !! a = tensors w !! a.
Proof.
  unfold load_state_dict.
  pose proof (copy_params_frame (params_of w m) sd w) as H.
  destruct (copy_params (params_of w m) sd w) as [ok w']. simpl in H.
  destruct H as (H1 & H2 & H3 & _ & H5).
  destruct (ok && _); simpl; repeat split; assumption.
Qed.

(** ** Federated averaging *)

(** C7. Averaging an empty sequence of modules fails: the guard of
    [_federated_averaging] raises [ValueError("No models to average")], the
    error the specification calls EmptyInputError, and leaves the store as
    it was. *)
Theorem federated_averaging_empty (w : world) :
  _federated_averaging [] w = (Raise (ValueError "No models to average"), w).
Proof. reflexivity. Qed.

(** C1, as stated, fails: averaging the two modules of [w_two] returns
    module 0, which is one of the inputs, and the parameters of that input
    are no longer what they were. *)
Lemma federated_averaging_overwrites_input :
  let out := _federated_averaging [0; 1] w_two in
  out.1 = Ok 0 ∧ 0 ∈ [0; 1] ∧
  param_values w_two 0 = [("weight", [1%Q])] ∧
  param_values out.2 0 = [("weight", [4 # 2])] ∧
  param_values out.2 0 ≠ param_values w_two 0.
Proof.
  vm_compute. repeat split; try reflexivity.
  - left.
  - discriminate.
Qed.

Lemma federated_averaging_frame (m0 : nat) (rest : list nat) (w : world) :
  (∀ m, (_federated_averaging (m0 :: rest) w).1 = Ok m → m = m0) ∧
  nn_modules (_federated_averaging (m0 :: rest) w).2 = nn_modules w ∧
  torch_rng (_federated_averaging (m0 :: rest) w).2 = torch_rng w ∧
  rng_pos (_federated_averaging (m0 :: rest) w).2 = rng_pos w ∧
  (∀ a, a ∉ (params_of w m0).*2 →
        tensors (_federated_averaging (m0 :: rest) w).2 !! a = tensors w !! a).
Proof.
  unfold _federated_averaging.
  destruct (average_loop _ _ _ _) as [sd|e]; simpl.
  - pose proof (load_state_dict_frame m0 sd w) as H.
    destruct (load_state_dict m0 sd w) as [[[]|e] w']; simpl in *;
      destruct H as (H1 & H2 & H3 & H4); repeat split; try assumption.
    + intros m [= <-]. reflexivity.
    + intros m [=].
  - repeat split; try reflexivity. intros m [=].
Qed.

(** C1, amended. [_federated_averaging] creates no module: when it returns,
    it returns its first input. It writes to no tensor other than the
    parameter tensors of that first input, so any module that shares no
    tensor with the first input has the parameters it had before. *)
Theorem federated_averaging_in_place (m0 : nat) (rest : list nat) (w : world) :
  let out := _federated_averaging (m0 :: rest) w in
  (∀ m, out.1 = Ok m → m = m0) ∧
  nn_modules out.2 = nn_modules w ∧
  (∀ a, a ∉ (params_of w m0).*2 → deref out.2 a = deref w a) ∧
  (∀ m, (∀ a, a ∈ (params_of w m).*2 → a ∉ (params_of w m0).*2) →
        param_values out.2 m = param_values w m).
Proof.
  intros out. destruct (federated_averaging_frame m0 rest w)
    as (Hret & Hmods & _ & _ & Hts).
  fold out in Hret, Hmods, Hts.
  assert (Hderef : ∀ a, a ∉ (params_of w m0).*2 → deref out.2 a = deref w a).
  { intros a Ha. unfold deref. rewrite (Hts a Ha). reflexivity. }
  repeat split; try assumption.
  intros m Hdisj. unfold param_values, params_of. rewrite Hmods.
  apply map_ext_in. intros [k a] Hin. simpl. f_equal. apply Hderef.
  apply Hdisj. apply list_elem_of_fmap. exists (k, a). split; [reflexivity|].
  apply list_elem_of_In. exact Hin.
Qed.

(** ** The mean over stacked tensors *)

Lemma nth_tensor_add (a b : tensor) (i : nat) :
  length a = length b → (i < length a)%nat →
  nth i (tensor_add a b) 0%Q = (nth i a 0 + nth i b 0)%Q.
Proof.
  unfold tensor_add. revert b i.
  induction a as [|x a IH]; intros [|y b] i Hlen Hi; simpl in *; try lia.
  destruct i as [|i]; [reflexivity|]. apply IH; lia.
Qed.

Lemma length_tensor_add (a b : tensor) :
  length a = length b → length (tensor_add a b) = length a.
Proof.
  unfold tensor_add. intros H. rewrite length_zip_with. lia.
Qed.

Lemma fold_tensor_add (rest : list tensor) (t : tensor) :
  Forall (λ r, length r = length t) rest →
  length (fold_left tensor_add rest t) = length t ∧
  ∀ i, (i < length t)%nat →
    (nth i (fold_left tensor_add rest t) 0 ==
     nth i t 0 + foldr Qplus 0 (map (λ r, nth i r 0) rest))%Q.
Proof.
  revert t. induction rest as [|r rest IH]; intros t Hall; simpl.
  - split; [reflexivity|]. intros i _. ring.
  - apply Forall_cons in Hall as [Hr Hall].
    assert (Hlen : length (tensor_add t r) = length t)
      by (apply length_tensor_add; congruence).
    destruct (IH (tensor_add t r)) as [IH1 IH2].
    { eapply Forall_impl; [exact Hall|]. simpl. intros; congruence. }
    split; [congruence|].
    intros i Hi. rewrite IH2 by lia.
    rewrite nth_tensor_add by (congruence || lia). ring.
Qed.

(** [mean(dim=0)] of equally long rows is, position by position, the
    arithmetic mean of the rows' entries. *)
Lemma mean_dim0_pointwise (rows : list tensor) (n : nat) :
  rows ≠ [] → Forall (λ r, length r = n) rows →
  length (mean_dim0 rows) = n ∧
  ∀ i, (i < n)%nat →
    (nth i (mean_dim0 rows) 0 ==
     arithmetic_mean (map (λ r, nth i r 0) rows))%Q.
Proof.
  destruct rows as [|t rest]; [done|]. intros _ Hall.
  apply Forall_cons in Hall as [Ht Hall]. subst n.
  destruct (fold_tensor_add rest t Hall) as [Hlen Hnth].
  unfold mean_dim0. split.
  - rewrite length_map. exact Hlen.
  - intros i Hi.
    rewrite (nth_indep _ 0%Q ((0 / inject_Z (Z.of_nat (length (t :: rest))))%Q))
      by (rewrite length_map; lia).
    rewrite (map_nth (λ s, (s / inject_Z (Z.of_nat (length (t :: rest))))%Q)).
    unfold arithmetic_mean. rewrite length_map. simpl foldr. simpl map.
    rewrite Hnth by exact Hi. reflexivity.
Qed.

(** ** The averaging loop *)

Lemma tensors_at_ok (w : world) (models : list nat) (key : string) :
  (∀ m, m ∈ models → is_Some (dict_get (params_of w m) key)) →
  tensors_at w models key = Ok (map (λ m, param_at w m key) models).
Proof.
  unfold tensors_at. induction models as [|m models IH]; intros H.
  - reflexivity.
  - cbn [rmap_list map]. rewrite IH by (intros m' Hm'; apply H; right; exact Hm').
    destruct (H m) as [a Ha]; [left|].
    unfold getitem, param_at. rewrite dict_get_state_dict, Ha. reflexivity.
Qed.

Lemma torch_stack_ok (ts : list tensor) (n : nat) :
  ts ≠ [] → Forall (λ t, length t = n) ts → torch_stack ts = Ok ts.
Proof.
  destruct ts as [|t rest]; [done|]. intros _ Hall. simpl.
  apply Forall_cons in Hall as [Ht Hall].
  replace (forallb _ rest) with true; [reflexivity|].
  symmetry. apply forallb_forall. intros t' Hin.
  rewrite Forall_forall in Hall. apply Nat.eqb_eq.
  rewrite Ht. apply Hall. apply list_elem_of_In. exact Hin.
Qed.

Lemma average_loop_ok (w : world) (models : list nat) (ks : list string)
    (d : list (string * tref)) :
  (∀ k, k ∈ ks →
     tensors_at w models k = Ok (map (λ m, param_at w m k) models) ∧
     torch_stack (map (λ m, param_at w m k) models)
       = Ok (map (λ m, param_at w m k) models)) →
  average_loop w models ks d =
  Ok (foldl (λ d k, setitem d k (Fresh (averaged w models k))) d ks).
Proof.
  revert d. induction ks as [|k ks IH]; intros d H; simpl.
  - reflexivity.
  - destruct (H k) as [H1 H2]; [left|]. rewrite H1. simpl. rewrite H2. simpl.
    apply IH. intros k' Hk'. apply H. right. exact Hk'.
Qed.

Lemma dict_get_averaged (f : string → tref) (ks : list string)
    (d : list (string * tref)) (k : string) :
  dict_get (foldl (λ d k, setitem d k (f k)) d ks) k =
  if decide (k ∈ ks) then Some (f k) else dict_get d k.
Proof.
  revert d. induction ks as [|k0 ks IH]; intros d; simpl.
  - destruct (decide (k ∈ [])) as [Hin|_]; [inversion Hin|reflexivity].
  - rewrite IH, dict_get_setitem.
    destruct (decide (k ∈ ks)) as [Hin|Hnin].
    + rewrite decide_True by (right; exact Hin). reflexivity.
    + destruct (String.eqb k0 k) eqn:E.
      * apply String.eqb_eq in E; subst k0.
        rewrite decide_True by left. reflexivity.
      * rewrite decide_False; [reflexivity|].
        intros Hin. apply elem_of_cons in Hin as [->|Hin]; [|done].
        rewrite String.eqb_refl in E. discriminate.
Qed.

Lemma keys_averaged (f : string → tref) (ks : list string)
    (d : list (string * tref)) :
  (∀ k, k ∈ ks → k ∈ keys d) →
  keys (foldl (λ d k, setitem d k (f k)) d ks) = keys d.
Proof.
  revert d. induction ks as [|k0 ks IH]; intros d H; simpl.
  - reflexivity.
  - assert (Hk0 : keys (setitem d k0 (f k0)) = keys d)
      by (apply keys_setitem, H; left).
    rewrite IH; [exact Hk0|].
    intros k Hk. rewrite Hk0. apply H. right. exact Hk.
Qed.

(** Loading a dict of tensors of the right sizes succeeds and leaves every
    parameter equal to the tensor bound to its name. *)
Lemma copy_params_fresh (params : list (string * nat))
    (sd : list (string * tref)) (w : world) :
  NoDup params.*2 →
  (∀ k a, (k, a) ∈ params →
     ∃ v, dict_get sd k = Some (Fresh v) ∧ length v = length (deref w a)) →
  (copy_params params sd w).1 = true ∧
  ∀ k a, (k, a) ∈ params →
     ∃ v, dict_get sd k = Some (Fresh v) ∧ deref (copy_params params sd w).2 a = v.
Proof.
  revert w. induction params as [|[k a] params IH]; intros w Hnd H.
  - split; [reflexivity|]. intros k a Hin. inversion Hin.
  - simpl in Hnd. apply NoDup_cons in Hnd as [Ha Hnd].
    destruct (H k a) as (v & Hv & Hlen); [left|].
    simpl. rewrite Hv. simpl. rewrite Hlen, Nat.eqb_refl.
    destruct (IH (write w a v) Hnd) as [IH1 IH2].
    { intros k' a' Hin. destruct (H k' a') as (v' & Hv' & Hlen'); [right; done|].
      exists v'. split; [exact Hv'|]. rewrite deref_write_ne; [exact Hlen'|].
      intros ->. apply Ha. apply list_elem_of_fmap. exists (k', a'). done. }
    split; [exact IH1|].
    intros k' a' Hin. apply elem_of_cons in Hin as [[= -> ->]|Hin].
    + exists v. split; [exact Hv|].
      destruct (copy_params_frame params sd (write w a v)) as (_ & _ & _ & _ & Hfr).
      unfold deref at 1. rewrite (Hfr a Ha). fold (deref (write w a v) a).
      apply deref_write_eq. exact Hlen.
    + apply IH2. exact Hin.
Qed.

Lemma dict_get_is_Some {V} (d : list (string * V)) (k : string) :
  k ∈ keys d → is_Some (dict_get d k).
Proof.
  induction d as [|[k0 v0] d IH]; simpl; intros Hin.
  - inversion Hin.
  - destruct (String.eqb k0 k) eqn:E; [eexists; reflexivity|].
    apply IH. apply elem_of_cons in Hin as [->|Hin]; [|exact Hin].
    rewrite String.eqb_refl in E. discriminate.
Qed.

Lemma elem_of_keys {V} (d : list (string * V)) (k : string) (v : V) :
  (k, v) ∈ d → k ∈ keys d.
Proof.
  intros Hin. unfold keys. apply list_elem_of_fmap. exists (k, v). done.
Qed.

(** Under a shared schema every input holds, under each name of the first
    input, a tensor as long as the first input's. *)
Lemma same_schema_rows (w : world) (m0 : nat) (rest : list nat) (k : string)
    (a : nat) :
  (∀ m, m ∈ rest → same_schema w m0 m) →
  dict_get (params_of w m0) k = Some a →
  (∀ m, m ∈ m0 :: rest → is_Some (dict_get (params_of w m) k)) ∧
  Forall (λ t, length t = length (deref w a))
         (map (λ m, param_at w m k) (m0 :: rest)).
Proof.
  intros Hschema Ha.
  assert (Hm : ∀ m, m ∈ m0 :: rest →
            ∃ a', dict_get (params_of w m) k = Some a' ∧
                  length (deref w a') = length (deref w a)).
  { intros m Hin. apply elem_of_cons in Hin as [->|Hin].
    - exists a. done.
    - specialize (Hschema m Hin k). unfold shape_at in Hschema.
      rewrite Ha in Hschema. simpl in Hschema.
      destruct (dict_get (params_of w m) k) as [a'|]; [|discriminate].
      simpl in Hschema. exists a'. split; [reflexivity|congruence]. }
  split.
  - intros m Hin. destruct (Hm m Hin) as (a' & Ha' & _). eexists; exact Ha'.
  - apply Forall_forall. intros t Hin. apply list_elem_of_fmap in Hin as (m & -> & Hin).
    destruct (Hm m Hin) as (a' & Ha' & Hlen). unfold param_at. rewrite Ha'.
    exact Hlen.
Qed.

(** C2. For a non-empty sequence of modules sharing the schema of the first,
    [_federated_averaging] returns, and under every parameter name the
    returned module holds the element-wise arithmetic mean of the tensors
    the inputs held under that name, each input counted once. *)
Theorem federated_averaging_mean (m0 : nat) (rest : list nat) (w : world)
    (Hwf : well_formed w m0)
    (Hschema : ∀ m, m ∈ rest → same_schema w m0 m) :
  let out := _federated_averaging (m0 :: rest) w in
  out.1 = Ok m0 ∧
  ∀ key a, dict_get (params_of w m0) key = Some a →
    length (param_at out.2 m0 key) = length (deref w a) ∧
    ∀ i, (i < length (deref w a))%nat →
      (nth i (param_at out.2 m0 key) 0 ==
       arithmetic_mean (map (λ m, nth i (param_at w m key) 0) (m0 :: rest)))%Q.
Proof.
  destruct Hwf as [Hkeys Haddrs].
  set (models := m0 :: rest).
  set (d' := foldl (λ d k, setitem d k (Fresh (averaged w models k)))
                   (state_dict w m0) (keys (state_dict w m0))).
  assert (Hloop : average_loop w models (keys (state_dict w m0)) (state_dict w m0)
                  = Ok d').
  { apply average_loop_ok. intros k Hk. rewrite keys_state_dict in Hk.
    destruct (dict_get_is_Some _ _ Hk) as [a Ha].
    destruct (same_schema_rows w m0 rest k a Hschema Ha) as [Hsome Hall].
    split; [apply tensors_at_ok; exact Hsome|].
    eapply torch_stack_ok; [discriminate|exact Hall]. }
  assert (Hget : ∀ k a, (k, a) ∈ params_of w m0 →
            dict_get d' k = Some (Fresh (averaged w models k)) ∧
            dict_get (params_of w m0) k = Some a).
  { intros k a Hin. split.
    - unfold d'. rewrite dict_get_averaged. apply decide_True.
      rewrite keys_state_dict. eapply elem_of_keys. exact Hin.
    - apply dict_get_nodup; assumption. }
  assert (Hlen : ∀ k a, dict_get (params_of w m0) k = Some a →
            length (averaged w models k) = length (deref w a) ∧
            ∀ i, (i < length (deref w a))%nat →
              (nth i (averaged w models k) 0 ==
               arithmetic_mean (map (λ m, nth i (param_at w m k) 0) models))%Q).
  { intros k a Ha.
    destruct (same_schema_rows w m0 rest k a Hschema Ha) as [_ Hall].
    assert (Hne : map (λ m, param_at w m k) (m0 :: rest) ≠ []) by discriminate.
    destruct (mean_dim0_pointwise _ _ Hne Hall) as [H1 H2].
    split; [exact H1|]. intros i Hi. unfold averaged, models.
    etransitivity; [exact (H2 i Hi)|]. rewrite map_map. reflexivity. }
  destruct (copy_params_fresh (params_of w m0) d' w Haddrs) as [Hok Hvals].
  { intros k a Hin. destruct (Hget k a Hin) as [Hd' Ha].
    eexists. split; [exact Hd'|]. apply (Hlen k a Ha). }
  destruct (copy_params_frame (params_of w m0) d' w) as (Hmods & _).
  assert (Hrun : _federated_averaging models w
                 = (Ok m0, (copy_params (params_of w m0) d' w).2)).
  { unfold _federated_averaging, models. fold models. rewrite Hloop.
    unfold load_state_dict.
    destruct (copy_params (params_of w m0) d' w) as [ok w'] eqn:E.
    simpl in Hok. subst ok.
    replace (forallb _ (keys d')) with true; [reflexivity|].
    symmetry. apply forallb_forall. intros k Hk. apply bool_decide_eq_true.
    apply list_elem_of_In in Hk. unfold d' in Hk.
    rewrite keys_averaged in Hk by done.
    rewrite keys_state_dict in Hk. exact Hk. }
  intros out. unfold out. rewrite Hrun. simpl.
  split; [reflexivity|].
  intros key a Ha.
  assert (Hparam : param_at (copy_params (params_of w m0) d' w).2 m0 key
                   = averaged w models key).
  { unfold param_at, params_of at 1. rewrite Hmods. fold (params_of w m0).
    rewrite Ha. apply dict_get_elem_of in Ha.
    destruct (Hvals key a Ha) as (v & Hv & Hderef).
    destruct (Hget key a Ha) as [Hd' _]. congruence. }
  rewrite Hparam. apply Hlen. exact Ha.
Qed.

Lemma federated_averaging_mean_witness :
  well_formed w_two 0 ∧ (∀ m, m ∈ [1] → same_schema w_two 0 m) ∧
  let out := _federated_averaging [0; 1] w_two in
  out.1 = Ok 0 ∧
  ∀ key a, dict_get (params_of w_two 0) key = Some a →
    length (param_at out.2 0 key) = length (deref w_two a) ∧
    ∀ i, (i < length (deref w_two a))%nat →
      (nth i (param_at out.2 0 key) 0 ==
       arithmetic_mean (map (λ m, nth i (param_at w_two m key) 0) [0; 1]%nat))%Q.
Proof.
  assert (Hwf : well_formed w_two 0) by (unfold well_formed; compute_done).
  assert (Hschema : ∀ m, m ∈ [1] → same_schema w_two 0 m).
  { intros m Hm key. apply list_elem_of_singleton in Hm. subst m.
    change (shape_at w_two 0 key) with
      ((λ a, length (deref w_two a)) <$>
       (if String.eqb "weight" key then Some 0%nat else None)).
    change (shape_at w_two 1 key) with
      ((λ a, length (deref w_two a)) <$>
       (if String.eqb "weight" key then Some 1%nat else None)).
    destruct (String.eqb "weight" key); reflexivity. }
  split; [exact Hwf|]. split; [exact Hschema|].
  exact (federated_averaging_mean 0 [1] w_two Hwf Hschema).
Defined.

(** ** Differential privacy *)

Lemma copy_params_alias (params : list (string * nat))
    (sd : list (string * tref)) (w : world) :
  (∀ k a, (k, a) ∈ params → dict_get sd k = Some (Alias a)) →
  copy_params params sd w = (true, w).
Proof.
  induction params as [|[k a] params IH]; intros H; simpl.
  - reflexivity.
  - rewrite (H k a) by left. simpl. rewrite Nat.eqb_refl, write_same.
    apply IH. intros k' a' Hin. apply H. right. exact Hin.
Qed.

Lemma state_dict_alias (w : world) (m : nat) (k : string) (a : nat) :
  NoDup (params_of w m).*1 → (k, a) ∈ params_of w m →
  dict_get (state_dict w m) k = Some (Alias a).
Proof.
  intros Hnd Hin. rewrite dict_get_state_dict.
  rewrite (dict_get_nodup _ _ _ Hnd Hin). reflexivity.
Qed.

Lemma load_state_dict_alias (w0 w : world) (m : nat) :
  NoDup (params_of w0 m).*1 → params_of w m = params_of w0 m →
  load_state_dict m (state_dict w0 m) w = (Ok (), w).
Proof.
  intros Hnd Hp. unfold load_state_dict. rewrite Hp.
  rewrite copy_params_alias by (intros k a; apply state_dict_alias; exact Hnd).
  replace (forallb _ _) with true; [reflexivity|].
  symmetry. apply forallb_forall. intros k Hk. apply bool_decide_eq_true.
  apply list_elem_of_In in Hk. rewrite keys_state_dict in Hk. exact Hk.
Qed.

Lemma noise_start_ext (w w' : world) (params : list (string * nat)) (key : string) :
  (∀ a, a ∈ params.*2 → length (deref w' a) = length (deref w a)) →
  noise_start w' params key = noise_start w params key.
Proof.
  induction params as [|[k a] params IH]; intros H; simpl; [reflexivity|].
  rewrite IH by (intros a' Ha'; apply H; right; exact Ha').
  rewrite (H a) by left. reflexivity.
Qed.

(** The privacy loop over the parameters [params], for a non-zero
    [epsilon] and a dict that binds each name to the parameter itself: the
    dict comes out as it went in; the store differs only at the perturbed
    parameters, each of which received its own draws. *)
Lemma privacy_loop_run (params : list (string * nat)) (sd : list (string * tref))
    (epsilon : Q) (w : world) :
  Qeq_bool epsilon 0 = false →
  NoDup params.*1 → NoDup params.*2 →
  (∀ k a, (k, a) ∈ params → dict_get sd k = Some (Alias a)) →
  ∃ w', privacy_loop (keys params) sd epsilon w = (Ok sd, w') ∧
        nn_modules w' = nn_modules w ∧ torch_rng w' = torch_rng w ∧
        (∀ b, b ∉ params.*2 → deref w' b = deref w b) ∧
        (∀ k a, (k, a) ∈ params →
           deref w' a =
           if perturbed k
           then tensor_add (deref w a)
                  (scaled_noise w epsilon (rng_pos w + noise_start w params k)
                                (length (deref w a)))
           else deref w a).
Proof.
  intros Heps. revert w.
  induction params as [|[k a] params IH]; intros w Hk Ha Hsd.
  - exists w. repeat split; try reflexivity. intros k a Hin. inversion Hin.
  - simpl in Hk, Ha. apply NoDup_cons in Hk as [Hk Hks].
    apply NoDup_cons in Ha as [Ha Has].
    assert (Hsd' : ∀ k' a', (k', a') ∈ params → dict_get sd k' = Some (Alias a'))
      by (intros k' a' Hin; apply Hsd; right; exact Hin).
    assert (Hne : ∀ k' a', (k', a') ∈ params → k' ≠ k ∧ a' ≠ a).
    { intros k' a' Hin. split; intros ->.
      - apply Hk. apply list_elem_of_fmap. exists (k, a'). done.
      - apply Ha. apply list_elem_of_fmap. exists (k', a). done. }
    cbn [keys map fst privacy_loop]. fold (keys params).
    fold (perturbed k). destruct (perturbed k) eqn:Hp.
    + unfold float_div. rewrite Heps.
      unfold getitem. rewrite (Hsd k a) by left.
      cbn [read randn_like draw iadd].
      set (n := length (deref w a)).
      set (w1 := World (tensors w) (nn_modules w) (torch_rng w) (rng_pos w + n)).
      set (noise := map (λ x, (x * (1 / epsilon))%Q)
                        (map (torch_rng w) (seq (rng_pos w) n))).
      assert (Hnoise : length noise = n)
        by (unfold noise; rewrite !length_map, length_seq; reflexivity).
      set (w2 := write w1 a (tensor_add (deref w1 a) noise)).
      rewrite (setitem_same sd k (Alias a)) by (apply Hsd; left).
      destruct (IH w2 Hks Has Hsd') as (w' & Hrun & Hm & Hg & Hfr & Hval).
      exists w'. split; [exact Hrun|].
      assert (Hw2 : ∀ b, b ≠ a → deref w2 b = deref w b).
      { intros b Hb. unfold w2. rewrite deref_write_ne by done. reflexivity. }
      split; [exact Hm|]. split; [exact Hg|]. split.
      * intros b Hb. rewrite Hfr.
        -- apply Hw2. intros ->. apply Hb. left.
        -- intros Hin. apply Hb. right. exact Hin.
      * intros k' a' Hin. apply elem_of_cons in Hin as [[= -> ->]|Hin].
        -- rewrite Hp. rewrite (Hfr a Ha). unfold w2.
           rewrite deref_write_eq
             by (rewrite length_tensor_add; [reflexivity|unfold deref, w1; simpl; fold (deref w a); lia]).
           cbn [noise_start]. rewrite String.eqb_refl, Nat.add_0_r. reflexivity.
        -- destruct (Hne k' a' Hin) as [Hk' Ha'].
           rewrite (Hval k' a' Hin). rewrite (Hw2 a' Ha').
           cbn [noise_start]. rewrite (proj2 (String.eqb_neq k k')) by done.
           rewrite Hp.
           rewrite (noise_start_ext w w2 params k')
             by (intros b Hb; rewrite Hw2; [reflexivity|intros ->; done]).
           fold n. replace (rng_pos w2 + noise_start w params k')%nat
             with (rng_pos w + (n + noise_start w params k'))%nat
             by (unfold w2, w1; simpl; lia).
           reflexivity.
    + destruct (IH w Hks Has Hsd') as (w' & Hrun & Hm & Hg & Hfr & Hval).
      exists w'. split; [exact Hrun|]. split; [exact Hm|]. split; [exact Hg|].
      split.
      * intros b Hb. apply Hfr. intros Hin. apply Hb. right. exact Hin.
      * intros k' a' Hin. apply elem_of_cons in Hin as [[= -> ->]|Hin].
        -- rewrite Hp. apply Hfr. exact Ha.
        -- destruct (Hne k' a' Hin) as [Hk' Ha'].
           rewrite (Hval k' a' Hin). cbn [noise_start].
           rewrite (proj2 (String.eqb_neq k k')) by done. rewrite Hp.
           reflexivity.
Qed.

Lemma differential_privacy_run (model : nat) (epsilon : Q) (w : world) :
  Qeq_bool epsilon 0 = false → well_formed w model →
  ∃ w', _apply_differential_privacy model epsilon w = (Ok model, w') ∧
        nn_modules w' = nn_modules w ∧
        (∀ b, b ∉ (params_of w model).*2 → deref w' b = deref w b) ∧
        (∀ k a, dict_get (params_of w model) k = Some a →
           deref w' a =
           if perturbed k
           then tensor_add (deref w a)
                  (scaled_noise w epsilon
                     (rng_pos w + noise_start w (params_of w model) k)
                     (length (deref w a)))
           else deref w a).
Proof.
  intros Heps [Hk Ha].
  destruct (privacy_loop_run (params_of w model) (state_dict w model) epsilon w
              Heps Hk Ha) as (w' & Hrun & Hm & Hg & Hfr & Hval).
  { intros k a. apply state_dict_alias. exact Hk. }
  exists w'. unfold _apply_differential_privacy.
  rewrite keys_state_dict. unfold keys in *. rewrite Hrun.
  rewrite (load_state_dict_alias w w' model Hk)
    by (unfold params_of; rewrite Hm; reflexivity).
  repeat split; try assumption.
  intros k a Hget. apply Hval. apply dict_get_elem_of. exact Hget.
Qed.

Lemma noise_total_ext (w w' : world) (params : list (string * nat)) :
  (∀ a, a ∈ params.*2 → length (deref w' a) = length (deref w a)) →
  noise_total w' params = noise_total w params.
Proof.
  unfold noise_total. intros H. f_equal. apply map_ext_in. intros [k a] Hin.
  simpl. rewrite (H a); [reflexivity|].
  apply list_elem_of_fmap. exists (k, a). split; [reflexivity|].
  apply list_elem_of_In. exact Hin.
Qed.

Lemma privacy_loop_pos (params : list (string * nat)) (sd : list (string * tref))
    (epsilon : Q) (w : world) :
  Qeq_bool epsilon 0 = false →
  NoDup params.*2 →
  (∀ k a, (k, a) ∈ params → dict_get sd k = Some (Alias a)) →
  rng_pos (privacy_loop (keys params) sd epsilon w).2
  = (rng_pos w + noise_total w params)%nat ∧
  torch_rng (privacy_loop (keys params) sd epsilon w).2 = torch_rng w.
Proof.
  intros Heps. revert w.
  induction params as [|[k a] params IH]; intros w Ha Hsd.
  - simpl. unfold noise_total. simpl. split; [lia|reflexivity].
  - simpl in Ha. apply NoDup_cons in Ha as [Ha Has].
    assert (Hsd' : ∀ k' a', (k', a') ∈ params → dict_get sd k' = Some (Alias a'))
      by (intros k' a' Hin; apply Hsd; right; exact Hin).
    cbn [keys map fst privacy_loop]. fold (keys params).
    unfold noise_total. cbn [map sum_list fst snd]. fold (noise_total w params).
    fold (perturbed k). destruct (perturbed k) eqn:Hp.
    + unfold float_div. rewrite Heps.
      unfold getitem. rewrite (Hsd k a) by left.
      cbn [read randn_like draw iadd].
      rewrite (setitem_same sd k (Alias a)) by (apply Hsd; left).
      match goal with
      | |- context [privacy_loop (keys params) sd epsilon ?w2] =>
          destruct (IH w2 Has Hsd') as [IH1 IH2];
          rewrite IH1, IH2;
          rewrite (noise_total_ext w w2 params)
      end.
      * unfold write, id. cbn [rng_pos torch_rng]. split; [lia|reflexivity].
      * intros b Hb. rewrite deref_write_ne by (intros ->; done). reflexivity.
    + destruct (IH w Has Hsd') as [IH1 IH2]. rewrite IH1, IH2.
      unfold id. split; [lia|reflexivity].
Qed.

Lemma length_scaled_noise (w : world) (epsilon : Q) (start n : nat) :
  length (scaled_noise w epsilon start n) = n.
Proof. unfold scaled_noise. rewrite !length_map, length_seq. reflexivity. Qed.

Lemma nth_scaled_noise (w : world) (epsilon : Q) (start n i : nat) :
  (i < n)%nat →
  nth i (scaled_noise w epsilon start n) 0%Q
  = (torch_rng w (start + i) * (1 / epsilon))%Q.
Proof.
  intros Hi. unfold scaled_noise. rewrite map_map.
  rewrite (nth_indep _ 0%Q (torch_rng w 0 * (1 / epsilon))%Q)
    by (rewrite length_map, length_seq; exact Hi).
  rewrite (map_nth (λ x, (torch_rng w x * (1 / epsilon))%Q)).
  rewrite seq_nth by exact Hi. reflexivity.
Qed.

Lemma differential_privacy_pos (model : nat) (epsilon : Q) (w : world) :
  Qeq_bool epsilon 0 = false → well_formed w model →
  rng_pos (_apply_differential_privacy model epsilon w).2
  = (rng_pos w + noise_total w (params_of w model))%nat ∧
  torch_rng (_apply_differential_privacy model epsilon w).2 = torch_rng w.
Proof.
  intros Hnz Hwf.
  destruct (differential_privacy_run model epsilon w Hnz Hwf)
    as (w' & Hrun & _).
  destruct Hwf as [Hk Ha].
  destruct (privacy_loop_pos (params_of w model) (state_dict w model) epsilon w
              Hnz Ha) as [Hpos Hrng].
  { intros k a. apply state_dict_alias. exact Hk. }
  unfold _apply_differential_privacy in *.
  rewrite keys_state_dict in *. unfold keys in *.
  destruct (privacy_loop _ _ _ _) as [[sd'|e] w1]; [|discriminate].
  cbn [snd] in Hpos, Hrng. rewrite <- Hpos, <- Hrng.
  pose proof (load_state_dict_frame model sd' w1) as Hload. cbv zeta in Hload.
  destruct (load_state_dict model sd' w1) as [[[]|e] w2]; [|discriminate].
  cbn [snd] in *. tauto.
Qed.

(** The runs of draws of two perturbed parameters do not overlap, and all
    of them lie within the draws the loop consumes. *)
Lemma noise_start_bound (w : world) (params : list (string * nat))
    (k : string) (a : nat) :
  NoDup params.*1 → (k, a) ∈ params → perturbed k = true →
  (noise_start w params k + length (deref w a) ≤ noise_total w params)%nat.
Proof.
  unfold noise_total.
  induction params as [|[k0 a0] params IH]; intros Hnd Hin Hp.
  - inversion Hin.
  - simpl in Hnd. apply NoDup_cons in Hnd as [Hk0 Hnd].
    cbn [noise_start map sum_list fst snd].
    destruct (String.eqb k0 k) eqn:E.
    + apply String.eqb_eq in E. subst k0.
      apply elem_of_cons in Hin as [[= ->]|Hin].
      * rewrite Hp. unfold id. lia.
      * exfalso. apply Hk0. apply list_elem_of_fmap. exists (k, a). done.
    + apply String.eqb_neq in E.
      apply elem_of_cons in Hin as [[= -> ->]|Hin]; [done|].
      specialize (IH Hnd Hin Hp). unfold id in *. lia.
Qed.

Lemma noise_start_disjoint (w : world) (params : list (string * nat))
    (k1 k2 : string) (a1 a2 : nat) :
  NoDup params.*1 → (k1, a1) ∈ params → (k2, a2) ∈ params → k1 ≠ k2 →
  perturbed k1 = true → perturbed k2 = true →
  (noise_start w params k1 + length (deref w a1) ≤ noise_start w params k2 ∨
   noise_start w params k2 + length (deref w a2) ≤ noise_start w params k1)%nat.
Proof.
  induction params as [|[k0 a0] params IH]; intros Hnd H1 H2 Hne Hp1 Hp2.
  - inversion H1.
  - simpl in Hnd. apply NoDup_cons in Hnd as [Hk0 Hnd].
    assert (Htail : ∀ a, (k0, a) ∈ params → False).
    { intros a Hin. apply Hk0. apply list_elem_of_fmap. exists (k0, a). done. }
    assert (Hhead : ∀ a, (k0, a) ∈ (k0, a0) :: params → a = a0).
    { intros a Hin. apply elem_of_cons in Hin as [[= ->]|Hin]; [reflexivity|].
      destruct (Htail a Hin). }
    assert (Hrest : ∀ k a, k0 ≠ k → (k, a) ∈ (k0, a0) :: params →
                      (k, a) ∈ params).
    { intros k a Hk Hin. apply elem_of_cons in Hin as [[= -> ->]|Hin]; done. }
    cbn [noise_start].
    destruct (decide (k0 = k1)) as [E1|E1]; [|destruct (decide (k0 = k2)) as [E2|E2]].
    + subst k0. rewrite (Hhead a1 H1) in *. rewrite String.eqb_refl.
      rewrite (proj2 (String.eqb_neq k1 k2)) by exact Hne.
      rewrite Hp1. left. lia.
    + subst k0. rewrite (Hhead a2 H2) in *. rewrite String.eqb_refl.
      rewrite (proj2 (String.eqb_neq k2 k1)) by exact E1.
      rewrite Hp2. right. lia.
    + rewrite (proj2 (String.eqb_neq k0 k1)) by exact E1.
      rewrite (proj2 (String.eqb_neq k0 k2)) by exact E2.
      destruct (IH Hnd (Hrest k1 a1 E1 H1) (Hrest k2 a2 E2 H2) Hne Hp1 Hp2);
        [left|right]; lia.
Qed.

(** C3, as stated, fails: with [epsilon = 1] and a generator that yields
    ones, the tensor named ["gamma"] comes back exactly as it was, while the
    one named ["dense.weight"] did receive its noise. *)
Lemma differential_privacy_skips_gamma :
  let out := _apply_differential_privacy 0 1 w_gamma in
  out.1 = Ok 0 ∧
  param_at w_gamma 0 "gamma" = [5%Q] ∧
  param_at out.2 0 "gamma" = param_at w_gamma 0 "gamma" ∧
  param_at out.2 0 "dense.weight" ≠ param_at w_gamma 0 "dense.weight".
Proof.
  vm_compute. repeat split; try reflexivity. discriminate.
Qed.

(** C3, amended. For a strictly positive [epsilon],
    [_apply_differential_privacy] returns the module it was given, mutated
    in place: to every parameter tensor whose name contains ["weight"] or
    ["bias"] it has added, element by element, independent zero-mean
    Gaussian noise scaled by [sensitivity / epsilon], the sensitivity being
    the constant 1; a parameter tensor whose name contains neither is left
    as it was.

    The noise is what [torch.randn_like] returns, and [torch_rng] is the
    sequence of standard normal values the generator of [torch] hands out,
    one independent value per index. That the noise is independent and
    Gaussian, of mean 0 and deviation [1 / epsilon], is therefore this:
    every element of every perturbed tensor receives one value of that
    sequence multiplied by [1 / epsilon]; the value is drawn during the
    call, not before it; and no value is used for two elements, of the same
    tensor or of two. *)
Theorem differential_privacy_effect (model : nat) (epsilon : Q) (w : world)
    (Heps : (0 < epsilon)%Q) (Hwf : well_formed w model) :
  let out := _apply_differential_privacy model epsilon w in
  let params := params_of w model in
  out.1 = Ok model ∧
  nn_modules out.2 = nn_modules w ∧
  (∀ key a, dict_get params key = Some a →
     deref out.2 a =
     if contains "weight" key || contains "bias" key
     then tensor_add (deref w a)
            (scaled_noise w epsilon (rng_pos w + noise_start w params key)
                          (length (deref w a)))
     else deref w a) ∧
  (∀ key a i, dict_get params key = Some a →
     contains "weight" key || contains "bias" key = true →
     (i < length (deref w a))%nat →
     nth i (deref out.2 a) 0%Q
     = (nth i (deref w a) 0
        + torch_rng w (draw_index w params key i) * (1 / epsilon))%Q ∧
     (rng_pos w ≤ draw_index w params key i)%nat ∧
     (draw_index w params key i < rng_pos out.2)%nat) ∧
  (∀ k1 a1 i1 k2 a2 i2,
     dict_get params k1 = Some a1 → dict_get params k2 = Some a2 →
     contains "weight" k1 || contains "bias" k1 = true →
     contains "weight" k2 || contains "bias" k2 = true →
     (i1 < length (deref w a1))%nat → (i2 < length (deref w a2))%nat →
     draw_index w params k1 i1 = draw_index w params k2 i2 →
     k1 = k2 ∧ i1 = i2).
Proof.
  assert (Hnz : Qeq_bool epsilon 0 = false).
  { destruct (Qeq_bool epsilon 0) eqn:E; [|reflexivity].
    apply Qeq_bool_eq in E. rewrite E in Heps. exfalso.
    exact (Qlt_irrefl 0 Heps). }
  destruct (differential_privacy_run model epsilon w Hnz Hwf)
    as (w' & Hrun & Hm & _ & Hval).
  destruct (differential_privacy_pos model epsilon w Hnz Hwf) as [Hpos _].
  destruct Hwf as [Hk Ha].
  intros out params. unfold out in *. rewrite Hrun in *. cbn [fst snd] in *.
  split; [reflexivity|]. split; [exact Hm|]. split; [exact Hval|]. split.
  - intros key a i Hget Hp Hi.
    pose proof (noise_start_bound w params key a Hk
                  (dict_get_elem_of _ _ _ Hget) Hp) as Hb.
    fold params in Hpos. split; [|unfold draw_index; lia].
    rewrite (Hval key a Hget). unfold perturbed. rewrite Hp.
    rewrite nth_tensor_add by (rewrite ?length_scaled_noise; done).
    rewrite nth_scaled_noise by exact Hi.
    unfold draw_index. reflexivity.
  - intros k1 a1 i1 k2 a2 i2 H1 H2 Hp1 Hp2 Hi1 Hi2 Heq.
    destruct (decide (k1 = k2)) as [->|Hne].
    + split; [reflexivity|]. unfold draw_index in Heq. lia.
    + exfalso.
      destruct (noise_start_disjoint w params k1 k2 a1 a2 Hk
                  (dict_get_elem_of _ _ _ H1) (dict_get_elem_of _ _ _ H2)
                  Hne Hp1 Hp2); unfold draw_index in Heq; lia.
Qed.

Lemma differential_privacy_effect_witness :
  (0 < 1 # 2)%Q ∧ well_formed w_dense 0 ∧
  let out := _apply_differential_privacy 0 (1 # 2) w_dense in
  let params := params_of w_dense 0 in
  out.1 = Ok 0%nat ∧
  nn_modules out.2 = nn_modules w_dense ∧
  (∀ key a, dict_get params key = Some a →
     deref out.2 a =
     if contains "weight" key || contains "bias" key
     then tensor_add (deref w_dense a)
            (scaled_noise w_dense (1 # 2)
               (rng_pos w_dense + noise_start w_dense params key)
               (length (deref w_dense a)))
     else deref w_dense a) ∧
  (∀ key a i, dict_get params key = Some a →
     contains "weight" key || contains "bias" key = true →
     (i < length (deref w_dense a))%nat →
     nth i (deref out.2 a) 0%Q
     = (nth i (deref w_dense a) 0
        + torch_rng w_dense (draw_index w_dense params key i) * (1 / (1 # 2)))%Q ∧
     (rng_pos w_dense ≤ draw_index w_dense params key i)%nat ∧
     (draw_index w_dense params key i < rng_pos out.2)%nat) ∧
  (∀ k1 a1 i1 k2 a2 i2,
     dict_get params k1 = Some a1 → dict_get params k2 = Some a2 →
     contains "weight" k1 || contains "bias" k1 = true →
     contains "weight" k2 || contains "bias" k2 = true →
     (i1 < length (deref w_dense a1))%nat →
     (i2 < length (deref w_dense a2))%nat →
     draw_index w_dense params k1 i1 = draw_index w_dense params k2 i2 →
     k1 = k2 ∧ i1 = i2).
Proof.
  assert (Heps : (0 < 1 # 2)%Q) by reflexivity.
  assert (Hwf : well_formed w_dense 0) by (unfold well_formed; compute_done).
  split; [exact Heps|]. split; [exact Hwf|].
  exact (differential_privacy_effect 0 (1 # 2) w_dense Heps Hwf).
Defined.

(** The same run, value by value: the two elements of ["dense.weight"]
    receive the draws 10 and 11 and ["dense.bias"] the draw 12, each
    doubled by [1 / epsilon]; ["gamma"] receives none. *)
Lemma differential_privacy_sample_run :
  let out := _apply_differential_privacy 0 (1 # 2) w_dense in
  param_at w_dense 0 "dense.weight" = [1; 2]%Q ∧
  param_at out.2 0 "dense.weight" = [1 + 10 * (1 / (1 # 2)); 2 + 11 * (1 / (1 # 2))]%Q ∧
  param_at out.2 0 "gamma" = [5%Q] ∧
  param_at out.2 0 "dense.bias" = [3 + 12 * (1 / (1 # 2))]%Q ∧
  rng_pos w_dense = 10%nat ∧ rng_pos out.2 = 13%nat.
Proof. vm_compute. repeat split; reflexivity. Qed.

Lemma privacy_loop_zero (ks : list string) (sd : list (string * tref))
    (epsilon : Q) (w : world) :
  Qeq_bool epsilon 0 = true →
  privacy_loop ks sd epsilon w =
  if existsb perturbed ks then (Raise ZeroDivisionError, w) else (Ok sd, w).
Proof.
  intros Heps. induction ks as [|k ks IH]; simpl; [reflexivity|].
  fold (perturbed k). destruct (perturbed k); simpl.
  - unfold float_div. rewrite Heps. reflexivity.
  - exact IH.
Qed.

(** C4, as stated, fails: with [epsilon = -1] the call returns its module,
    and with [epsilon = 0] on a module that has no parameter named after
    ["weight"] or ["bias"] it returns too, the store untouched. *)
Lemma differential_privacy_accepts_bad_epsilon :
  (_apply_differential_privacy 0 (-1) w_gamma).1 = Ok 0 ∧
  _apply_differential_privacy 0 0 w_norm = (Ok 0, w_norm).
Proof. split; reflexivity. Qed.

(** C4, amended. [_apply_differential_privacy] does not validate [epsilon].
    With a negative [epsilon] the call returns the module. With [epsilon]
    equal to zero the division [sensitivity / epsilon] raises
    [ZeroDivisionError], before anything was modified, as soon as the loop
    meets a parameter whose name contains ["weight"] or ["bias"]; when the
    module has no such parameter the call returns the module and the store
    is unchanged. *)
Theorem differential_privacy_unvalidated (model : nat) (epsilon : Q) (w : world)
    (Hwf : well_formed w model) :
  let out := _apply_differential_privacy model epsilon w in
  ((epsilon < 0)%Q → out.1 = Ok model) ∧
  ((epsilon == 0)%Q →
     existsb perturbed (keys (params_of w model)) = true →
     out = (Raise ZeroDivisionError, w)) ∧
  ((epsilon == 0)%Q →
     existsb perturbed (keys (params_of w model)) = false →
     out = (Ok model, w)).
Proof.
  intros out. split; [|split].
  - intros Hneg.
    assert (Hnz : Qeq_bool epsilon 0 = false).
    { destruct (Qeq_bool epsilon 0) eqn:E; [|reflexivity].
      apply Qeq_bool_eq in E. rewrite E in Hneg. exfalso.
      exact (Qlt_irrefl 0 Hneg). }
    destruct (differential_privacy_run model epsilon w Hnz Hwf) as (w' & Hrun & _).
    unfold out. rewrite Hrun. reflexivity.
  - intros Hz Hex. apply Qeq_eq_bool in Hz.
    unfold out, _apply_differential_privacy.
    rewrite (privacy_loop_zero _ _ _ _ Hz), keys_state_dict, Hex. reflexivity.
  - intros Hz Hex. apply Qeq_eq_bool in Hz.
    unfold out, _apply_differential_privacy.
    rewrite (privacy_loop_zero _ _ _ _ Hz), keys_state_dict, Hex.
    rewrite (load_state_dict_alias w w model (proj1 Hwf) eq_refl). reflexivity.
Qed.

Lemma differential_privacy_unvalidated_witness :
  well_formed w_gamma 0 ∧
  let out := _apply_differential_privacy 0 0 w_gamma in
  ((0 < 0)%Q → out.1 = Ok 0) ∧
  ((0 == 0)%Q →
     existsb perturbed (keys (params_of w_gamma 0)) = true →
     out = (Raise ZeroDivisionError, w_gamma)) ∧
  ((0 == 0)%Q →
     existsb perturbed (keys (params_of w_gamma 0)) = false →
     out = (Ok 0, w_gamma)).
Proof.
  assert (Hwf : well_formed w_gamma 0) by (unfold well_formed; compute_done).
  split; [exact Hwf|].
  exact (differential_privacy_unvalidated 0 0 w_gamma Hwf).
Defined.

(** ** The ensemble *)

Lemma setitem_fresh {V} (d : list (string * V)) (k : string) (v : V) :
  k ∉ keys d → setitem d k v = (d ++ [(k, v)])%list.
Proof.
  induction d as [|[k0 v0] d IH]; simpl; intros Hnot; [reflexivity|].
  destruct (String.eqb k0 k) eqn:E.
  - apply String.eqb_eq in E. subst k0. exfalso. apply Hnot. left.
  - rewrite IH; [reflexivity|]. intros Hin. apply Hnot. right. exact Hin.
Qed.

Lemma NoDup_keys_setitem {V} (d : list (string * V)) (k : string) (v : V) :
  NoDup (keys d) → NoDup (keys (setitem d k v)).
Proof.
  intros Hnd. destruct (decide (k ∈ keys d)) as [Hin|Hnot].
  - rewrite keys_setitem by exact Hin. exact Hnd.
  - rewrite setitem_fresh by exact Hnot. unfold keys. rewrite map_app.
    apply NoDup_app. split; [exact Hnd|]. split.
    + intros x Hx Hx'. apply list_elem_of_singleton in Hx'. subst x. done.
    + apply NoDup_singleton.
Qed.

Lemma NoDup_keys_dict_of {V} (items : list (string * V)) :
  NoDup (keys (dict_of items)).
Proof.
  unfold dict_of.
  assert (H : ∀ d : list (string * V), NoDup (keys d) →
            NoDup (keys (foldl (λ d kv, setitem d kv.1 kv.2) d items))).
  { induction items as [|[k v] items IH]; intros d Hd; [exact Hd|].
    simpl. apply IH, NoDup_keys_setitem, Hd. }
  apply H. constructor.
Qed.

Lemma foldl_setitem_nonempty {V} (items d : list (string * V)) :
  d ≠ [] → foldl (λ d kv, setitem d kv.1 kv.2) d items ≠ [].
Proof.
  revert d. induction items as [|[k v] items IH]; intros d Hd; [exact Hd|].
  simpl. apply IH. destruct d as [|[k0 v0] d]; [done|].
  simpl. destruct (String.eqb k0 k); discriminate.
Qed.

Lemma dict_of_nonempty {V} (items : list (string * V)) :
  items ≠ [] → dict_of items ≠ [].
Proof.
  unfold dict_of. destruct items as [|[k v] items]; [done|]. intros _.
  simpl. apply foldl_setitem_nonempty. discriminate.
Qed.

Lemma dict_of_NoDup {V} (items : list (string * V)) :
  NoDup (keys items) → dict_of items = items.
Proof.
  unfold dict_of.
  assert (H : ∀ d : list (string * V), NoDup (keys d ++ keys items) →
            foldl (λ d kv, setitem d kv.1 kv.2) d items = (d ++ items)%list).
  { induction items as [|[k v] items IH]; intros d Hd.
    - simpl. rewrite app_nil_r. reflexivity.
    - simpl. apply NoDup_app in Hd as (Hd & Hdisj & Hitems).
      simpl in Hitems. apply NoDup_cons in Hitems as [Hk Hitems].
      rewrite setitem_fresh by (intros Hin; apply (Hdisj k Hin); left).
      rewrite IH.
      + rewrite <- app_assoc. reflexivity.
      + unfold keys. rewrite map_app. simpl. rewrite <- app_assoc. simpl.
        apply NoDup_app. split; [exact Hd|]. split.
        * intros x Hx Hx'. apply (Hdisj x Hx). exact Hx'.
        * apply NoDup_cons. split; assumption. }
  intros Hnd. apply (H []). exact Hnd.
Qed.

(** [update] on items with distinct, new keys: it stops at the first name
    that [nn.ModuleDict] does not accept, and otherwise appends them all. *)
Lemma update_spec (hasattr : string → bool) (items d : list (string * nat)) :
  NoDup (keys d ++ keys items) →
  update hasattr items d =
  match find (λ kv : string * nat, negb (acceptable hasattr kv.1)) items with
  | Some kv => Raise (KeyError kv.1)
  | None => Ok (d ++ items)%list
  end.
Proof.
  revert d. induction items as [|[k v] items IH]; intros d Hd.
  - simpl. rewrite app_nil_r. reflexivity.
  - apply NoDup_app in Hd as (Hd & Hdisj & Hitems).
    simpl in Hitems. apply NoDup_cons in Hitems as [Hk Hitems].
    assert (Hfresh : k ∉ keys d) by (intros Hin; apply (Hdisj k Hin); left).
    cbn [update find fst]. unfold add_module, acceptable.
    rewrite (bool_decide_eq_false_2 _ Hfresh). cbn [negb].
    rewrite andb_true_r.
    destruct (hasattr k); cbn [negb andb rbind]; [reflexivity|].
    destruct (contains "." k); cbn [negb andb rbind]; [reflexivity|].
    destruct (String.eqb k ""); cbn [negb andb rbind]; [reflexivity|].
    rewrite setitem_fresh by exact Hfresh. rewrite IH.
    + destruct (find _ items); [reflexivity|].
      rewrite <- app_assoc. reflexivity.
    + unfold keys. rewrite map_app. simpl. rewrite <- app_assoc. simpl.
      apply NoDup_app. split; [exact Hd|]. split.
      * intros x Hx Hx'. apply (Hdisj x Hx). exact Hx'.
      * apply NoDup_cons. split; assumption.
Qed.

Lemma rows_shape (width count : nat) (l : list Q) :
  length l = (count * width)%nat →
  length (rows width count l) = count ∧
  Forall (λ r, length r = width) (rows width count l).
Proof.
  revert l. induction count as [|count IH]; intros l Hlen.
  - split; [reflexivity|constructor].
  - cbn [rows]. simpl in Hlen.
    destruct (IH (drop width l)) as [IH1 IH2].
    { rewrite length_drop. lia. }
    split; [simpl; f_equal; exact IH1|].
    constructor; [|exact IH2]. rewrite length_take. lia.
Qed.

Lemma nn_Linear_shape (inf outf : nat) (w : world) :
  in_features (nn_Linear inf outf w).1 = inf ∧
  out_features (nn_Linear inf outf w).1 = outf ∧
  length (weight (nn_Linear inf outf w).1) = outf ∧
  Forall (λ r, length r = inf) (weight (nn_Linear inf outf w).1) ∧
  length (bias (nn_Linear inf outf w).1) = outf ∧
  tensors (nn_Linear inf outf w).2 = tensors w ∧
  nn_modules (nn_Linear inf outf w).2 = nn_modules w ∧
  rng_pos (nn_Linear inf outf w).2 = (rng_pos w + outf * inf + outf)%nat.
Proof.
  unfold nn_Linear, draw. cbn [fst snd in_features out_features weight bias
    tensors nn_modules rng_pos torch_rng].
  destruct (rows_shape inf outf (map (torch_rng w) (seq (rng_pos w) (outf * inf))))
    as [H1 H2].
  { rewrite length_map, length_seq. reflexivity. }
  repeat split; try assumption.
  rewrite length_map, length_seq. reflexivity.
Qed.

(** What [__init__] does, according to the names of the mapping. *)
Lemma init_layers (hasattr : string → bool) (modules : list (string * nat))
    (w : world) :
  match find (λ kv : string * nat, negb (acceptable hasattr kv.1))
             (dict_of modules) with
  | Some kv =>
      EnsembleModel__init__ hasattr modules w = (Raise (KeyError kv.1), w)
  | None =>
      ∃ l c,
        (EnsembleModel__init__ hasattr modules w).1 =
          Ok (MkEnsemble
                [("modules", VModuleDict (dict_of modules));
                 ("integration_layer", VLinear l); ("classifier", VLinear c)]) ∧
        (in_features l = (length (dict_of modules) * hidden_size)%nat ∧
         out_features l = hidden_size ∧
         length (weight l) = hidden_size ∧
         Forall (λ r, length r = (length (dict_of modules) * hidden_size)%nat)
                (weight l) ∧
         length (bias l) = hidden_size) ∧
        (in_features c = hidden_size ∧ out_features c = num_labels ∧
         length (weight c) = num_labels ∧
         Forall (λ r, length r = hidden_size) (weight c) ∧
         length (bias c) = num_labels) ∧
        tensors (EnsembleModel__init__ hasattr modules w).2 = tensors w ∧
        nn_modules (EnsembleModel__init__ hasattr modules w).2 = nn_modules w ∧
        rng_pos (EnsembleModel__init__ hasattr modules w).2
        = (rng_pos w + hidden_size * (length (dict_of modules) * hidden_size)
           + hidden_size + num_labels * hidden_size + num_labels)%nat
  end.
Proof.
  unfold EnsembleModel__init__, nn_ModuleDict.
  rewrite (update_spec hasattr (dict_of modules) [])
    by (simpl; apply NoDup_keys_dict_of).
  destruct (find _ (dict_of modules)) as [kv|]; [reflexivity|].
  cbn [app rbind].
  pose proof (nn_Linear_shape (length (dict_of modules) * hidden_size)
                hidden_size w) as Hl.
  destruct (nn_Linear (length (dict_of modules) * hidden_size) hidden_size w)
    as [l w1].
  pose proof (nn_Linear_shape hidden_size num_labels w1) as Hc.
  destruct (nn_Linear hidden_size num_labels w1) as [c w2].
  cbn [fst snd] in *.
  destruct Hl as (L1 & L2 & L3 & L4 & L5 & L6 & L7 & L8).
  destruct Hc as (C1 & C2 & C3 & C4 & C5 & C6 & C7 & C8).
  exists l, c. split; [reflexivity|].
  split; [repeat split; assumption|]. split; [repeat split; assumption|].
  split; [congruence|]. split; [congruence|]. rewrite C8, L8. reflexivity.
Qed.

(** An ensemble that [__init__] returned registers the mapping and two
    layers sized after it. *)
Lemma init_Ok (hasattr : string → bool) (modules : list (string * nat))
    (w : world) (self : EnsembleModel) :
  (EnsembleModel__init__ hasattr modules w).1 = Ok self →
  ∃ l c,
    _modules self =
      [("modules", VModuleDict (dict_of modules));
       ("integration_layer", VLinear l); ("classifier", VLinear c)] ∧
    (in_features l = (length (dict_of modules) * hidden_size)%nat ∧
     length (weight l) = hidden_size ∧ length (bias l) = hidden_size) ∧
    (in_features c = hidden_size ∧
     length (weight c) = num_labels ∧ length (bias c) = num_labels).
Proof.
  intros Hinit. pose proof (init_layers hasattr modules w) as H.
  destruct (find _ (dict_of modules)) as [kv|].
  - rewrite H in Hinit. discriminate.
  - destruct H as (l & c & Heq & (L1 & L2 & L3 & L4 & L5) &
                   (C1 & C2 & C3 & C4 & C5) & _).
    rewrite Heq in Hinit. injection Hinit as <-.
    exists l, c. cbn [_modules]. repeat split; assumption.
Qed.

(** C6, as stated, fails: composing the empty mapping returns an ensemble. *)
Lemma create_ensemble_empty_returns :
  ∃ e, (create_ensemble sample_hasattr [] w_two).1 = Ok e.
Proof. eexists. reflexivity. Qed.

(** C6, amended. [create_ensemble] checks nothing: given the empty mapping
    it returns an ensemble that has no member module, an integration layer
    of input width 0 and output width 768, and a classifier from 768 to
    2. *)
Theorem create_ensemble_empty (hasattr : string → bool) (w : world) :
  ∃ e l c, (create_ensemble hasattr [] w).1 = Ok e ∧
    dict_get (_modules e) "modules" = Some (VModuleDict []) ∧
    dict_get (_modules e) "integration_layer" = Some (VLinear l) ∧
    in_features l = 0%nat ∧ out_features l = 768%nat ∧
    dict_get (_modules e) "classifier" = Some (VLinear c) ∧
    in_features c = 768%nat ∧ out_features c = 2%nat.
Proof.
  unfold create_ensemble, EnsembleModel__init__, nn_ModuleDict, nn_Linear, draw.
  cbn [dict_of foldl update rbind fst snd]. do 3 eexists. repeat split.
Qed.

Lemma getattr_submodule (self : EnsembleModel) (attr : string) (v : py_value) :
  attr ∉ class_attributes → dict_get (_modules self) attr = Some v →
  getattr self attr = Ok v.
Proof.
  intros Hnot Hget. unfold getattr.
  rewrite bool_decide_eq_false_2 by exact Hnot. rewrite Hget. reflexivity.
Qed.

Lemma length_concat_pooled {A} (f : A → tensor) (l : list A) (n : nat) :
  (∀ x, x ∈ l → length (f x) = n) →
  length (concat (map f l)) = (length l * n)%nat.
Proof.
  induction l as [|x l IH]; intros H; [reflexivity|].
  cbn [map concat length]. rewrite length_app, IH.
  - rewrite (H x) by left. reflexivity.
  - intros y Hy. apply H. right. exact Hy.
Qed.

(** The statements of [forward] after the loop header, for an object that
    registers two linear layers. *)
Lemma forward_over_layers
    (pooler_output : list (string * tensor) → list Z → option (list Z) → tensor)
    (self : EnsembleModel) (members : list (string * nat)) (l c : Linear)
    (input_ids : list Z) (attention_mask : option (list Z)) (w : world) :
  dict_get (_modules self) "integration_layer" = Some (VLinear l) →
  dict_get (_modules self) "classifier" = Some (VLinear c) →
  members ≠ [] →
  forward_over pooler_output self members input_ids attention_mask w
  = rbind (linear_forward l
             (concat (map (λ nm, pooler_output (param_values w nm.2) input_ids
                                               attention_mask) members)))
          (λ integrated, linear_forward c (torch_relu integrated)).
Proof.
  intros Hl Hc Hne. unfold forward_over, torch_cat.
  destruct members as [|nm members]; [done|].
  cbn [map rbind].
  rewrite (getattr_submodule self "integration_layer" _ ltac:(compute_done) Hl).
  rewrite (getattr_submodule self "classifier" _ ltac:(compute_done) Hc).
  cbn [rbind call]. set (x := concat _).
  destruct (linear_forward l x) as [h|e]; [|reflexivity].
  cbn [rbind]. destruct (linear_forward c (torch_relu h)); reflexivity.
Qed.

(** What [forward] would compute if its iteration reached the members:
    their pooled vectors, taken in the order of the mapping, concatenated
    into one vector of width [len(modules) * 768], sent through the
    integration layer, the rectifier and the classifier. *)
Lemma forward_over_pipeline (hasattr : string → bool)
    (pooler_output : list (string * tensor) → list Z → option (list Z) → tensor)
    (modules : list (string * nat)) (w0 w : world) (self : EnsembleModel)
    (input_ids : list Z) (attention_mask : option (list Z)) :
  (EnsembleModel__init__ hasattr modules w0).1 = Ok self →
  modules ≠ [] →
  (∀ nm, nm ∈ dict_of modules →
     length (pooler_output (param_values w nm.2) input_ids attention_mask)
     = hidden_size) →
  ∃ l c,
    dict_get (_modules self) "integration_layer" = Some (VLinear l) ∧
    dict_get (_modules self) "classifier" = Some (VLinear c) ∧
    let combined :=
      concat (map (λ nm, pooler_output (param_values w nm.2) input_ids
                                       attention_mask) (dict_of modules)) in
    length combined = in_features l ∧
    forward_over pooler_output self (dict_of modules) input_ids attention_mask w
    = rbind (linear_forward l combined)
            (λ integrated, linear_forward c (torch_relu integrated)).
Proof.
  intros Hinit Hne Hwidth.
  destruct (init_Ok hasattr modules w0 self Hinit)
    as (l & c & Hreg & (Hin & _) & _).
  assert (Hl : dict_get (_modules self) "integration_layer" = Some (VLinear l))
    by (rewrite Hreg; reflexivity).
  assert (Hc : dict_get (_modules self) "classifier" = Some (VLinear c))
    by (rewrite Hreg; reflexivity).
  exists l, c. split; [exact Hl|]. split; [exact Hc|].
  split.
  - rewrite Hin. apply length_concat_pooled. exact Hwidth.
  - apply forward_over_layers; [exact Hl|exact Hc|].
    apply dict_of_nonempty. exact Hne.
Qed.

(** C5. [forward] never reaches the members. [__init__] stores the
    [ModuleDict] under the name [modules], which is also the name of a
    method of [nn.Module]; reading [self.modules] therefore yields that
    method, and [.items()] on it raises [AttributeError], for every
    ensemble, whatever was registered in it, and every input. *)
Theorem forward_raises_AttributeError
    (pooler_output : list (string * tensor) → list Z → option (list Z) → tensor)
    (self : EnsembleModel) (w : world)
    (input_ids : list Z) (attention_mask : option (list Z)) :
  forward pooler_output self input_ids attention_mask w
  = Raise (AttributeError "items").
Proof.
  unfold forward.
  assert (Hlookup : getattr self "modules" = Ok (VMethod "modules")).
  { unfold getattr. rewrite bool_decide_eq_true_2 by compute_done.
    reflexivity. }
  rewrite Hlookup. reflexivity.
Qed.

(** ** The continuous-learning loop *)

Section PipelineFacts.

Variable fit : ModuleConfig → result (list (string * tensor)).
Variable output_dir : string.
Variable config_of : string → P ModuleConfig.
Variable deploy : P unit.

(** One cycle, run. *)
Lemma cycle_run (s : state) :
  cycle fit output_dir config_of deploy s =
  if float_gt (np_rng s (S (np_pos s))) (np_rng s (np_pos s))
  then (Raise (AttributeError "deploy_updates"),
        emit (LogInfo deploying_message) (scored s))
  else (Ok (), emit (Sleep cycle_interval) (scored s)).
Proof.
  unfold cycle, collect_new_data, evaluate_performance, history_append,
    identify_improvement_targets, mbind, P_bind, mret, P_ret. cbn [for_each].
  unfold mret, P_ret. cbn [store trained_modules performance_history np_rng
    np_pos trace].
  destruct (float_gt _ _); reflexivity.
Qed.

Lemma float_gt_spec (a b : Q) : float_gt a b = true ↔ (b < a)%Q.
Proof.
  unfold float_gt. rewrite negb_true_iff. split.
  - intros H. apply Qnot_le_lt. intros Hle.
    apply Qle_bool_iff in Hle. congruence.
  - intros Hlt. destruct (Qle_bool a b) eqn:E; [|reflexivity].
    apply Qle_bool_iff in E. exfalso. exact (Qlt_not_le _ _ Hlt E).
Qed.

(** C8. In a cycle, the deploying step (the branch that logs
    "Performance improved! Deploying updates..." and calls
    [deploy_updates]) is entered exactly when the score taken after
    retraining is strictly greater than the score taken before it, the
    latter being the one appended to the history. *)
Theorem deploying_iff_strict_improvement (s : state) :
  let current_performance := np_rng s (np_pos s) in
  let new_performance := np_rng s (S (np_pos s)) in
  let out := cycle fit output_dir config_of deploy s in
  performance_history out.2
  = (performance_history s ++ [current_performance])%list ∧
  (LogInfo deploying_message ∈ drop (length (trace s)) (trace out.2)
   ↔ (current_performance < new_performance)%Q).
Proof.
  intros cur new out. unfold out. rewrite cycle_run.
  fold cur new. rewrite <- float_gt_spec.
  destruct (float_gt new cur); cbn [fst snd emit scored trace performance_history];
    (split; [reflexivity|]); rewrite drop_app_length.
  - split; [reflexivity|]. intros _. left.
  - split; [|discriminate]. intros Hin.
    apply list_elem_of_singleton in Hin. discriminate.
Qed.

(** Whatever a cycle raises is an [Exception]. *)
Lemma cycle_raises_Exception (s s' : state) (e : exn) :
  cycle fit output_dir config_of deploy s = (Raise e, s') →
  is_Exception e = true.
Proof.
  rewrite cycle_run. destruct (float_gt _ _); intros [= <- _]. reflexivity.
Qed.

Lemma try_except_Raise (body : P unit) (s s' : state) (e : exn) :
  body s = (Raise e, s') → is_Exception e = true →
  try_except body on_error s
  = (Ok (), emit (Sleep retry_interval) (emit (LogError e) s')).
Proof.
  intros Hbody He. unfold try_except. rewrite Hbody, He. reflexivity.
Qed.

(** A loop whose body raises nothing but [Exception]s is still running
    after any number of iterations. *)
Lemma while_True_running (body : P unit) (fuel : nat) (s : state) :
  (∀ s0 s1 e, body s0 = (Raise e, s1) → is_Exception e = true) →
  (while_True fuel (try_except body on_error) s).1 = Ok ().
Proof.
  intros Hbody. revert s. induction fuel as [|fuel IH]; intros s.
  - reflexivity.
  - cbn [while_True]. unfold mbind, P_bind.
    destruct (try_except body on_error s) as [[[]|e] s1] eqn:E.
    + apply IH.
    + exfalso. unfold try_except in E.
      destruct (body s) as [[[]|e0] s0] eqn:Eb; [discriminate|].
      rewrite (Hbody _ _ _ Eb) in E. discriminate.
Qed.

Lemma sleeps_app (evs evs' : list event) :
  sleeps (evs ++ evs') = (sleeps evs + sleeps evs')%nat.
Proof.
  induction evs as [|[msg|e|seconds] evs IH]; simpl; [reflexivity|..];
    rewrite IH; reflexivity.
Qed.

(** Each iteration of the loop ends normally, after two evaluations and
    exactly one sleep. *)
Lemma iteration_sleeps (s : state) :
  let out := try_except (cycle fit output_dir config_of deploy) on_error s in
  out.1 = Ok () ∧ np_pos out.2 = S (S (np_pos s)) ∧
  ∃ evs, trace out.2 = (trace s ++ evs)%list ∧ sleeps evs = 1%nat.
Proof.
  unfold try_except. rewrite cycle_run. destruct (float_gt _ _); simpl.
  - repeat split.
    exists [LogInfo deploying_message; LogError (AttributeError "deploy_updates");
            Sleep retry_interval].
    split; [rewrite <- !app_assoc; reflexivity|reflexivity].
  - repeat split. exists [Sleep cycle_interval]. split; reflexivity.
Qed.

Lemma loop_sleeps (fuel : nat) (s : state) :
  let out := run_training_loop fit output_dir config_of deploy fuel s in
  out.1 = Ok () ∧ np_pos out.2 = (np_pos s + 2 * fuel)%nat ∧
  ∃ evs, trace out.2 = (trace s ++ evs)%list ∧ sleeps evs = fuel.
Proof.
  unfold run_training_loop. revert s. induction fuel as [|fuel IH]; intros s.
  - simpl. split; [reflexivity|]. split; [lia|].
    exists []. split; [rewrite app_nil_r; reflexivity|reflexivity].
  - cbn [while_True]. unfold mbind, P_bind.
    pose proof (iteration_sleeps s) as Hit. cbv zeta in Hit.
    destruct (try_except _ on_error s) as [r s1].
    cbn [fst snd] in Hit. destruct Hit as (-> & Hpos & evs1 & Htr & Hsl).
    specialize (IH s1). cbv zeta in IH.
    destruct IH as (Hok & Hpos' & evs2 & Htr' & Hsl').
    split; [exact Hok|]. split; [lia|].
    exists (evs1 ++ evs2)%list. split.
    + rewrite Htr', Htr, app_assoc. reflexivity.
    + rewrite sleeps_app. lia.
Qed.

(** C9. When a cycle of [run_training_loop] raises, what it raised is an
    [Exception]; the loop logs it, sleeps 3600 seconds and enters the next
    cycle in the state the failed cycle left behind, nothing else changed.
    The sleep is shorter than the 86400 seconds with which a cycle that
    raises nothing ends. The handler does the same for every [Exception],
    whatever the body of the [try] statement that raised it. The loop
    therefore does not end: after any number of iterations it is about to
    start the next, having taken two scores and slept once in each. *)
Theorem loop_survives_exception (s s' : state) (e : exn) (fuel : nat)
    (Hraise : cycle fit output_dir config_of deploy s = (Raise e, s')) :
  let s'' := MkState (store s') (trained_modules s') (performance_history s')
                     (np_rng s') (np_pos s')
                     (trace s' ++ [LogError e; Sleep 3600])%list in
  is_Exception e = true ∧
  try_except (cycle fit output_dir config_of deploy) on_error s = (Ok (), s'') ∧
  run_training_loop fit output_dir config_of deploy (S fuel) s
  = run_training_loop fit output_dir config_of deploy fuel s'' ∧
  (3600 < 86400)%Z ∧
  (∀ s0 s1, cycle fit output_dir config_of deploy s0 = (Ok (), s1) →
     trace s1 = (trace s0 ++ [Sleep 86400])%list) ∧
  (∀ (body : P unit) (s0 s1 : state) (e0 : exn) (n : nat),
     body s0 = (Raise e0, s1) → is_Exception e0 = true →
     while_True (S n) (try_except body on_error) s0
     = while_True n (try_except body on_error)
         (MkState (store s1) (trained_modules s1) (performance_history s1)
                  (np_rng s1) (np_pos s1)
                  (trace s1 ++ [LogError e0; Sleep 3600])%list)) ∧
  (∀ n s0,
     let out := run_training_loop fit output_dir config_of deploy n s0 in
     out.1 = Ok () ∧ np_pos out.2 = (np_pos s0 + 2 * n)%nat ∧
     ∃ evs, trace out.2 = (trace s0 ++ evs)%list ∧ sleeps evs = n).
Proof.
  intros s''.
  assert (Hhandler : ∀ (body : P unit) s0 s1 e0,
    body s0 = (Raise e0, s1) → is_Exception e0 = true →
    try_except body on_error s0
    = (Ok (), MkState (store s1) (trained_modules s1) (performance_history s1)
                      (np_rng s1) (np_pos s1)
                      (trace s1 ++ [LogError e0; Sleep 3600])%list)).
  { intros body s0 s1 e0 Hbody He0.
    rewrite (try_except_Raise body s0 s1 e0 Hbody He0).
    unfold emit. cbn [store trained_modules performance_history np_rng np_pos
      trace]. rewrite <- app_assoc. reflexivity. }
  pose proof (cycle_raises_Exception s s' e Hraise) as Hexc.
  pose proof (Hhandler _ s s' e Hraise Hexc) as Htry. fold s'' in Htry.
  split; [exact Hexc|]. split; [exact Htry|]. split.
  { unfold run_training_loop. cbn [while_True]. unfold mbind, P_bind.
    rewrite Htry. reflexivity. }
  split; [reflexivity|]. split.
  { intros s0 s1. rewrite cycle_run. destruct (float_gt _ _); [discriminate|].
    intros [= <-]. reflexivity. }
  split.
  { intros body s0 s1 e0 n Hbody He0. cbn [while_True]. unfold mbind, P_bind.
    rewrite (Hhandler body s0 s1 e0 Hbody He0). reflexivity. }
  intros n s0. exact (loop_sleeps n s0).
Qed.

(** One iteration of the loop touches neither the store nor the registry,
    and logs nothing but its own events. *)
Lemma iteration_frame (s : state) :
  let out := try_except (cycle fit output_dir config_of deploy) on_error s in
  out.1 = Ok () ∧ store out.2 = store s ∧
  trained_modules out.2 = trained_modules s ∧
  ∃ evs, trace out.2 = (trace s ++ evs)%list ∧ Forall loop_event evs.
Proof.
  unfold try_except. rewrite cycle_run. destruct (float_gt _ _); simpl.
  - repeat split.
    exists [LogInfo deploying_message; LogError (AttributeError "deploy_updates");
            Sleep retry_interval].
    split; [rewrite <- !app_assoc; reflexivity|].
    repeat constructor.
  - repeat split. exists [Sleep cycle_interval].
    split; [reflexivity|]. repeat constructor.
Qed.

Lemma loop_frame (fuel : nat) (s : state) :
  let out := run_training_loop fit output_dir config_of deploy fuel s in
  store out.2 = store s ∧ trained_modules out.2 = trained_modules s ∧
  ∃ evs, trace out.2 = (trace s ++ evs)%list ∧ Forall loop_event evs.
Proof.
  unfold run_training_loop. revert s. induction fuel as [|fuel IH]; intros s.
  - simpl. repeat split. exists []. split; [rewrite app_nil_r; reflexivity|].
    constructor.
  - cbn [while_True]. unfold mbind, P_bind.
    pose proof (iteration_frame s) as Hit. cbv zeta in Hit.
    destruct (try_except _ on_error s) as [r s1].
    simpl in Hit. destruct Hit as (-> & Hst & Hreg & evs1 & Htr & Hev).
    specialize (IH s1). cbv zeta in IH.
    destruct IH as (Hst' & Hreg' & evs2 & Htr' & Hev').
    split; [congruence|]. split; [congruence|].
    exists (evs1 ++ evs2)%list. split.
    + rewrite Htr', Htr, app_assoc. reflexivity.
    + apply Forall_app. split; assumption.
Qed.

(** C10. [identify_improvement_targets] returns the empty list whatever the
    score; so the loop, however long it runs, never calls [train_module]
    (no "Training module: ..." line is logged), allocates no module and
    leaves the trainer's registry as it found it. *)
Theorem no_module_is_retrained (performance : Q) (fuel : nat) (s : state) :
  let out := run_training_loop fit output_dir config_of deploy fuel s in
  identify_improvement_targets performance = [] ∧
  trained_modules out.2 = trained_modules s ∧
  store out.2 = store s ∧
  ∀ module_name,
    LogInfo ("Training module: " +:+ module_name)
    ∉ drop (length (trace s)) (trace out.2).
Proof.
  intros out. destruct (loop_frame fuel s) as (Hst & Hreg & evs & Htr & Hev).
  fold out in Hst, Hreg, Htr.
  split; [reflexivity|]. split; [exact Hreg|]. split; [exact Hst|].
  intros module_name Hin. rewrite Htr, drop_app_length in Hin.
  rewrite Forall_forall in Hev. specialize (Hev _ Hin). simpl in Hev.
  discriminate.
Qed.

End PipelineFacts.

(** The scenario of the specification: from 0.80 to 0.79 the cycle ends
    with the ordinary sleep and no deployment; from 0.80 to 0.81 it enters
    the deploying branch. *)
Example cycle_regression_does_not_deploy :
  trace (cycle fit_unavailable "trained_modules"
               (λ _, raise (KeyError "config")) (mret ())
               (s_scores (80 # 100) (79 # 100))).2
  = [Sleep cycle_interval].
Proof. reflexivity. Qed.

Example cycle_improvement_deploys :
  trace (cycle fit_unavailable "trained_modules"
               (λ _, raise (KeyError "config")) (mret ())
               (s_scores (80 # 100) (81 # 100))).2
  = [LogInfo deploying_message].
Proof. reflexivity. Qed.

Example cycle_tie_does_not_deploy :
  trace (cycle fit_unavailable "trained_modules"
               (λ _, raise (KeyError "config")) (mret ())
               (s_scores (80 # 100) (80 # 100))).2
  = [Sleep cycle_interval].
Proof. reflexivity. Qed.

Lemma loop_survives_exception_witness :
  let config_of := λ _ : string, (raise (KeyError "config") : P ModuleConfig) in
  let cycle := cycle fit_unavailable "trained_modules" config_of (mret ()) in
  let run_training_loop :=
    run_training_loop fit_unavailable "trained_modules" config_of (mret ()) in
  let e := AttributeError "deploy_updates" in
  let s' := MkState w_two [] [0%Q] (np_rng s_rising) 2
                    [LogInfo deploying_message] in
  let s'' := MkState w_two [] [0%Q] (np_rng s_rising) 2
                     [LogInfo deploying_message; LogError e; Sleep 3600] in
  cycle s_rising = (Raise e, s') ∧
  is_Exception e = true ∧
  try_except cycle on_error s_rising = (Ok (), s'') ∧
  run_training_loop 3%nat s_rising = run_training_loop 2%nat s'' ∧
  (3600 < 86400)%Z ∧
  (∀ s0 s1, cycle s0 = (Ok (), s1) →
     trace s1 = (trace s0 ++ [Sleep 86400])%list) ∧
  (∀ (body : P unit) (s0 s1 : state) (e0 : exn) (n : nat),
     body s0 = (Raise e0, s1) → is_Exception e0 = true →
     while_True (S n) (try_except body on_error) s0
     = while_True n (try_except body on_error)
         (MkState (store s1) (trained_modules s1) (performance_history s1)
                  (np_rng s1) (np_pos s1)
                  (trace s1 ++ [LogError e0; Sleep 3600])%list)) ∧
  (∀ n s0,
     let out := run_training_loop n s0 in
     out.1 = Ok () ∧ np_pos out.2 = (np_pos s0 + 2 * n)%nat ∧
     ∃ evs, trace out.2 = (trace s0 ++ evs)%list ∧ sleeps evs = n).
Proof.
  intros config_of cycle run_training_loop e s' s''.
  assert (Hraise : cycle s_rising = (Raise e, s')) by reflexivity.
  split; [exact Hraise|].
  exact (loop_survives_exception fit_unavailable "trained_modules"
           config_of (mret ()) s_rising s' e 2 Hraise).
Defined.

(** Three iterations from the rising scores: each enters the deploying
    branch, fails in it and is retried after the short sleep. *)
Example loop_three_failed_cycles :
  let out := run_training_loop fit_unavailable "trained_modules"
               (λ _, raise (KeyError "config")) (mret ()) 3 s_rising in
  out.1 = Ok () ∧ np_pos out.2 = 6%nat ∧
  trace out.2
  = [LogInfo deploying_message; LogError (AttributeError "deploy_updates");
     Sleep 3600;
     LogInfo deploying_message; LogError (AttributeError "deploy_updates");
     Sleep 3600;
     LogInfo deploying_message; LogError (AttributeError "deploy_updates");
     Sleep 3600].
Proof. repeat split; reflexivity. Qed.

(** * Further properties *)

(** ** Loading datasets *)

Section DatasetFacts.

Variable Dataset : Type.
Variable load_dataset : string → result Dataset.
Variable from_dict : list string → list Z → Dataset.
Variable concatenate_datasets : list Dataset → result Dataset.
Variable len : Dataset → nat.

Lemma load_loop_acc (names : list string) (datasets : list Dataset)
    (log : list load_event) :
  load_loop Dataset load_dataset from_dict len names datasets log =
  match load_loop Dataset load_dataset from_dict len names [] [] with
  | (Ok ds, log') => (Ok (datasets ++ ds)%list, (log ++ log')%list)
  | (Raise e, log') => (Raise e, (log ++ log')%list)
  end.
Proof.
  revert datasets log. induction names as [|name rest IH]; intros datasets log.
  - simpl. rewrite !app_nil_r. reflexivity.
  - cbn [load_loop]. destruct (dict_get AVAILABLE_DATASETS name) as [path|].
    + destruct (load_available _ _ _ name path) as [ds|e].
      * rewrite (IH (datasets ++ [ds])%list), (IH ([] ++ [ds])%list).
        destruct (load_loop _ _ _ _ rest [] []) as [[dss|e] log'];
          simpl; rewrite <- !app_assoc; reflexivity.
      * destruct (is_Exception e).
        -- rewrite (IH datasets), (IH [] ([] ++ _)%list).
           destruct (load_loop _ _ _ _ rest [] []) as [[dss|e'] log'];
             simpl; rewrite <- ?app_assoc; reflexivity.
        -- rewrite app_nil_r. reflexivity.
    + apply IH.
Qed.

Lemma load_dataset_for_module_finish (names : list string) :
  (load_dataset_for_module Dataset load_dataset from_dict concatenate_datasets
     len names).1
  = finish_loading concatenate_datasets
      (load_loop Dataset load_dataset from_dict len names [] []).1.
Proof.
  unfold load_dataset_for_module.
  destruct (load_loop _ _ _ _ names [] []) as [[[|ds dss]|e] log]; reflexivity.
Qed.

(** One step of the loop, seen from its result. *)
Lemma load_loop_cons (name : string) (rest : list string) :
  (load_loop Dataset load_dataset from_dict len (name :: rest) [] []).1 =
  match attempt load_dataset from_dict name with
  | None => (load_loop Dataset load_dataset from_dict len rest [] []).1
  | Some (Ok ds) =>
      rbind (load_loop Dataset load_dataset from_dict len rest [] []).1
            (λ dss, Ok (ds :: dss))
  | Some (Raise e) =>
      if is_Exception e
      then (load_loop Dataset load_dataset from_dict len rest [] []).1
      else Raise e
  end.
Proof.
  unfold attempt. cbn [load_loop].
  destruct (dict_get AVAILABLE_DATASETS name) as [path|]; [|reflexivity].
  cbn [fmap option_fmap option_map].
  destruct (load_available _ _ _ name path) as [ds|e].
  - rewrite load_loop_acc.
    destruct (load_loop _ _ _ _ rest [] []) as [[dss|e] log']; reflexivity.
  - destruct (is_Exception e); [|reflexivity].
    rewrite load_loop_acc.
    destruct (load_loop _ _ _ _ rest [] []) as [[dss|e'] log']; reflexivity.
Qed.

Lemma load_loop_loaded (names : list string) :
  uninterrupted load_dataset from_dict names →
  (load_loop Dataset load_dataset from_dict len names [] []).1
  = Ok (loaded load_dataset from_dict names).
Proof.
  induction names as [|name rest IH]; intros Hun; [reflexivity|].
  rewrite load_loop_cons. unfold loaded. cbn [omap list_omap].
  fold (loaded load_dataset from_dict rest).
  assert (Hrest : uninterrupted load_dataset from_dict rest)
    by (intros n e Hn; apply Hun; right; exact Hn).
  specialize (IH Hrest).
  destruct (attempt load_dataset from_dict name) as [[ds|e]|] eqn:E.
  - rewrite IH. reflexivity.
  - rewrite (Hun name e) by (left || exact E). exact IH.
  - exact IH.
Qed.

Lemma dict_get_Some_keys {V} (d : list (string * V)) (k : string) (v : V) :
  dict_get d k = Some v → k ∈ keys d.
Proof. intros H. eapply elem_of_keys, dict_get_elem_of, H. Qed.

Lemma dict_get_None_keys {V} (d : list (string * V)) (k : string) :
  k ∉ keys d → dict_get d k = None.
Proof.
  intros Hnot. destruct (dict_get d k) as [v|] eqn:E; [|reflexivity].
  exfalso. apply Hnot. eapply dict_get_Some_keys, E.
Qed.

Lemma finish_loading_loaded (names : list string) :
  uninterrupted load_dataset from_dict names →
  (load_dataset_for_module Dataset load_dataset from_dict concatenate_datasets
     len names).1
  = finish_loading concatenate_datasets (Ok (loaded load_dataset from_dict names)).
Proof.
  intros Hun. rewrite load_dataset_for_module_finish, load_loop_loaded by exact Hun.
  reflexivity.
Qed.

(** X1. When no attempt is interrupted, [load_dataset_for_module] hands
    [concatenate_datasets] exactly the datasets whose loading succeeded, in
    the order in which they were requested; names that are unknown or whose
    loading failed leave no gap and stop nothing. With nothing loaded it
    raises [ValueError] instead. *)
Theorem load_dataset_for_module_loaded (names : list string)
    (Hun : uninterrupted load_dataset from_dict names) :
  (load_dataset_for_module Dataset load_dataset from_dict concatenate_datasets
     len names).1
  = match loaded load_dataset from_dict names with
    | [] => Raise (ValueError "No datasets could be loaded")
    | datasets => concatenate_datasets datasets
    end.
Proof.
  rewrite finish_loading_loaded by exact Hun. unfold finish_loading.
  destruct (loaded load_dataset from_dict names); reflexivity.
Qed.

(** X2. A requested name that is not a key of [AVAILABLE_DATASETS] is
    ignored without a trace: result and log are those of the request with
    such names removed. *)
Theorem unknown_names_are_ignored (names : list string) :
  load_dataset_for_module Dataset load_dataset from_dict concatenate_datasets
    len names
  = load_dataset_for_module Dataset load_dataset from_dict concatenate_datasets
      len (filter (λ name, name ∈ keys AVAILABLE_DATASETS) names).
Proof.
  unfold load_dataset_for_module.
  assert (H : ∀ datasets log,
    load_loop Dataset load_dataset from_dict len names datasets log
    = load_loop Dataset load_dataset from_dict len
        (filter (λ name, name ∈ keys AVAILABLE_DATASETS) names) datasets log).
  { induction names as [|name rest IH]; intros datasets log; [reflexivity|].
    destruct (decide (name ∈ keys AVAILABLE_DATASETS)) as [Hin|Hnot].
    - rewrite filter_cons_True by exact Hin. cbn [load_loop].
      destruct (dict_get AVAILABLE_DATASETS name) as [path|]; [|apply IH].
      destruct (load_available _ _ _ name path) as [ds|e]; [apply IH|].
      destruct (is_Exception e); [apply IH|reflexivity].
    - rewrite filter_cons_False by exact Hnot. cbn [load_loop].
      rewrite (dict_get_None_keys _ _ Hnot). apply IH. }
  rewrite H. reflexivity.
Qed.

Lemma load_loop_skip (pre post : list string) (bad : string) (e : exn) :
  attempt load_dataset from_dict bad = Some (Raise e) →
  is_Exception e = true →
  (load_loop Dataset load_dataset from_dict len (pre ++ bad :: post) [] []).1
  = (load_loop Dataset load_dataset from_dict len (pre ++ post) [] []).1.
Proof.
  intros Hbad He. induction pre as [|name pre IH].
  - simpl app. rewrite load_loop_cons, Hbad, He. reflexivity.
  - rewrite <- !app_comm_cons, !load_loop_cons, IH. reflexivity.
Qed.

(** X3. A dataset whose loading raises an [Exception] is skipped and the
    loop goes on: the request returns what it would return without that
    name. *)
Theorem failed_dataset_is_skipped (pre post : list string) (bad : string)
    (e : exn)
    (Hbad : attempt load_dataset from_dict bad = Some (Raise e))
    (He : is_Exception e = true) :
  (load_dataset_for_module Dataset load_dataset from_dict concatenate_datasets
     len (pre ++ bad :: post)).1
  = (load_dataset_for_module Dataset load_dataset from_dict
       concatenate_datasets len (pre ++ post)).1.
Proof.
  rewrite !load_dataset_for_module_finish.
  rewrite (load_loop_skip pre post bad e Hbad He). reflexivity.
Qed.

(** X4. ["sec_filings"] and ["clinical_trials"] are keys of
    [AVAILABLE_DATASETS] but can never be loaded, whatever the [datasets]
    library does: the first calls a method the class does not have, the
    second has no custom loader. Requesting them changes nothing in what is
    returned. *)
Theorem custom_datasets_without_loader (names : list string) :
  (load_dataset_for_module Dataset load_dataset from_dict concatenate_datasets
     len names).1
  = (load_dataset_for_module Dataset load_dataset from_dict
       concatenate_datasets len
       (filter (λ name, name ∉ ["sec_filings"; "clinical_trials"]) names)).1.
Proof.
  rewrite !load_dataset_for_module_finish. f_equal.
  induction names as [|name rest IH]; [reflexivity|].
  destruct (decide (name ∉ ["sec_filings"; "clinical_trials"])) as [Hok|Hbad].
  - rewrite filter_cons_True by exact Hok. rewrite !load_loop_cons, IH.
    reflexivity.
  - rewrite filter_cons_False by exact Hbad. rewrite load_loop_cons, <- IH.
    apply dec_stable in Hbad.
    apply elem_of_cons in Hbad as [->|Hbad]; [reflexivity|].
    apply list_elem_of_singleton in Hbad as ->. reflexivity.
Qed.

Lemma loaded_nil (names : list string) :
  (∀ name ds, name ∈ names → attempt load_dataset from_dict name ≠ Some (Ok ds)) →
  loaded load_dataset from_dict names = [].
Proof.
  induction names as [|name rest IH]; intros H; [reflexivity|].
  unfold loaded. cbn [omap list_omap]. fold (loaded load_dataset from_dict rest).
  rewrite IH by (intros n ds Hn; apply H; right; exact Hn).
  destruct (attempt load_dataset from_dict name) as [[ds|e]|] eqn:E;
    try reflexivity.
  exfalso. eapply H; [left|exact E].
Qed.

(** X5. When every requested name is unknown or fails to load with an
    [Exception] (in particular when the request is empty),
    [load_dataset_for_module] raises
    [ValueError("No datasets could be loaded")]. *)
Theorem nothing_loaded_is_ValueError (names : list string)
    (Hnone : ∀ name, name ∈ names →
       attempt load_dataset from_dict name = None ∨
       ∃ e, attempt load_dataset from_dict name = Some (Raise e) ∧
            is_Exception e = true) :
  (load_dataset_for_module Dataset load_dataset from_dict concatenate_datasets
     len names).1
  = Raise (ValueError "No datasets could be loaded").
Proof.
  rewrite finish_loading_loaded.
  - rewrite loaded_nil; [reflexivity|].
    intros name ds Hin Hds. destruct (Hnone name Hin) as [E|(e & E & _)];
      congruence.
  - intros name e Hin He. destruct (Hnone name Hin) as [E|(e' & E & Hexc)];
      congruence.
Qed.

Lemma loaded_elem_of (names : list string) (name : string) (ds : Dataset) :
  name ∈ names → attempt load_dataset from_dict name = Some (Ok ds) →
  ds ∈ loaded load_dataset from_dict names.
Proof.
  intros Hin Hds. unfold loaded. apply list_elem_of_omap.
  exists name. split; [exact Hin|]. rewrite Hds. reflexivity.
Qed.

(** X6. A request that names ["us_federal_register"] never runs out of
    data: unless an attempt is interrupted, [concatenate_datasets] is called
    on a list that holds the built-in sample of a hundred copies of one
    record with label 0, which is produced without any access to the
    network or to the hub. *)
Theorem federal_register_always_loads (names : list string)
    (Hin : "us_federal_register" ∈ names)
    (Hun : uninterrupted load_dataset from_dict names) :
  ∃ datasets,
    from_dict (replicate 100 "Sample federal regulation text")
              (replicate 100 0%Z) ∈ datasets ∧
    (load_dataset_for_module Dataset load_dataset from_dict
       concatenate_datasets len names).1
    = concatenate_datasets datasets.
Proof.
  exists (loaded load_dataset from_dict names).
  assert (Hfed : from_dict (replicate 100 "Sample federal regulation text")
                           (replicate 100 0%Z)
                 ∈ loaded load_dataset from_dict names)
    by (apply (loaded_elem_of names "us_federal_register"); [exact Hin|reflexivity]).
  split; [exact Hfed|].
  rewrite finish_loading_loaded by exact Hun.
  destruct (loaded load_dataset from_dict names); [inversion Hfed|reflexivity].
Qed.

End DatasetFacts.

Ltac by_cases_on_names Hin :=
  repeat (apply elem_of_cons in Hin as [->|Hin]); [..|inversion Hin].

Lemma load_dataset_for_module_loaded_witness :
  let names := ["pubmed"; "nope"; "sec_filings"; "us_federal_register"] in
  uninterrupted toy_load_dataset toy_from_dict names ∧
  (load_dataset_for_module _ toy_load_dataset toy_from_dict toy_concatenate
     (@length _) names).1
  = match loaded toy_load_dataset toy_from_dict names with
    | [] => Raise (ValueError "No datasets could be loaded")
    | datasets => toy_concatenate datasets
    end.
Proof.
  intros names.
  assert (Hun : uninterrupted toy_load_dataset toy_from_dict names).
  { intros name e Hin Hatt. by_cases_on_names Hin; vm_compute in Hatt;
      try discriminate; injection Hatt as <-; reflexivity. }
  split; [exact Hun|].
  exact (load_dataset_for_module_loaded _ toy_load_dataset toy_from_dict
           toy_concatenate (@length _) names Hun).
Defined.

Lemma failed_dataset_is_skipped_witness :
  attempt toy_load_dataset toy_from_dict "casehold"
  = Some (Raise (RuntimeError "load_dataset")) ∧
  is_Exception (RuntimeError "load_dataset") = true ∧
  (load_dataset_for_module _ toy_load_dataset toy_from_dict toy_concatenate
     (@length _) (["pubmed"] ++ "casehold" :: ["us_federal_register"])).1
  = (load_dataset_for_module _ toy_load_dataset toy_from_dict toy_concatenate
       (@length _) (["pubmed"] ++ ["us_federal_register"])).1.
Proof.
  assert (Hbad : attempt toy_load_dataset toy_from_dict "casehold"
                 = Some (Raise (RuntimeError "load_dataset"))) by reflexivity.
  assert (He : is_Exception (RuntimeError "load_dataset") = true) by reflexivity.
  split; [exact Hbad|]. split; [exact He|].
  exact (failed_dataset_is_skipped _ toy_load_dataset toy_from_dict
           toy_concatenate (@length _) ["pubmed"] ["us_federal_register"]
           "casehold" _ Hbad He).
Defined.

Lemma nothing_loaded_is_ValueError_witness :
  let names := ["casehold"; "nope"; "clinical_trials"] in
  (∀ name, name ∈ names →
     attempt toy_load_dataset toy_from_dict name = None ∨
     ∃ e, attempt toy_load_dataset toy_from_dict name = Some (Raise e) ∧
          is_Exception e = true) ∧
  (load_dataset_for_module _ toy_load_dataset toy_from_dict toy_concatenate
     (@length _) names).1
  = Raise (ValueError "No datasets could be loaded").
Proof.
  intros names.
  assert (Hnone : ∀ name, name ∈ names →
     attempt toy_load_dataset toy_from_dict name = None ∨
     ∃ e, attempt toy_load_dataset toy_from_dict name = Some (Raise e) ∧
          is_Exception e = true).
  { intros name Hin. by_cases_on_names Hin.
    - right. eexists. split; reflexivity.
    - left. reflexivity.
    - right. eexists. split; reflexivity. }
  split; [exact Hnone|].
  exact (nothing_loaded_is_ValueError _ toy_load_dataset toy_from_dict
           toy_concatenate (@length _) names Hnone).
Defined.

Lemma federal_register_always_loads_witness :
  let names := ["casehold"; "us_federal_register"] in
  "us_federal_register" ∈ names ∧
  uninterrupted toy_load_dataset toy_from_dict names ∧
  ∃ datasets,
    toy_from_dict (replicate 100 "Sample federal regulation text")
                  (replicate 100 0%Z) ∈ datasets ∧
    (load_dataset_for_module _ toy_load_dataset toy_from_dict toy_concatenate
       (@length _) names).1
    = toy_concatenate datasets.
Proof.
  intros names.
  assert (Hin : "us_federal_register" ∈ names) by (right; left).
  assert (Hun : uninterrupted toy_load_dataset toy_from_dict names).
  { intros name e Hin' Hatt. by_cases_on_names Hin'; vm_compute in Hatt;
      try discriminate; injection Hatt as <-; reflexivity. }
  split; [exact Hin|]. split; [exact Hun|].
  exact (federal_register_always_loads _ toy_load_dataset toy_from_dict
           toy_concatenate (@length _) names Hin Hun).
Defined.

(** ** The built-in configurations *)

(** X7. The six built-in configurations fit the dataset table and the
    registry: their module names are pairwise distinct, none has an empty
    list of datasets, and every dataset they name is a key of
    [AVAILABLE_DATASETS], so that none is dropped as unknown. *)
Theorem builtin_configs_consistent :
  let configs := map snd (create_jurisdiction_modules ++ create_domain_modules) in
  NoDup (map name configs) ∧
  Forall (λ c, datasets c ≠ [] ∧
               Forall (λ d, d ∈ keys AVAILABLE_DATASETS) (datasets c)) configs.
Proof.
  cbv zeta. split.
  - compute_done.
  - repeat (apply Forall_cons; split; [split; [discriminate|compute_done]|]).
    apply Forall_nil_2.
Qed.

(** ** Training and the registry *)

Lemma param_values_new (pre : list tensor) (params : list (string * tensor)) :
  map (λ kv : string * nat,
         (kv.1, default [] ((pre ++ map snd params)%list !! kv.2)))
      (imap (λ i kv, (kv.1, length pre + i)%nat) params)
  = params.
Proof.
  revert pre. induction params as [|[k v] params IH]; intros pre; [reflexivity|].
  rewrite imap_cons. cbn [map fst snd]. f_equal.
  - rewrite Nat.add_0_r, lookup_app_r by lia. rewrite Nat.sub_diag. reflexivity.
  - rewrite (cons_middle v pre (map snd params)), app_assoc.
    rewrite (imap_ext _ (λ i kv, (kv.1, length (pre ++ [v]) + i)%nat)).
    + apply IH.
    + intros i [k' v'] _. simpl. f_equal. rewrite length_app. simpl. lia.
Qed.

Lemma new_module_spec (params : list (string * tensor)) (w : world) :
  (new_module params w).1 = length (nn_modules w) ∧
  param_values (new_module params w).2 (length (nn_modules w)) = params ∧
  (∀ m, (m < length (nn_modules w))%nat →
        params_of (new_module params w).2 m = params_of w m) ∧
  (∀ a, (a < length (tensors w))%nat →
        deref (new_module params w).2 a = deref w a).
Proof.
  unfold new_module. cbn [fst snd]. split; [reflexivity|]. split; [|split].
  - unfold param_values, params_of, deref. cbn [nn_modules tensors].
    rewrite lookup_app_r by lia. rewrite Nat.sub_diag. cbn [lookup list_lookup default from_option].
    apply param_values_new.
  - intros m Hm. unfold params_of. cbn [nn_modules].
    rewrite lookup_app_l by exact Hm. reflexivity.
  - intros a Ha. unfold deref. cbn [tensors].
    rewrite lookup_app_l by exact Ha. reflexivity.
Qed.

Section TrainerFacts.

Variable fit : ModuleConfig → result (list (string * tensor)).
Variable output_dir : string.

(** The state a successful training leaves. *)
Lemma train_module_Ok (config : ModuleConfig) (params : list (string * tensor))
    (s : state) :
  fit config = Ok params →
  (train_module fit output_dir config s).1 = Ok (length (nn_modules (store s))) ∧
  store (train_module fit output_dir config s).2
  = (new_module params (store s)).2 ∧
  trained_modules (train_module fit output_dir config s).2
  = setitem (trained_modules s) (name config) (length (nn_modules (store s))).
Proof.
  intros Hfit. unfold train_module, mbind, P_bind, logger_info, run_fit, register,
    mret, P_ret. cbn [store emit]. rewrite Hfit. repeat split.
Qed.

Lemma train_module_Raise (config : ModuleConfig) (e : exn) (s : state) :
  fit config = Raise e →
  train_module fit output_dir config s
  = (Raise e, emit (LogInfo ("Training module: " +:+ name config)) s).
Proof.
  intros Hfit. unfold train_module, mbind, P_bind, logger_info, run_fit.
  cbn [store emit]. rewrite Hfit. reflexivity.
Qed.

(** X8. A training that succeeds creates a new module object holding the
    trained parameters, returns it, and binds it to the configuration's
    name in the registry, replacing whatever was registered under that
    name; the entries of all other names, the existing module objects and
    the existing tensors stay as they were. *)
Theorem train_module_registers (config : ModuleConfig)
    (params : list (string * tensor)) (s : state)
    (Hfit : fit config = Ok params) :
  let out := train_module fit output_dir config s in
  let model := length (nn_modules (store s)) in
  out.1 = Ok model ∧
  dict_get (trained_modules out.2) (name config) = Some model ∧
  (∀ other, other ≠ name config →
     dict_get (trained_modules out.2) other = dict_get (trained_modules s) other) ∧
  param_values (store out.2) model = params ∧
  (∀ m, (m < length (nn_modules (store s)))%nat →
     params_of (store out.2) m = params_of (store s) m) ∧
  (∀ a, (a < length (tensors (store s)))%nat →
     deref (store out.2) a = deref (store s) a).
Proof.
  intros out model.
  destruct (train_module_Ok config params s Hfit) as (Hret & Hstore & Hreg).
  fold out in Hret, Hstore, Hreg. fold model in Hret, Hreg.
  destruct (new_module_spec params (store s)) as (_ & Hvals & Hmods & Hts).
  rewrite <- Hstore in Hvals, Hmods, Hts.
  split; [exact Hret|]. split; [|split; [|split; [exact Hvals|split; assumption]]].
  - rewrite Hreg, dict_get_setitem, String.eqb_refl. reflexivity.
  - intros other Hne. rewrite Hreg, dict_get_setitem.
    rewrite (proj2 (String.eqb_neq _ _)) by congruence. reflexivity.
Qed.

End TrainerFacts.

Lemma train_module_registers_witness :
  toy_fit config_A = Ok [("weight", [1%Q])] ∧
  let out := train_module toy_fit "trained_modules" config_A s_rising in
  let model := length (nn_modules (store s_rising)) in
  out.1 = Ok model ∧
  dict_get (trained_modules out.2) (name config_A) = Some model ∧
  (∀ other, other ≠ name config_A →
     dict_get (trained_modules out.2) other
     = dict_get (trained_modules s_rising) other) ∧
  param_values (store out.2) model = [("weight", [1%Q])] ∧
  (∀ m, (m < length (nn_modules (store s_rising)))%nat →
     params_of (store out.2) m = params_of (store s_rising) m) ∧
  (∀ a, (a < length (tensors (store s_rising)))%nat →
     deref (store out.2) a = deref (store s_rising) a).
Proof.
  assert (Hfit : toy_fit config_A = Ok [("weight", [1%Q])]) by reflexivity.
  split; [exact Hfit|].
  exact (train_module_registers toy_fit "trained_modules" config_A _ s_rising Hfit).
Defined.

(** ** Federated learning *)

Lemma dict_get_setitem_is_Some {V} (d : list (string * V)) (k k' : string) (v : V) :
  is_Some (dict_get d k') → is_Some (dict_get (setitem d k v) k').
Proof.
  intros H. rewrite dict_get_setitem. destruct (String.eqb k k'); [eexists; reflexivity|exact H].
Qed.

Lemma privacy_returns_model (model : nat) (epsilon : Q) (w : world) (g : nat) :
  (_apply_differential_privacy model epsilon w).1 = Ok g → g = model.
Proof.
  unfold _apply_differential_privacy.
  destruct (privacy_loop _ _ _ _) as [[sd|e] w']; simpl; [|discriminate].
  destruct (load_state_dict _ _ _) as [[[]|e] w'']; simpl; [|discriminate].
  intros [= <-]. reflexivity.
Qed.

Section FederatedFacts.

Variable fit : ModuleConfig → result (list (string * tensor)).
Variable output_dir : string.

(** What a run of [train_clients] keeps, however it ends: entries of the
    registry stay bound, existing module objects and tensors stay as they
    were. *)
Lemma train_module_frame (config : ModuleConfig) (s : state) :
  let out := train_module fit output_dir config s in
  (∀ k, is_Some (dict_get (trained_modules s) k) →
        is_Some (dict_get (trained_modules out.2) k)) ∧
  (length (nn_modules (store s)) ≤ length (nn_modules (store out.2)))%nat ∧
  (length (tensors (store s)) ≤ length (tensors (store out.2)))%nat ∧
  (∀ m, (m < length (nn_modules (store s)))%nat →
        params_of (store out.2) m = params_of (store s) m) ∧
  (∀ a, (a < length (tensors (store s)))%nat →
        deref (store out.2) a = deref (store s) a).
Proof.
  intros out. unfold out. destruct (fit config) as [params|e] eqn:Hfit.
  - destruct (train_module_Ok fit output_dir config params s Hfit)
      as (_ & Hstore & Hreg).
    destruct (new_module_spec params (store s)) as (_ & _ & Hmods & Hts).
    rewrite Hstore, Hreg. repeat split; try assumption.
    + intros k Hk. apply dict_get_setitem_is_Some. exact Hk.
    + unfold new_module. cbn [snd nn_modules]. rewrite length_app. lia.
    + unfold new_module. cbn [snd tensors]. rewrite length_app. lia.
  - rewrite (train_module_Raise fit output_dir config e s Hfit).
    cbn [snd emit store trained_modules]. repeat split; auto.
Qed.

Lemma train_clients_cons (config : ModuleConfig) (rest : list ModuleConfig)
    (s : state) :
  train_clients fit output_dir (config :: rest) s =
  match train_module fit output_dir config s with
  | (Ok model, s1) =>
      match train_clients fit output_dir rest s1 with
      | (Ok client_models, s2) => (Ok (model :: client_models), s2)
      | (Raise e, s2) => (Raise e, s2)
      end
  | (Raise e, s1) => (Raise e, s1)
  end.
Proof.
  cbn [train_clients]. unfold mbind, P_bind.
  destruct (train_module _ _ _ _) as [[model|e] s1]; [|reflexivity].
  destruct (train_clients _ _ _ _) as [[ms|e] s2]; reflexivity.
Qed.

Lemma train_clients_frame (configs : list ModuleConfig) (s : state) :
  let out := train_clients fit output_dir configs s in
  (∀ k, is_Some (dict_get (trained_modules s) k) →
        is_Some (dict_get (trained_modules out.2) k)) ∧
  (length (nn_modules (store s)) ≤ length (nn_modules (store out.2)))%nat ∧
  (length (tensors (store s)) ≤ length (tensors (store out.2)))%nat ∧
  (∀ m, (m < length (nn_modules (store s)))%nat →
        params_of (store out.2) m = params_of (store s) m) ∧
  (∀ a, (a < length (tensors (store s)))%nat →
        deref (store out.2) a = deref (store s) a).
Proof.
  cbv zeta. revert s. induction configs as [|config rest IH]; intros s.
  - simpl. repeat split; auto.
  - rewrite train_clients_cons.
    pose proof (train_module_frame config s) as H1. cbv zeta in H1.
    destruct (train_module _ _ _ _) as [[model|e] s1]; [|exact H1].
    cbn [snd] in H1. specialize (IH s1).
    destruct (train_clients _ _ _ _) as [[ms|e] s2]; cbn [snd] in *;
      destruct H1 as (A1 & A2 & A3 & A4 & A5);
      destruct IH as (B1 & B2 & B3 & B4 & B5);
      (repeat split; [auto|lia|lia| |]);
      [intros m Hm; rewrite B4 by lia; apply A4; exact Hm
      |intros a Ha; rewrite B5 by lia; apply A5; exact Ha
      |intros m Hm; rewrite B4 by lia; apply A4; exact Hm
      |intros a Ha; rewrite B5 by lia; apply A5; exact Ha].
Qed.

(** Clients are trained in the order given; the models returned are the
    module objects created one after the other. *)
Lemma train_clients_Ok (configs : list ModuleConfig) (s : state)
    (models : list nat) :
  (train_clients fit output_dir configs s).1 = Ok models →
  models = seq (length (nn_modules (store s))) (length configs) ∧
  ∀ k, k ∉ map name configs →
    dict_get (trained_modules (train_clients fit output_dir configs s).2) k
    = dict_get (trained_modules s) k.
Proof.
  revert s models. induction configs as [|config rest IH]; intros s models.
  - simpl. intros [= <-]. split; reflexivity.
  - rewrite train_clients_cons.
    destruct (fit config) as [params|e] eqn:Hfit.
    + destruct (train_module_Ok fit output_dir config params s Hfit)
        as (Hret & Hstore & Hreg).
      destruct (train_module _ _ _ _) as [r s1]. cbn [fst snd] in *. subst r.
      specialize (IH s1).
      destruct (train_clients _ _ _ _) as [[ms|e] s2]; cbn [fst snd] in *;
        [|discriminate].
      intros [= <-]. destruct (IH ms eq_refl) as [Hms Hk]. split.
      * cbn [length seq]. f_equal. rewrite Hms, Hstore.
        unfold new_module. cbn [snd nn_modules]. rewrite length_app.
        simpl. f_equal. lia.
      * intros k Hnot. rewrite Hk by (intros Hin; apply Hnot; right; exact Hin).
        rewrite Hreg, dict_get_setitem.
        rewrite (proj2 (String.eqb_neq _ _)); [reflexivity|].
        intros <-. apply Hnot. left.
    + rewrite (train_module_Raise fit output_dir config e s Hfit). discriminate.
Qed.

Lemma federated_learning_without_clients_result (s : state) :
  (federated_learning fit output_dir [] s).1
  = Raise (ValueError "No models to average").
Proof. reflexivity. Qed.

(** X9. With no client at all, [federated_learning] fails on the averaging
    step with [ValueError("No models to average")]; nothing was trained,
    registered or logged. *)
Theorem federated_learning_without_clients (s : state) :
  federated_learning fit output_dir [] s
  = (Raise (ValueError "No models to average"), s).
Proof. destruct s. reflexivity. Qed.

Lemma train_clients_head (c0 : ModuleConfig) (rest : list ModuleConfig)
    (s : state) (models : list nat) :
  (train_clients fit output_dir (c0 :: rest) s).1 = Ok models →
  name c0 ∉ map name rest →
  dict_get (trained_modules (train_clients fit output_dir (c0 :: rest) s).2)
           (name c0)
  = Some (length (nn_modules (store s))).
Proof.
  rewrite train_clients_cons. destruct (fit c0) as [params|e] eqn:Hfit.
  - destruct (train_module_Ok fit output_dir c0 params s Hfit)
      as (Hret & _ & Hreg).
    destruct (train_module _ _ _ _) as [r s0]. cbn [fst snd] in *. subst r.
    pose proof (train_clients_Ok rest s0) as Hrest.
    destruct (train_clients _ _ _ _) as [[ms|e] s2]; cbn [fst snd] in *;
      [|discriminate].
    intros _ Hfresh. destruct (Hrest ms eq_refl) as [_ Hk].
    rewrite (Hk _ Hfresh), Hreg, dict_get_setitem, String.eqb_refl. reflexivity.
  - rewrite (train_module_Raise fit output_dir c0 e s Hfit). discriminate.
Qed.

(** X11. When [federated_learning] returns, the global model it returns is
    the module object created for the first client, overwritten in place;
    unless a later client reuses the first client's name, the registry entry
    of the first client is therefore the global model, not the model that
    client was trained to. *)
Theorem federated_learning_returns_first_client (configs : list ModuleConfig)
    (s : state) (g : nat)
    (Hret : (federated_learning fit output_dir configs s).1 = Ok g) :
  ∃ c0 rest, configs = c0 :: rest ∧
    g = length (nn_modules (store s)) ∧
    (name c0 ∉ map name rest →
     dict_get (trained_modules (federated_learning fit output_dir configs s).2)
              (name c0) = Some g).
Proof.
  destruct configs as [|c0 rest].
  { rewrite federated_learning_without_clients_result in Hret. discriminate. }
  exists c0, rest. split; [reflexivity|].
  pose proof (train_clients_Ok (c0 :: rest) s) as Hok.
  pose proof (train_clients_head c0 rest s) as Hhead.
  unfold federated_learning, mbind, P_bind, lift_store in *.
  destruct (train_clients fit output_dir (c0 :: rest) s) as [[models|e] s1];
    cbn [fst snd] in *; [|discriminate].
  destruct (Hok models eq_refl) as [Hmodels _]. specialize (Hhead models eq_refl).
  cbn [length seq] in Hmodels. subst models.
  pose proof (federated_averaging_frame (length (nn_modules (store s)))
                (seq (S (length (nn_modules (store s)))) (length rest)) (store s1))
    as (Hfirst & _).
  destruct (_federated_averaging _ (store s1)) as [[g1|e] w1];
    cbn [fst snd] in *; [|discriminate].
  specialize (Hfirst g1 eq_refl). subst g1.
  pose proof (privacy_returns_model (length (nn_modules (store s))) 1 w1) as Hdp.
  cbn [store trained_modules performance_history np_rng np_pos trace] in *.
  destruct (_apply_differential_privacy _ 1 w1) as [[g2|e] w2];
    cbn [fst snd trained_modules] in *; [|discriminate].
  specialize (Hdp g2 eq_refl). subst g2. injection Hret as <-.
  split; [reflexivity|exact Hhead].
Qed.

End FederatedFacts.

Lemma federated_learning_returns_first_client_witness :
  (federated_learning toy_fit "trained_modules" [config_A; config_B] s_rising).1
  = Ok 2%nat ∧
  ∃ c0 rest, [config_A; config_B] = c0 :: rest ∧
    2%nat = length (nn_modules (store s_rising)) ∧
    (name c0 ∉ map name rest →
     dict_get (trained_modules
                 (federated_learning toy_fit "trained_modules"
                    [config_A; config_B] s_rising).2)
              (name c0) = Some 2%nat).
Proof.
  assert (Hret : (federated_learning toy_fit "trained_modules"
                    [config_A; config_B] s_rising).1 = Ok 2%nat) by reflexivity.
  split; [exact Hret|].
  exact (federated_learning_returns_first_client toy_fit "trained_modules"
           [config_A; config_B] s_rising 2%nat Hret).
Defined.

(** ** More on the continuous-learning loop *)

Section LoopFacts.

Variable fit : ModuleConfig → result (list (string * tensor)).
Variable output_dir : string.
Variable config_of : string → P ModuleConfig.
Variable deploy : P unit.

Lemma iteration_scores (s : state) :
  let out := try_except (cycle fit output_dir config_of deploy) on_error s in
  performance_history out.2
  = (performance_history s ++ [np_rng s (np_pos s)])%list ∧
  np_pos out.2 = S (S (np_pos s)) ∧ np_rng out.2 = np_rng s.
Proof.
  unfold try_except. rewrite cycle_run. destruct (float_gt _ _); repeat split.
Qed.

(** X12. The history is append-only and receives one score per iteration:
    the score taken before retraining. Each iteration draws two scores, so
    after [fuel] iterations the history has grown by the draws number 0, 2,
    4, ... counted from where the generator stood; the scores taken after
    retraining are not recorded. *)
Theorem history_records_first_scores (fuel : nat) (s : state) :
  let out := run_training_loop fit output_dir config_of deploy fuel s in
  performance_history out.2
  = (performance_history s
     ++ map (λ i, np_rng s (np_pos s + 2 * i)%nat) (seq 0 fuel))%list ∧
  np_pos out.2 = (np_pos s + 2 * fuel)%nat.
Proof.
  assert (H : ∀ s0,
    let out := run_training_loop fit output_dir config_of deploy fuel s0 in
    performance_history out.2
    = (performance_history s0
       ++ map (λ i, np_rng s0 (np_pos s0 + 2 * i)%nat) (seq 0 fuel))%list ∧
    np_pos out.2 = (np_pos s0 + 2 * fuel)%nat ∧ np_rng out.2 = np_rng s0).
  { cbv zeta. unfold run_training_loop.
    induction fuel as [|n IH]; intros s0.
    - simpl. rewrite app_nil_r, Nat.add_0_r. repeat split.
    - cbn [while_True]. unfold mbind, P_bind.
      pose proof (iteration_scores s0) as Hit. cbv zeta in Hit.
      pose proof (iteration_frame fit output_dir config_of deploy s0) as Hfr.
      cbv zeta in Hfr. destruct Hfr as (Hok & _).
      destruct (try_except _ on_error s0) as [r s1]. cbn [fst snd] in *.
      subst r. destruct Hit as (Hh & Hp & Hg).
      destruct (IH s1) as (IHh & IHp & IHg).
      split; [|split; [lia|congruence]].
      rewrite IHh, Hh, Hg, Hp. rewrite <- app_assoc. f_equal.
      cbn [seq map app]. rewrite Nat.mul_0_r, Nat.add_0_r. f_equal.
      rewrite <- seq_shift, map_map. apply map_ext. intros i.
      f_equal. lia. }
  intros out. destruct (H s) as (H1 & H2 & _). split; assumption.
Qed.

(** X13. An iteration in which the score improved never deploys: the call
    of [deploy_updates], a method the class does not define, raises
    [AttributeError], which the loop logs before retrying after
    [retry_interval]. Only an iteration without improvement ends with the
    sleep of [cycle_interval]. Either way the iteration ends normally. *)
Theorem improvement_ends_in_error_handler (s : state) :
  let current_performance := np_rng s (np_pos s) in
  let new_performance := np_rng s (S (np_pos s)) in
  let out := try_except (cycle fit output_dir config_of deploy) on_error s in
  out.1 = Ok () ∧
  ((current_performance < new_performance)%Q →
   drop (length (trace s)) (trace out.2)
   = [LogInfo deploying_message; LogError (AttributeError "deploy_updates");
      Sleep retry_interval]) ∧
  ((new_performance <= current_performance)%Q →
   drop (length (trace s)) (trace out.2) = [Sleep cycle_interval]).
Proof.
  intros cur new out. unfold out, try_except. rewrite cycle_run. fold cur new.
  destruct (float_gt new cur) eqn:E.
  - apply float_gt_spec in E. simpl.
    split; [reflexivity|]. split.
    + intros _. rewrite <- !app_assoc, drop_app_length. reflexivity.
    + intros Hle. exfalso. exact (Qlt_not_le _ _ E Hle).
  - simpl. split; [reflexivity|]. split.
    + intros Hlt. apply float_gt_spec in Hlt. congruence.
    + intros _. rewrite drop_app_length. reflexivity.
Qed.

(** X14. An exception that is not an [Exception] (a cancellation, a
    keyboard interrupt) is not caught: it leaves the loop at once, with
    nothing logged and no sleep, in the state in which the cycle raised
    it. *)
Theorem loop_exits_on_interruption (body : P unit) (s s' : state) (e : exn)
    (fuel : nat)
    (Hraise : body s = (Raise e, s')) (Hbase : is_Exception e = false) :
  while_True (S fuel) (try_except body on_error) s = (Raise e, s').
Proof.
  cbn [while_True]. unfold mbind, P_bind, try_except.
  rewrite Hraise, Hbase. reflexivity.
Qed.

(** X15. The retraining loop cannot train anything: for a non-empty list of
    targets its first step, the call of the undefined method
    [get_module_config], raises [AttributeError] before [train_module] is
    reached, and the state is untouched. *)
Theorem retraining_needs_get_module_config (targets : list string) (s : state)
    (Hne : targets ≠ []) :
  for_each targets (λ module_name,
    config ← get_module_config module_name config_of;
    train_module fit output_dir config;;
    mret ()) s
  = (Raise (AttributeError "get_module_config"), s).
Proof.
  destruct targets as [|module_name rest]; [done|]. reflexivity.
Qed.

End LoopFacts.

Lemma loop_exits_on_interruption_witness :
  (raise CancelledError : P unit) s_rising = (Raise CancelledError, s_rising) ∧
  is_Exception CancelledError = false ∧
  while_True 3 (try_except (raise CancelledError) on_error) s_rising
  = (Raise CancelledError, s_rising).
Proof.
  assert (Hraise : (raise CancelledError : P unit) s_rising
                   = (Raise CancelledError, s_rising)) by reflexivity.
  assert (Hbase : is_Exception CancelledError = false) by reflexivity.
  split; [exact Hraise|]. split; [exact Hbase|].
  exact (loop_exits_on_interruption (raise CancelledError) s_rising s_rising
           CancelledError 2 Hraise Hbase).
Defined.

Lemma retraining_needs_get_module_config_witness :
  ["US_Legal_Module"] ≠ [] ∧
  for_each ["US_Legal_Module"] (λ module_name,
    config ← get_module_config module_name (λ _, mret config_A);
    train_module toy_fit "trained_modules" config;;
    mret ()) s_rising
  = (Raise (AttributeError "get_module_config"), s_rising).
Proof.
  assert (Hne : ["US_Legal_Module"] ≠ []) by discriminate.
  split; [exact Hne|].
  exact (retraining_needs_get_module_config toy_fit "trained_modules"
           (λ _, mret config_A) ["US_Legal_Module"] s_rising Hne).
Defined.

(** ** More on the ensemble *)

(** X16. [create_ensemble] validates nothing itself and copies nothing; the
    only failure is the [KeyError] of [nn.ModuleDict], raised for the first
    name of the mapping that is an attribute of [ModuleDict], contains a
    dot or is empty, and then the store is as it was. For every other
    mapping it returns an ensemble that registers the mapping, a freshly
    drawn integration layer with 768 rows of [len(modules) * 768] weights
    and 768 biases, and a freshly drawn classifier with 2 rows of 768
    weights and 2 biases; the tensors and module objects of the store are
    untouched, only the generator has advanced by the number of values
    drawn. *)
Theorem create_ensemble_layers (hasattr : string → bool)
    (modules : list (string * nat)) (w : world) :
  match find (λ kv : string * nat, negb (acceptable hasattr kv.1))
             (dict_of modules) with
  | Some kv => create_ensemble hasattr modules w = (Raise (KeyError kv.1), w)
  | None =>
    ∃ e l c,
      (create_ensemble hasattr modules w).1 = Ok e ∧
      _modules e =
        [("modules", VModuleDict (dict_of modules));
         ("integration_layer", VLinear l); ("classifier", VLinear c)] ∧
      (in_features l = (length (dict_of modules) * hidden_size)%nat ∧
       out_features l = hidden_size ∧
       length (weight l) = hidden_size ∧
       Forall (λ r, length r = (length (dict_of modules) * hidden_size)%nat)
              (weight l) ∧
       length (bias l) = hidden_size) ∧
      (in_features c = hidden_size ∧ out_features c = num_labels ∧
       length (weight c) = num_labels ∧
       Forall (λ r, length r = hidden_size) (weight c) ∧
       length (bias c) = num_labels) ∧
      tensors (create_ensemble hasattr modules w).2 = tensors w ∧
      nn_modules (create_ensemble hasattr modules w).2 = nn_modules w ∧
      rng_pos (create_ensemble hasattr modules w).2
      = (rng_pos w + hidden_size * (length (dict_of modules) * hidden_size)
         + hidden_size + num_labels * hidden_size + num_labels)%nat
  end.
Proof.
  pose proof (init_layers hasattr modules w) as H. unfold create_ensemble.
  destruct (find _ (dict_of modules)) as [kv|]; [exact H|].
  destruct H as (l & c & Hreg & Hl & Hc & Ht & Hm & Hp).
  exists (MkEnsemble [("modules", VModuleDict (dict_of modules));
                      ("integration_layer", VLinear l);
                      ("classifier", VLinear c)]), l, c.
  split; [exact Hreg|]. split; [reflexivity|]. tauto.
Qed.

(** Both outcomes occur: a mapping of jurisdiction names is accepted as it
    is, a dotted name, the empty name and the name of a method of
    [ModuleDict] are refused. *)
Lemma sample_names_accepted :
  find (λ kv : string * nat, negb (acceptable sample_hasattr kv.1))
       (dict_of [("US", 0%nat)]) = None.
Proof. vm_compute. reflexivity. Qed.

Lemma create_ensemble_refuses_names :
  create_ensemble sample_hasattr [("US", 0%nat); ("us.federal", 1%nat)] w_two
    = (Raise (KeyError "us.federal"), w_two) ∧
  create_ensemble sample_hasattr [("", 0%nat)] w_two
    = (Raise (KeyError ""), w_two) ∧
  create_ensemble sample_hasattr [("US", 0%nat); ("keys", 1%nat)] w_two
    = (Raise (KeyError "keys"), w_two).
Proof. repeat split; reflexivity. Qed.

(** A mapping given with a repeated name is the dict that keeps the place
    of the first occurrence and the value of the last. *)
Lemma dict_of_repeated_name :
  dict_of [("US", 0%nat); ("EU", 1%nat); ("US", 2%nat)]
  = [("US", 2%nat); ("EU", 1%nat)].
Proof. reflexivity. Qed.

Lemma length_linear_forward (l : Linear) (x y : tensor) :
  linear_forward l x = Ok y →
  length y = Nat.min (length (weight l)) (length (bias l)).
Proof.
  unfold linear_forward. destruct (Nat.eqb _ _); [|discriminate].
  intros [= <-]. apply length_zip_with.
Qed.

Lemma length_torch_relu (x : tensor) : length (torch_relu x) = length x.
Proof. unfold torch_relu. apply length_map. Qed.

(** X17. The statements of [forward] that follow the loop header fit the
    layers built by [__init__]: for an ensemble that [__init__] returned
    for a non-empty mapping, if the pooled vectors of the members add up to
    a width of [len(modules) * 768], they yield exactly 2 logits; with any
    other total width the integration layer rejects its input with a
    [RuntimeError]. *)
Theorem forward_over_shapes (hasattr : string → bool)
    (pooler_output : list (string * tensor) → list Z → option (list Z) → tensor)
    (modules : list (string * nat)) (w0 w : world) (self : EnsembleModel)
    (input_ids : list Z) (attention_mask : option (list Z))
    (Hinit : (EnsembleModel__init__ hasattr modules w0).1 = Ok self)
    (Hne : modules ≠ []) :
  let members := dict_of modules in
  let combined :=
    concat (map (λ nm, pooler_output (param_values w nm.2) input_ids
                                     attention_mask) members) in
  (length combined = (length members * hidden_size)%nat →
   ∃ logits,
     forward_over pooler_output self members input_ids attention_mask w
     = Ok logits ∧ length logits = num_labels) ∧
  (length combined ≠ (length members * hidden_size)%nat →
   forward_over pooler_output self members input_ids attention_mask w
   = Raise (RuntimeError "F.linear")).
Proof.
  intros members combined.
  destruct (init_Ok hasattr modules w0 self Hinit)
    as (l & c & Hreg & (L1 & L3 & L5) & (C1 & C3 & C5)).
  fold members in L1.
  assert (Hl : dict_get (_modules self) "integration_layer" = Some (VLinear l))
    by (rewrite Hreg; reflexivity).
  assert (Hc : dict_get (_modules self) "classifier" = Some (VLinear c))
    by (rewrite Hreg; reflexivity).
  rewrite (forward_over_layers pooler_output self members l c input_ids
             attention_mask w Hl Hc (dict_of_nonempty modules Hne)).
  fold combined. split.
  - intros Hlen.
    destruct (linear_forward l combined) as [h|e] eqn:El.
    + pose proof (length_linear_forward l combined h El) as Hh.
      cbn [rbind].
      destruct (linear_forward c (torch_relu h)) as [logits|e] eqn:Ec.
      * exists logits. split; [reflexivity|].
        rewrite (length_linear_forward c _ _ Ec), C3, C5. apply Nat.min_id.
      * exfalso. unfold linear_forward in Ec.
        rewrite length_torch_relu, Hh, L3, L5, Nat.min_id, C1, Nat.eqb_refl in Ec.
        discriminate.
    + exfalso. unfold linear_forward in El.
      rewrite Hlen, L1, Nat.eqb_refl in El. discriminate.
  - intros Hlen. unfold linear_forward at 1. rewrite L1.
    rewrite (proj2 (Nat.eqb_neq _ _) Hlen). reflexivity.
Qed.

Lemma forward_over_shapes_witness :
  let pooler_output :=
    λ (_ : list (string * tensor)) (_ : list Z) (_ : option (list Z)),
      replicate hidden_size 1%Q in
  let modules := [("US", 0%nat)] in
  modules ≠ [] ∧
  ∃ self,
    (EnsembleModel__init__ sample_hasattr modules w_two).1 = Ok self ∧
    let members := dict_of modules in
    let combined :=
      concat (map (λ nm, pooler_output (param_values w_two nm.2) [] None)
                  members) in
    (length combined = (length members * hidden_size)%nat →
     ∃ logits,
       forward_over pooler_output self members [] None w_two = Ok logits ∧
       length logits = num_labels) ∧
    (length combined ≠ (length members * hidden_size)%nat →
     forward_over pooler_output self members [] None w_two
     = Raise (RuntimeError "F.linear")).
Proof.
  intros pooler_output modules.
  assert (Hne : modules ≠ []) by discriminate.
  split; [exact Hne|].
  pose proof (init_layers sample_hasattr [("US", 0%nat)] w_two) as H.
  rewrite sample_names_accepted in H.
  destruct H as (l & c & Hinit & _).
  eexists. split; [exact Hinit|].
  exact (forward_over_shapes sample_hasattr pooler_output modules w_two w_two
           _ [] None Hinit Hne).
Defined.

(** ** More on federated averaging *)

(** What [_federated_averaging] leaves behind when its inputs share the
    schema of the first. *)
Lemma federated_averaging_values (m0 : nat) (rest : list nat) (w : world) :
  well_formed w m0 → (∀ m, m ∈ rest → same_schema w m0 m) →
  ∃ w', _federated_averaging (m0 :: rest) w = (Ok m0, w') ∧
        nn_modules w' = nn_modules w ∧
        (∀ key a, dict_get (params_of w m0) key = Some a →
           deref w' a = averaged w (m0 :: rest) key).
Proof.
  intros [Hkeys Haddrs] Hschema.
  set (models := m0 :: rest).
  set (d' := foldl (λ d k, setitem d k (Fresh (averaged w models k)))
                   (state_dict w m0) (keys (state_dict w m0))).
  assert (Hloop : average_loop w models (keys (state_dict w m0)) (state_dict w m0)
                  = Ok d').
  { apply average_loop_ok. intros k Hk. rewrite keys_state_dict in Hk.
    destruct (dict_get_is_Some _ _ Hk) as [a Ha].
    destruct (same_schema_rows w m0 rest k a Hschema Ha) as [Hsome Hall].
    split; [apply tensors_at_ok; exact Hsome|].
    eapply torch_stack_ok; [discriminate|exact Hall]. }
  assert (Hget : ∀ k a, (k, a) ∈ params_of w m0 →
            dict_get d' k = Some (Fresh (averaged w models k)) ∧
            dict_get (params_of w m0) k = Some a).
  { intros k a Hin. split.
    - unfold d'. rewrite dict_get_averaged. apply decide_True.
      rewrite keys_state_dict. eapply elem_of_keys. exact Hin.
    - apply dict_get_nodup; assumption. }
  destruct (copy_params_fresh (params_of w m0) d' w Haddrs) as [Hok Hvals].
  { intros k a Hin. destruct (Hget k a Hin) as [Hd' Ha].
    eexists. split; [exact Hd'|].
    destruct (same_schema_rows w m0 rest k a Hschema Ha) as [_ Hall].
    assert (Hne : map (λ m, param_at w m k) (m0 :: rest) ≠ []) by discriminate.
    exact (proj1 (mean_dim0_pointwise _ _ Hne Hall)). }
  destruct (copy_params_frame (params_of w m0) d' w) as (Hmods & _).
  exists (copy_params (params_of w m0) d' w).2. split; [|split; [exact Hmods|]].
  - unfold _federated_averaging, models. fold models. rewrite Hloop.
    unfold load_state_dict.
    destruct (copy_params (params_of w m0) d' w) as [ok w'] eqn:E.
    simpl in Hok. subst ok.
    replace (forallb _ (keys d')) with true; [reflexivity|].
    symmetry. apply forallb_forall. intros k Hk. apply bool_decide_eq_true.
    apply list_elem_of_In in Hk. unfold d' in Hk.
    rewrite keys_averaged in Hk by done.
    rewrite keys_state_dict in Hk. exact Hk.
  - intros key a Ha. apply dict_get_elem_of in Ha.
    destruct (Hvals key a Ha) as (v & Hv & Hderef).
    destruct (Hget key a Ha) as [Hd' _]. congruence.
Qed.

Lemma averaged_pointwise (m0 : nat) (rest : list nat) (w : world)
    (key : string) (a : nat) :
  (∀ m, m ∈ rest → same_schema w m0 m) →
  dict_get (params_of w m0) key = Some a →
  length (averaged w (m0 :: rest) key) = length (deref w a) ∧
  ∀ i, (i < length (deref w a))%nat →
    (nth i (averaged w (m0 :: rest) key) 0 ==
     arithmetic_mean (map (λ m, nth i (param_at w m key) 0) (m0 :: rest)))%Q.
Proof.
  intros Hschema Ha.
  destruct (same_schema_rows w m0 rest key a Hschema Ha) as [_ Hall].
  assert (Hne : map (λ m, param_at w m key) (m0 :: rest) ≠ []) by discriminate.
  destruct (mean_dim0_pointwise _ _ Hne Hall) as [H1 H2].
  split; [exact H1|]. intros i Hi. unfold averaged.
  etransitivity; [exact (H2 i Hi)|]. rewrite map_map. reflexivity.
Qed.

Lemma inject_nat_succ (n : nat) :
  (inject_Z (Z.of_nat (S n)) == inject_Z (Z.of_nat n) + 1)%Q.
Proof. rewrite Nat2Z.inj_succ, <- Z.add_1_r, inject_Z_plus. reflexivity. Qed.

Lemma inject_nat_nonzero (n : nat) : ¬ (inject_Z (Z.of_nat (S n)) == 0)%Q.
Proof. unfold Qeq. simpl. lia. Qed.

Lemma sum_const (l : list Q) (x : Q) :
  (∀ y, y ∈ l → (y == x)%Q) →
  (foldr Qplus 0 l == inject_Z (Z.of_nat (length l)) * x)%Q.
Proof.
  induction l as [|y l IH]; intros H.
  - simpl. ring.
  - cbn [foldr length]. rewrite inject_nat_succ.
    rewrite IH by (intros z Hz; apply H; right; exact Hz).
    rewrite (H y) by left. ring.
Qed.

Lemma arithmetic_mean_const (l : list Q) (x : Q) :
  l ≠ [] → (∀ y, y ∈ l → (y == x)%Q) → (arithmetic_mean l == x)%Q.
Proof.
  intros Hne H. unfold arithmetic_mean. rewrite (sum_const l x H).
  destruct l as [|y l]; [done|]. field. apply inject_nat_nonzero.
Qed.

Lemma sum_perm (l l' : list Q) :
  l ≡ₚ l' → (foldr Qplus 0 l == foldr Qplus 0 l')%Q.
Proof.
  induction 1 as [|x l l' _ IH|x y l|l l' l'' _ IH1 _ IH2]; simpl.
  - reflexivity.
  - rewrite IH. reflexivity.
  - ring.
  - etransitivity; eassumption.
Qed.

Lemma arithmetic_mean_perm (l l' : list Q) :
  l ≡ₚ l' → (arithmetic_mean l == arithmetic_mean l')%Q.
Proof.
  intros Hp. unfold arithmetic_mean.
  rewrite (sum_perm l l' Hp), (Permutation_length Hp). reflexivity.
Qed.

(** X18. Averaging modules that hold the same values returns those values:
    if every other input agrees with the first, position by position, under
    each parameter name, the module returned holds, under each name, what
    the first input held (a single input included). *)
Theorem averaging_identical_modules (m0 : nat) (rest : list nat) (w : world)
    (Hwf : well_formed w m0)
    (Hschema : ∀ m, m ∈ rest → same_schema w m0 m)
    (Hsame : ∀ m key i, m ∈ rest →
       (nth i (param_at w m key) 0 == nth i (param_at w m0 key) 0)%Q) :
  let out := _federated_averaging (m0 :: rest) w in
  out.1 = Ok m0 ∧
  ∀ key a, dict_get (params_of w m0) key = Some a →
    length (deref out.2 a) = length (deref w a) ∧
    ∀ i, (i < length (deref w a))%nat →
      (nth i (deref out.2 a) 0 == nth i (deref w a) 0)%Q.
Proof.
  destruct (federated_averaging_values m0 rest w Hwf Hschema)
    as (w' & Hrun & _ & Hvals).
  intros out. unfold out. rewrite Hrun. cbn [fst snd].
  split; [reflexivity|]. intros key a Ha. rewrite (Hvals key a Ha).
  destruct (averaged_pointwise m0 rest w key a Hschema Ha) as [Hlen Hnth].
  split; [exact Hlen|]. intros i Hi.
  etransitivity; [exact (Hnth i Hi)|].
  apply arithmetic_mean_const; [discriminate|].
  intros y Hy. apply list_elem_of_fmap in Hy as (m & -> & Hm).
  assert (H0 : param_at w m0 key = deref w a) by (unfold param_at; rewrite Ha; reflexivity).
  rewrite <- H0. apply elem_of_cons in Hm as [->|Hm]; [reflexivity|].
  apply Hsame. exact Hm.
Qed.

(** X19. Every input weighs the same: reordering the inputs that follow the
    first changes nothing in the values written to the first. *)
Theorem averaging_ignores_order (m0 : nat) (rest rest' : list nat) (w : world)
    (Hperm : rest ≡ₚ rest')
    (Hwf : well_formed w m0)
    (Hschema : ∀ m, m ∈ rest → same_schema w m0 m) :
  let out := _federated_averaging (m0 :: rest) w in
  let out' := _federated_averaging (m0 :: rest') w in
  out.1 = Ok m0 ∧ out'.1 = Ok m0 ∧
  ∀ key a, dict_get (params_of w m0) key = Some a →
    length (deref out.2 a) = length (deref out'.2 a) ∧
    ∀ i, (nth i (deref out.2 a) 0 == nth i (deref out'.2 a) 0)%Q.
Proof.
  assert (Hschema' : ∀ m, m ∈ rest' → same_schema w m0 m).
  { intros m Hm. apply Hschema. rewrite Hperm. exact Hm. }
  destruct (federated_averaging_values m0 rest w Hwf Hschema)
    as (w1 & Hrun & _ & Hvals).
  destruct (federated_averaging_values m0 rest' w Hwf Hschema')
    as (w2 & Hrun' & _ & Hvals').
  intros out out'. unfold out, out'. rewrite Hrun, Hrun'. cbn [fst snd].
  split; [reflexivity|]. split; [reflexivity|].
  intros key a Ha. rewrite (Hvals key a Ha), (Hvals' key a Ha).
  destruct (averaged_pointwise m0 rest w key a Hschema Ha) as [Hlen Hnth].
  destruct (averaged_pointwise m0 rest' w key a Hschema' Ha) as [Hlen' Hnth'].
  split; [congruence|]. intros i.
  destruct (decide (i < length (deref w a))%nat) as [Hi|Hi].
  - rewrite (Hnth i Hi), (Hnth' i Hi). apply arithmetic_mean_perm.
    apply Permutation_map. constructor. exact Hperm.
  - rewrite !nth_overflow by lia. reflexivity.
Qed.

Lemma shape_at_single (w : world) (m : nat) (k : string) (a : nat) (key : string) :
  params_of w m = [(k, a)] →
  shape_at w m key = if String.eqb k key then Some (length (deref w a)) else None.
Proof.
  intros H. unfold shape_at. rewrite H. simpl.
  destruct (String.eqb k key); reflexivity.
Qed.

Lemma param_at_single (w : world) (m : nat) (k : string) (a : nat) (key : string) :
  params_of w m = [(k, a)] →
  param_at w m key = if String.eqb k key then deref w a else [].
Proof.
  intros H. unfold param_at. rewrite H. simpl.
  destruct (String.eqb k key); reflexivity.
Qed.

Lemma averaging_identical_modules_witness :
  well_formed w_same 0 ∧
  (∀ m, m ∈ [1; 2]%nat → same_schema w_same 0 m) ∧
  (∀ m key i, m ∈ [1; 2]%nat →
     (nth i (param_at w_same m key) 0 == nth i (param_at w_same 0 key) 0)%Q) ∧
  let out := _federated_averaging [0; 1; 2]%nat w_same in
  out.1 = Ok 0%nat ∧
  ∀ key a, dict_get (params_of w_same 0) key = Some a →
    length (deref out.2 a) = length (deref w_same a) ∧
    ∀ i, (i < length (deref w_same a))%nat →
      (nth i (deref out.2 a) 0 == nth i (deref w_same a) 0)%Q.
Proof.
  assert (Hwf : well_formed w_same 0) by (unfold well_formed; compute_done).
  assert (Hschema : ∀ m, m ∈ [1; 2]%nat → same_schema w_same 0 m).
  { intros m Hm key. rewrite (shape_at_single w_same 0 "weight" 0 key eq_refl).
    by_cases_on_names Hm.
    - rewrite (shape_at_single w_same 1 "weight" 1 key eq_refl). reflexivity.
    - rewrite (shape_at_single w_same 2 "weight" 2 key eq_refl). reflexivity. }
  assert (Hsame : ∀ m key i, m ∈ [1; 2]%nat →
     (nth i (param_at w_same m key) 0 == nth i (param_at w_same 0 key) 0)%Q).
  { intros m key i Hm. rewrite (param_at_single w_same 0 "weight" 0 key eq_refl).
    by_cases_on_names Hm.
    - rewrite (param_at_single w_same 1 "weight" 1 key eq_refl). reflexivity.
    - rewrite (param_at_single w_same 2 "weight" 2 key eq_refl). reflexivity. }
  split; [exact Hwf|]. split; [exact Hschema|]. split; [exact Hsame|].
  exact (averaging_identical_modules 0 [1; 2]%nat w_same Hwf Hschema Hsame).
Defined.

Lemma averaging_ignores_order_witness :
  [1; 2]%nat ≡ₚ [2; 1]%nat ∧
  well_formed w_three 0 ∧
  (∀ m, m ∈ [1; 2]%nat → same_schema w_three 0 m) ∧
  let out := _federated_averaging [0; 1; 2]%nat w_three in
  let out' := _federated_averaging [0; 2; 1]%nat w_three in
  out.1 = Ok 0%nat ∧ out'.1 = Ok 0%nat ∧
  ∀ key a, dict_get (params_of w_three 0) key = Some a →
    length (deref out.2 a) = length (deref out'.2 a) ∧
    ∀ i, (nth i (deref out.2 a) 0 == nth i (deref out'.2 a) 0)%Q.
Proof.
  assert (Hperm : [1; 2]%nat ≡ₚ [2; 1]%nat) by apply perm_swap.
  assert (Hwf : well_formed w_three 0) by (unfold well_formed; compute_done).
  assert (Hschema : ∀ m, m ∈ [1; 2]%nat → same_schema w_three 0 m).
  { intros m Hm key. rewrite (shape_at_single w_three 0 "weight" 0 key eq_refl).
    by_cases_on_names Hm.
    - rewrite (shape_at_single w_three 1 "weight" 1 key eq_refl). reflexivity.
    - rewrite (shape_at_single w_three 2 "weight" 2 key eq_refl). reflexivity. }
  split; [exact Hperm|]. split; [exact Hwf|]. split; [exact Hschema|].
  exact (averaging_ignores_order 0 [1; 2]%nat [2; 1]%nat w_three Hperm Hwf Hschema).
Defined.

(** *** Failures of the averaging *)

Lemma tensors_at_inv (w : world) (models : list nat) (key : string) :
  match tensors_at w models key with
  | Ok ts => ts = map (λ m, param_at w m key) models
  | Raise e =>
      e = KeyError key ∧ ∃ m, m ∈ models ∧ dict_get (params_of w m) key = None
  end.
Proof.
  unfold tensors_at. induction models as [|m models IH]; [reflexivity|].
  cbn [rmap_list map]. unfold getitem at 1. rewrite dict_get_state_dict.
  unfold param_at at 1.
  destruct (dict_get (params_of w m) key) as [a|] eqn:Ea; cbn [fmap option_fmap option_map rbind read].
  - destruct (rmap_list _ models) as [ts|e]; cbn [rbind].
    + rewrite IH. reflexivity.
    + destruct IH as (-> & m' & Hm' & Hnone). split; [reflexivity|].
      exists m'. split; [right; exact Hm'|exact Hnone].
  - split; [reflexivity|]. exists m. split; [left|exact Ea].
Qed.

Lemma forallb_false {A} (f : A → bool) (l : list A) :
  forallb f l = false → ∃ x, x ∈ l ∧ f x = false.
Proof.
  induction l as [|x l IH]; simpl; [discriminate|].
  destruct (f x) eqn:E; simpl.
  - intros H. destruct (IH H) as (y & Hy & Hf). exists y. split; [right|]; assumption.
  - intros _. exists x. split; [left|exact E].
Qed.

Lemma torch_stack_inv (t : tensor) (rest : list tensor) :
  match torch_stack (t :: rest) with
  | Ok ts => ts = t :: rest ∧ Forall (λ t', length t' = length t) (t :: rest)
  | Raise e =>
      e = RuntimeError "torch.stack" ∧
      ∃ t', t' ∈ rest ∧ length t' ≠ length t
  end.
Proof.
  cbn [torch_stack]. destruct (forallb _ rest) eqn:E.
  - split; [reflexivity|]. constructor; [reflexivity|].
    apply Forall_forall. intros t' Hin.
    rewrite forallb_forall in E. apply Nat.eqb_eq, E.
    apply list_elem_of_In. exact Hin.
  - split; [reflexivity|]. destruct (forallb_false _ _ E) as (t' & Hin & Hf).
    exists t'. split; [exact Hin|]. apply Nat.eqb_neq. exact Hf.
Qed.

(** The averaging loop either binds every name to its average or stops at a
    name that an input lacks or holds in another size. *)
Lemma average_loop_inv (w : world) (m0 : nat) (rest : list nat)
    (ks : list string) (d : list (string * tref)) :
  match average_loop w (m0 :: rest) ks d with
  | Ok d' =>
      d' = foldl (λ d k, setitem d k (Fresh (averaged w (m0 :: rest) k))) d ks ∧
      ∀ k, k ∈ ks →
        length (averaged w (m0 :: rest) k) = length (param_at w m0 k)
  | Raise e =>
      ∃ key m, key ∈ ks ∧ m ∈ m0 :: rest ∧
        ((dict_get (params_of w m) key = None ∧ e = KeyError key) ∨
         (length (param_at w m key) ≠ length (param_at w m0 key) ∧
          e = RuntimeError "torch.stack"))
  end.
Proof.
  revert d. induction ks as [|key ks IH]; intros d.
  - simpl. split; [reflexivity|]. intros k Hk. inversion Hk.
  - cbn [average_loop].
    pose proof (tensors_at_inv w (m0 :: rest) key) as Hts.
    destruct (tensors_at w (m0 :: rest) key) as [ts|e]; cbn [rbind].
    + subst ts. cbn [map].
      pose proof (torch_stack_inv (param_at w m0 key)
                    (map (λ m, param_at w m key) rest)) as Hst.
      cbn [map] in Hst.
      destruct (torch_stack _) as [stacked|e]; cbn [rbind].
      * destruct Hst as [-> Hall].
        fold (averaged w (m0 :: rest) key). cbn [map].
        specialize (IH (setitem d key (Fresh (averaged w (m0 :: rest) key)))).
        destruct (average_loop _ _ ks _) as [d'|e].
        -- destruct IH as [-> Hlen]. split; [reflexivity|].
           intros k Hk. apply elem_of_cons in Hk as [->|Hk]; [|apply Hlen, Hk].
           assert (Hne : param_at w m0 key :: map (λ m, param_at w m key) rest ≠ [])
             by discriminate.
           exact (proj1 (mean_dim0_pointwise _ _ Hne Hall)).
        -- destruct IH as (k & m & Hk & Hm & Hcase).
           exists k, m. split; [right; exact Hk|]. split; assumption.
      * destruct Hst as (-> & t' & Hin & Hlen).
        apply list_elem_of_fmap in Hin as (m & -> & Hm).
        exists key, m. split; [left|]. split; [right; exact Hm|].
        right. split; [exact Hlen|reflexivity].
    + destruct Hts as (-> & m & Hm & Hnone).
      exists key, m. split; [left|]. split; [exact Hm|].
      left. split; [exact Hnone|reflexivity].
Qed.

Lemma length_deref_write (w : world) (a b : nat) (v : tensor) :
  length v = length (deref w a) →
  length (deref (write w a v) b) = length (deref w b).
Proof.
  intros Hlen. rewrite deref_write. destruct (decide (a = b)) as [->|]; [|reflexivity].
  destruct (decide (b < length (tensors w))%nat) as [Hlt|Hge]; [exact Hlen|].
  unfold deref. assert (Hle : (length (tensors w) ≤ b)%nat) by lia.
  apply lookup_ge_None in Hle. rewrite Hle. reflexivity.
Qed.

Lemma copy_params_lengths (params : list (string * nat))
    (sd : list (string * tref)) (w : world) :
  (∀ k a, (k, a) ∈ params →
     ∃ v, dict_get sd k = Some (Fresh v) ∧ length v = length (deref w a)) →
  (copy_params params sd w).1 = true.
Proof.
  revert w. induction params as [|[k a] params IH]; intros w H; [reflexivity|].
  destruct (H k a) as (v & Hv & Hlen); [left|].
  simpl. rewrite Hv. simpl. rewrite Hlen, Nat.eqb_refl.
  apply IH. intros k' a' Hin.
  destruct (H k' a') as (v' & Hv' & Hlen'); [right; exact Hin|].
  exists v'. split; [exact Hv'|].
  rewrite length_deref_write by exact Hlen. exact Hlen'.
Qed.

(** X20. [_federated_averaging] fails before it writes anything. Given a
    first input built as Python builds it (distinct parameter names), a
    call that raises leaves the store exactly as it was, and it raises for
    one of three reasons: no input at all ([ValueError]); an input that
    lacks a parameter name of the first input ([KeyError] with that name);
    an input holding, under a name of the first input, a tensor of another
    size ([RuntimeError] from [torch.stack]). *)
Theorem federated_averaging_fails_cleanly (models : list nat) (w : world)
    (e : exn)
    (Hkeys : ∀ m0, head models = Some m0 → NoDup (params_of w m0).*1)
    (Hraise : (_federated_averaging models w).1 = Raise e) :
  (_federated_averaging models w).2 = w ∧
  ((models = [] ∧ e = ValueError "No models to average") ∨
   ∃ key m m0, head models = Some m0 ∧ key ∈ keys (params_of w m0) ∧
     m ∈ models ∧
     ((dict_get (params_of w m) key = None ∧ e = KeyError key) ∨
      (length (param_at w m key) ≠ length (param_at w m0 key) ∧
       e = RuntimeError "torch.stack"))).
Proof.
  destruct models as [|m0 rest].
  { simpl in *. injection Hraise as <-. split; [reflexivity|]. left. done. }
  specialize (Hkeys m0 eq_refl).
  unfold _federated_averaging in *.
  pose proof (average_loop_inv w m0 rest (keys (state_dict w m0))
                (state_dict w m0)) as Hinv.
  destruct (average_loop _ _ _ _) as [d'|e'].
  - exfalso. destruct Hinv as [Hd' Hlen].
    assert (Hok : (copy_params (params_of w m0) d' w).1 = true).
    { apply copy_params_lengths. intros k a Hin.
      assert (Hk : k ∈ keys (state_dict w m0))
        by (rewrite keys_state_dict; eapply elem_of_keys; exact Hin).
      exists (averaged w (m0 :: rest) k). split.
      - rewrite Hd', dict_get_averaged. apply decide_True. exact Hk.
      - rewrite (Hlen k Hk). unfold param_at.
        rewrite (dict_get_nodup _ _ _ Hkeys Hin). reflexivity. }
    unfold load_state_dict in Hraise.
    destruct (copy_params (params_of w m0) d' w) as [ok w']. cbn [fst] in Hok.
    subst ok.
    replace (forallb _ (keys d')) with true in Hraise; [discriminate|].
    symmetry. apply forallb_forall. intros k Hk. apply bool_decide_eq_true.
    apply list_elem_of_In in Hk. rewrite Hd' in Hk.
    rewrite keys_averaged in Hk by done.
    rewrite keys_state_dict in Hk. exact Hk.
  - cbn [fst snd] in *. injection Hraise as ->. split; [reflexivity|].
    right. destruct Hinv as (key & m & Hkey & Hm & Hcase).
    exists key, m, m0. split; [reflexivity|].
    rewrite keys_state_dict in Hkey. split; [exact Hkey|]. split; assumption.
Qed.

Lemma federated_averaging_fails_cleanly_witness :
  (∀ m0, head [0; 1]%nat = Some m0 → NoDup (params_of w_mismatch m0).*1) ∧
  (_federated_averaging [0; 1]%nat w_mismatch).1 = Raise (KeyError "weight") ∧
  (_federated_averaging [0; 1]%nat w_mismatch).2 = w_mismatch ∧
  (([0; 1]%nat = [] ∧ KeyError "weight" = ValueError "No models to average") ∨
   ∃ key m m0, head [0; 1]%nat = Some m0 ∧
     key ∈ keys (params_of w_mismatch m0) ∧ m ∈ [0; 1]%nat ∧
     ((dict_get (params_of w_mismatch m) key = None ∧
       KeyError "weight" = KeyError key) ∨
      (length (param_at w_mismatch m key) ≠ length (param_at w_mismatch m0 key) ∧
       KeyError "weight" = RuntimeError "torch.stack"))).
Proof.
  assert (Hkeys : ∀ m0, head [0; 1]%nat = Some m0 →
            NoDup (params_of w_mismatch m0).*1).
  { intros m0 [= <-]. compute_done. }
  assert (Hraise : (_federated_averaging [0; 1]%nat w_mismatch).1
                   = Raise (KeyError "weight")) by reflexivity.
  split; [exact Hkeys|]. split; [exact Hraise|].
  exact (federated_averaging_fails_cleanly [0; 1]%nat w_mismatch _ Hkeys Hraise).
Defined.

(** ** More on differential privacy *)

(** X21. With a non-zero [epsilon], [_apply_differential_privacy] returns
    its module having consumed exactly as many generator draws as the
    perturbed tensors have elements; every tensor of the store keeps its
    size, and the tensors that do not belong to the module keep their
    values. *)
Theorem privacy_draws_and_shapes (model : nat) (epsilon : Q) (w : world)
    (Heps : ¬ (epsilon == 0)%Q) (Hwf : well_formed w model) :
  let out := _apply_differential_privacy model epsilon w in
  out.1 = Ok model ∧
  rng_pos out.2 = (rng_pos w + noise_total w (params_of w model))%nat ∧
  (∀ b, length (deref out.2 b) = length (deref w b)) ∧
  (∀ b, b ∉ (params_of w model).*2 → deref out.2 b = deref w b).
Proof.
  assert (Hnz : Qeq_bool epsilon 0 = false).
  { destruct (Qeq_bool epsilon 0) eqn:E; [|reflexivity].
    apply Qeq_bool_eq in E. contradiction. }
  destruct (differential_privacy_run model epsilon w Hnz Hwf)
    as (w' & Hrun & Hm & Hfr & Hval).
  destruct Hwf as [Hk Ha].
  destruct (privacy_loop_pos (params_of w model) (state_dict w model) epsilon w
              Hnz Ha) as [Hpos _].
  { intros k a. apply state_dict_alias. exact Hk. }
  intros out. unfold out. rewrite Hrun. cbn [fst snd].
  split; [reflexivity|]. split; [|split; [|exact Hfr]].
  - unfold _apply_differential_privacy in Hrun.
    rewrite keys_state_dict in Hrun. unfold keys in *.
    destruct (privacy_loop _ _ _ _) as [[sd'|e] w1]; [|discriminate].
    cbn [snd] in Hpos. rewrite <- Hpos.
    pose proof (load_state_dict_frame model sd' w1) as Hload. cbv zeta in Hload.
    destruct (load_state_dict model sd' w1) as [[[]|e] w2]; [|discriminate].
    injection Hrun as <-. cbn [snd] in Hload. tauto.
  - intros b. destruct (decide (b ∈ (params_of w model).*2)) as [Hin|Hnot].
    + apply list_elem_of_fmap in Hin as ([k a] & -> & Hin). simpl.
      rewrite (Hval k a) by (apply dict_get_nodup; assumption).
      destruct (perturbed k); [|reflexivity].
      rewrite length_tensor_add; [reflexivity|].
      rewrite length_scaled_noise. reflexivity.
    + rewrite (Hfr b Hnot). reflexivity.
Qed.

(** X22. The perturbation is inversely proportional to [epsilon]: started
    from the same store and generator, the amount added to any element of
    any parameter with a non-zero [epsilon] is the amount added with
    [epsilon = 1], divided by [epsilon]. *)
Theorem privacy_noise_scales (model : nat) (epsilon : Q) (w : world)
    (Heps : ¬ (epsilon == 0)%Q) (Hwf : well_formed w model) :
  let out := _apply_differential_privacy model epsilon w in
  let unit := _apply_differential_privacy model 1 w in
  ∀ key a i, dict_get (params_of w model) key = Some a →
    (nth i (deref out.2 a) 0 - nth i (deref w a) 0 ==
     (nth i (deref unit.2 a) 0 - nth i (deref w a) 0) / epsilon)%Q.
Proof.
  assert (Hnz : Qeq_bool epsilon 0 = false).
  { destruct (Qeq_bool epsilon 0) eqn:E; [|reflexivity].
    apply Qeq_bool_eq in E. contradiction. }
  destruct (differential_privacy_run model epsilon w Hnz Hwf)
    as (w1 & Hrun1 & _ & _ & Hval1).
  destruct (differential_privacy_run model 1 w eq_refl Hwf)
    as (w2 & Hrun2 & _ & _ & Hval2).
  intros out unit. unfold out, unit. rewrite Hrun1, Hrun2. cbn [snd].
  intros key a i Ha. rewrite (Hval1 key a Ha), (Hval2 key a Ha).
  destruct (perturbed key).
  - destruct (decide (i < length (deref w a))%nat) as [Hi|Hi].
    + rewrite !nth_tensor_add
        by (rewrite ?length_scaled_noise; (reflexivity || exact Hi)).
      rewrite !nth_scaled_noise by exact Hi. field. exact Heps.
    + assert (Hlen : ∀ e0 s0,
        length (tensor_add (deref w a)
                  (scaled_noise w e0 s0 (length (deref w a))))
        = length (deref w a))
        by (intros; apply length_tensor_add; rewrite length_scaled_noise;
            reflexivity).
      rewrite !nth_overflow by (rewrite ?Hlen; lia).
      field. exact Heps.
  - field. exact Heps.
Qed.

Lemma privacy_draws_and_shapes_witness :
  ¬ (-2 == 0)%Q ∧ well_formed w_gamma 0 ∧
  let out := _apply_differential_privacy 0 (-2) w_gamma in
  out.1 = Ok 0%nat ∧
  rng_pos out.2 = (rng_pos w_gamma + noise_total w_gamma (params_of w_gamma 0))%nat ∧
  (∀ b, length (deref out.2 b) = length (deref w_gamma b)) ∧
  (∀ b, b ∉ (params_of w_gamma 0).*2 → deref out.2 b = deref w_gamma b).
Proof.
  assert (Heps : ¬ (-2 == 0)%Q) by discriminate.
  assert (Hwf : well_formed w_gamma 0) by (unfold well_formed; compute_done).
  split; [exact Heps|]. split; [exact Hwf|].
  exact (privacy_draws_and_shapes 0 (-2) w_gamma Heps Hwf).
Defined.

Lemma privacy_noise_scales_witness :
  ¬ ((1 # 2) == 0)%Q ∧ well_formed w_gamma 0 ∧
  let out := _apply_differential_privacy 0 (1 # 2) w_gamma in
  let unit := _apply_differential_privacy 0 1 w_gamma in
  ∀ key a i, dict_get (params_of w_gamma 0) key = Some a →
    (nth i (deref out.2 a) 0 - nth i (deref w_gamma a) 0 ==
     (nth i (deref unit.2 a) 0 - nth i (deref w_gamma a) 0) / (1 # 2))%Q.
Proof.
  assert (Heps : ¬ ((1 # 2) == 0)%Q) by discriminate.
  assert (Hwf : well_formed w_gamma 0) by (unfold well_formed; compute_done).
  split; [exact Heps|]. split; [exact Hwf|].
  exact (privacy_noise_scales 0 (1 # 2) w_gamma Heps Hwf).
Defined.

(** ** Federated learning, end to end *)

Lemma dict_get_param_values (w : world) (m : nat) (key : string) :
  dict_get (param_values w m) key = deref w <$> dict_get (params_of w m) key.
Proof.
  unfold param_values. induction (params_of w m) as [|[k a] d IH]; simpl.
  - reflexivity.
  - destruct (String.eqb k key); [reflexivity|exact IH].
Qed.

Lemma dict_get_schema_of (params : list (string * tensor)) (key : string) :
  dict_get (schema_of params) key = length <$> dict_get params key.
Proof.
  unfold schema_of. induction params as [|[k v] d IH]; simpl.
  - reflexivity.
  - destruct (String.eqb k key); [reflexivity|exact IH].
Qed.

Lemma shape_at_values (w : world) (m : nat) (key : string) :
  shape_at w m key = dict_get (schema_of (param_values w m)) key.
Proof.
  rewrite dict_get_schema_of, dict_get_param_values. unfold shape_at.
  destruct (dict_get (params_of w m) key); reflexivity.
Qed.

Lemma param_at_values (w : world) (m : nat) (key : string) :
  param_at w m key = default [] (dict_get (param_values w m) key).
Proof.
  rewrite dict_get_param_values. unfold param_at.
  destruct (dict_get (params_of w m) key); reflexivity.
Qed.

Lemma keys_param_values (w : world) (m : nat) :
  (params_of w m).*1 = keys (param_values w m).
Proof.
  unfold param_values, keys. rewrite map_map. reflexivity.
Qed.

Lemma imap_addresses (params : list (string * tensor)) (base : nat) :
  (imap (λ i (kv : string * tensor), (kv.1, base + i)%nat) params).*2
  = seq base (length params).
Proof.
  revert base. induction params as [|kv params IH]; intros base; [reflexivity|].
  rewrite imap_cons. cbn [fmap list_fmap snd length seq].
  rewrite Nat.add_0_r. f_equal. rewrite <- (IH (S base)).
  f_equal. apply imap_ext. intros i x _. simpl. f_equal. lia.
Qed.

Lemma new_module_holds (params : list (string * tensor)) (w : world) :
  holds (new_module params w).2 (length (nn_modules w)) params.
Proof.
  destruct (new_module_spec params w) as (_ & Hvals & _).
  assert (Hp : params_of (new_module params w).2 (length (nn_modules w))
               = imap (λ i kv, (kv.1, length (tensors w) + i)%nat) params).
  { unfold new_module, params_of. cbn [snd nn_modules].
    rewrite lookup_app_r by lia. rewrite Nat.sub_diag. reflexivity. }
  split; [|split; [exact Hvals|split]].
  - unfold new_module. cbn [snd nn_modules]. rewrite length_app. simpl. lia.
  - rewrite Hp, imap_addresses. apply NoDup_seq.
  - intros a Ha. rewrite Hp, imap_addresses in Ha. apply elem_of_seq in Ha.
    unfold new_module. cbn [snd tensors]. rewrite length_app, length_map. lia.
Qed.

Lemma holds_frame (w w' : world) (m : nat) (params : list (string * tensor)) :
  holds w m params →
  (length (nn_modules w) ≤ length (nn_modules w'))%nat →
  (length (tensors w) ≤ length (tensors w'))%nat →
  (∀ m', (m' < length (nn_modules w))%nat → params_of w' m' = params_of w m') →
  (∀ a, (a < length (tensors w))%nat → deref w' a = deref w a) →
  holds w' m params.
Proof.
  intros (Hm & Hvals & Hnd & Hvalid) Hlm Hlt Hmods Hts.
  assert (Hp : params_of w' m = params_of w m) by (apply Hmods; exact Hm).
  split; [lia|]. split; [|split].
  - rewrite <- Hvals. unfold param_values. rewrite Hp.
    apply map_ext_in. intros [k a] Hin. simpl. f_equal. apply Hts, Hvalid.
    apply list_elem_of_fmap. exists (k, a). split; [reflexivity|].
    apply list_elem_of_In. exact Hin.
  - rewrite Hp. exact Hnd.
  - intros a Ha. rewrite Hp in Ha. specialize (Hvalid a Ha). lia.
Qed.

Lemma map_seq_lookup {A B} (f : nat → B) (g : A → B) (l : list A) (base : nat) :
  (∀ j x, l !! j = Some x → f (base + j)%nat = g x) →
  map f (seq base (length l)) = map g l.
Proof.
  revert base. induction l as [|x l IH]; intros base H; [reflexivity|].
  cbn [length seq map]. f_equal.
  - rewrite <- (H 0%nat x eq_refl). f_equal. lia.
  - apply IH. intros j y Hj. rewrite <- (H (S j) y Hj). f_equal. lia.
Qed.

Section FederatedRun.

Variable fit : ModuleConfig → result (list (string * tensor)).
Variable output_dir : string.

Lemma train_clients_holds (configs : list ModuleConfig) (s : state) :
  (∀ c, c ∈ configs → ∃ params, fit c = Ok params) →
  let out := train_clients fit output_dir configs s in
  out.1 = Ok (seq (length (nn_modules (store s))) (length configs)) ∧
  torch_rng (store out.2) = torch_rng (store s) ∧
  rng_pos (store out.2) = rng_pos (store s) ∧
  ∀ j c params, configs !! j = Some c → fit c = Ok params →
    holds (store out.2) (length (nn_modules (store s)) + j) params.
Proof.
  cbv zeta. revert s. induction configs as [|c configs IH]; intros s Hfit.
  - simpl. split; [reflexivity|]. split; [reflexivity|]. split; [reflexivity|].
    intros j c params Hj. discriminate.
  - destruct (Hfit c) as [params Hc]; [left|].
    rewrite train_clients_cons.
    destruct (train_module_Ok fit output_dir c params s Hc)
      as (Hret & Hstore & _).
    destruct (train_module _ _ _ _) as [r s0]. cbn [fst snd] in *. subst r.
    assert (Hfit' : ∀ c', c' ∈ configs → ∃ params', fit c' = Ok params')
      by (intros c' Hc'; apply Hfit; right; exact Hc').
    destruct (IH s0 Hfit') as (Hok & Hg & Hp & Hholds).
    pose proof (train_clients_frame fit output_dir configs s0) as Hfr.
    cbv zeta in Hfr. destruct Hfr as (_ & F2 & F3 & F4 & F5).
    assert (Hbase : length (nn_modules (store s0))
                    = S (length (nn_modules (store s)))).
    { rewrite Hstore. unfold new_module. cbn [snd nn_modules].
      rewrite length_app. simpl. lia. }
    destruct (train_clients _ _ _ _) as [r s1]. cbn [fst snd] in *. subst r.
    cbn [fst snd].
    split; [cbn [length seq]; rewrite Hbase; reflexivity|].
    split; [rewrite Hg, Hstore; reflexivity|].
    split; [rewrite Hp, Hstore; reflexivity|].
    intros j c' params' Hj Hc'. destruct j as [|j].
    + injection Hj as <-. rewrite Hc in Hc'. injection Hc' as <-.
      rewrite Nat.add_0_r.
      apply (holds_frame (store s0)); try assumption.
      rewrite Hstore. apply new_module_holds.
    + replace (length (nn_modules (store s)) + S j)%nat
        with (length (nn_modules (store s0)) + j)%nat by lia.
      apply (Hholds j c' params' Hj Hc').
Qed.






(** X23. [federated_learning] succeeds whenever every client trains to
    parameters of one schema (distinct names, the same sizes under the same
    names). It returns the first client's module, in which every element of
    every parameter is the arithmetic mean, over all clients, of the
    trained values at that position, plus, for the parameters named after
    ["weight"] or ["bias"] only, one generator draw (the noise scale for
    [epsilon = 1] being 1). *)
Theorem federated_learning_end_to_end (c0 : ModuleConfig)
    (rest : list ModuleConfig) (schema : list (string * nat)) (s : state)
    (Hfit : ∀ c, c ∈ c0 :: rest →
       ∃ params, fit c = Ok params ∧ NoDup (keys params) ∧
                 schema_of params = schema) :
  let out := federated_learning fit output_dir (c0 :: rest) s in
  let g := length (nn_modules (store s)) in
  out.1 = Ok g ∧
  ∀ key n, dict_get schema key = Some n →
    length (param_at (store out.2) g key) = n ∧
    ∃ start, (rng_pos (store s) ≤ start)%nat ∧
      ∀ i, (i < n)%nat →
        (nth i (param_at (store out.2) g key) 0 ==
         arithmetic_mean
           (map (λ c, nth i (trained_value fit c key) 0) (c0 :: rest))
         + (if contains "weight" key || contains "bias" key
            then torch_rng (store s) (start + i)
            else 0))%Q.
Proof.
  intros out g.
  set (configs := c0 :: rest) in *.
  assert (Hfit' : ∀ c, c ∈ configs → ∃ params, fit c = Ok params).
  { intros c Hc. destruct (Hfit c Hc) as (params & Hp & _). eauto. }
  destruct (train_clients_holds configs s Hfit') as (Hok & Hg & Hp & Hholds).
  unfold out, federated_learning, mbind, P_bind, lift_store.
  destruct (train_clients fit output_dir configs s) as [r s1].
  cbn [fst snd] in *. subst r. fold g in Hholds.
  set (w1 := store s1) in *.
  (* the store after training *)
  assert (Hmod : ∀ j c, configs !! j = Some c →
    ∃ params, fit c = Ok params ∧ NoDup (keys params) ∧
      schema_of params = schema ∧ holds w1 (g + j) params).
  { intros j c Hj. destruct (Hfit c) as (params & Hc & Hnd & Hsch).
    - eapply list_elem_of_lookup_2. exact Hj.
    - exists params. repeat split; try assumption.
      + apply (Hholds j c params Hj Hc).
      + apply (Hholds j c params Hj Hc).
      + apply (Hholds j c params Hj Hc).
      + apply (Hholds j c params Hj Hc). }
  destruct (Hmod 0%nat c0 eq_refl) as (params0 & Hc0 & Hnd0 & Hsch0 & Hh0).
  rewrite Nat.add_0_r in Hh0. destruct Hh0 as (_ & Hv0 & Haddr0 & _).
  assert (Hwf : well_formed w1 g).
  { split; [|exact Haddr0]. rewrite keys_param_values, Hv0. exact Hnd0. }
  assert (Hshape : ∀ j c key, configs !! j = Some c →
            shape_at w1 (g + j) key = dict_get schema key).
  { intros j c key Hj. destruct (Hmod j c Hj) as (params & _ & _ & Hsch & Hh).
    destruct Hh as (_ & Hv & _). rewrite shape_at_values, Hv, Hsch. reflexivity. }
  assert (Hschema : ∀ m, m ∈ seq (S g) (length rest) → same_schema w1 g m).
  { intros m Hm key. apply elem_of_seq in Hm.
    assert (Hj : ∃ c, configs !! (m - g)%nat = Some c).
    { apply lookup_lt_is_Some. unfold configs. simpl. lia. }
    destruct Hj as [c Hj].
    rewrite <- (Nat.add_0_r g) at 1.
    rewrite (Hshape 0%nat c0 key eq_refl).
    replace m with (g + (m - g))%nat by lia.
    rewrite (Hshape _ c key Hj). reflexivity. }
  (* averaging *)
  fold g. change (seq g (length configs)) with (g :: seq (S g) (length rest)).
  destruct (federated_averaging_values g (seq (S g) (length rest)) w1 Hwf Hschema)
    as (w2 & Hrun & Hmods2 & Hvals2).
  destruct (federated_averaging_frame g (seq (S g) (length rest)) w1)
    as (_ & _ & Hg2 & Hp2 & _).
  rewrite Hrun in Hg2, Hp2 |- *. cbn [fst snd] in *.
  (* privacy *)
  assert (Hwf2 : well_formed w2 g).
  { unfold well_formed, params_of. rewrite Hmods2. exact Hwf. }
  destruct (differential_privacy_run g 1 w2 eq_refl Hwf2)
    as (w3 & Hrun3 & Hmods3 & _ & Hvals3).
  cbn [store]. rewrite Hrun3. unfold mret, P_ret. cbn [fst snd store].
  split; [reflexivity|].
  intros key n Hn.
  assert (Hkey : ∃ a, dict_get (params_of w1 g) key = Some a ∧
                      length (deref w1 a) = n).
  { pose proof (Hshape 0%nat c0 key eq_refl) as H0.
    rewrite Nat.add_0_r, Hn in H0. unfold shape_at in H0.
    destruct (dict_get (params_of w1 g) key) as [a|]; [|discriminate].
    injection H0 as H0. exists a. split; [reflexivity|exact H0]. }
  destruct Hkey as (a & Ha & Hlen).
  assert (Ha2 : dict_get (params_of w2 g) key = Some a)
    by (unfold params_of; rewrite Hmods2; exact Ha).
  assert (Hpar : param_at w3 g key = deref w3 a).
  { unfold param_at, params_of. rewrite Hmods3. fold (params_of w2 g).
    rewrite Ha2. reflexivity. }
  rewrite Hpar, (Hvals3 key a Ha2), (Hvals2 key a Ha).
  assert (Hrest : ∀ m, m ∈ seq (S g) (length rest) → same_schema w1 g m)
    by exact Hschema.
  destruct (averaged_pointwise g (seq (S g) (length rest)) w1 key a Hrest Ha)
    as [Hlavg Hnth].
  rewrite Hlen in Hlavg, Hnth.
  assert (Hmeans : ∀ i,
    map (λ m, nth i (param_at w1 m key) 0%Q) (g :: seq (S g) (length rest))
    = map (λ c, nth i (trained_value fit c key) 0%Q) configs).
  { intros i. change (g :: seq (S g) (length rest)) with (seq g (length configs)).
    apply map_seq_lookup. intros j c Hj.
    destruct (Hmod j c Hj) as (params & Hc & _ & _ & Hh).
    destruct Hh as (_ & Hv & _).
    rewrite param_at_values, Hv. unfold trained_value. rewrite Hc. reflexivity. }
  fold (perturbed key). destruct (perturbed key).
  - split.
    + rewrite length_tensor_add; [exact Hlavg|].
      rewrite length_scaled_noise. reflexivity.
    + exists (rng_pos w2 + noise_start w2 (params_of w2 g) key)%nat. split.
      * rewrite Hp2, Hp. lia.
      * intros i Hi.
        rewrite nth_tensor_add
          by (rewrite ?length_scaled_noise, ?Hlavg; (reflexivity || exact Hi)).
        rewrite Hlavg, nth_scaled_noise by exact Hi.
        rewrite (Hnth i Hi), Hmeans, Hg2, Hg.
        field.
  - split; [exact Hlavg|]. exists (rng_pos (store s)). split; [lia|].
    intros i Hi. rewrite (Hnth i Hi), Hmeans. ring.
Qed.

End FederatedRun.


(** The same run, value by value: the module of ["A"] is the third module
    object and holds its trained weight; the generator has not moved; the
    log has the two lines of ["A"] and the first line of ["B"]. *)
Example client_failure_sample_run :
  let out := federated_learning toy_fit_only_A "trained_modules"
               [config_A; config_B; config_A] s_rising in
  out.1 = Raise (ValueError "No datasets could be loaded") ∧
  nn_modules (store out.2)
  = [[("weight", 0%nat)]; [("weight", 1%nat)]; [("weight", 2%nat)]] ∧
  tensors (store out.2) = [[1%Q]; [3%Q]; [1%Q]] ∧
  rng_pos (store out.2) = 0%nat ∧
  trained_modules out.2 = [("A", 2%nat)] ∧
  trace out.2
  = [LogInfo "Training module: A";
     LogInfo "Module A trained and saved to trained_modules/A";
     LogInfo "Training module: B"].
Proof. repeat split; reflexivity. Qed.

Lemma federated_learning_end_to_end_witness :
  let schema := [("weight", 2%nat); ("gamma", 1%nat)] in
  (∀ c, c ∈ [config_A; config_C] →
     ∃ params, toy_fit_schema c = Ok params ∧ NoDup (keys params) ∧
               schema_of params = schema) ∧
  let out := federated_learning toy_fit_schema "trained_modules"
               [config_A; config_C] s_rising in
  let g := length (nn_modules (store s_rising)) in
  out.1 = Ok g ∧
  ∀ key n, dict_get schema key = Some n →
    length (param_at (store out.2) g key) = n ∧
    ∃ start, (rng_pos (store s_rising) ≤ start)%nat ∧
      ∀ i, (i < n)%nat →
        (nth i (param_at (store out.2) g key) 0 ==
         arithmetic_mean
           (map (λ c, nth i (trained_value toy_fit_schema c key) 0)
                [config_A; config_C])
         + (if contains "weight" key || contains "bias" key
            then torch_rng (store s_rising) (start + i)
            else 0))%Q.
Proof.
  intros schema.
  assert (Hfit : ∀ c, c ∈ [config_A; config_C] →
     ∃ params, toy_fit_schema c = Ok params ∧ NoDup (keys params) ∧
               schema_of params = schema).
  { intros c _. eexists. split; [reflexivity|]. split; [compute_done|reflexivity]. }
  split; [exact Hfit|].
  exact (federated_learning_end_to_end toy_fit_schema "trained_modules"
           config_A [config_C] schema s_rising Hfit).
Defined.
